(** * Paper.js scene graph: Group clip compositing and the Base utilities

    A shallow embedding of [Group] (both revisions kept in the repository:
    the one whose [draw] keeps a closure-level [context], and the one that
    borrows a temporary canvas from [CanvasProvider] and gives it back) and
    of [Base.equals] / [Base.splice] from [src/core/Base.js], followed by
    the properties established about them.

    Conventions.
    - JavaScript numbers that carry geometry are rationals ([Q]); the only
      numeric operations [Group.draw] applies to them are [Math.floor],
      [Math.ceil], negation and [+ 1], which are exact on finite doubles.
    - Array indices and counts are integers ([Z] / [nat]).
    - A property that may be absent ([undefined], or removed with
      [delete]) is an [option]. *)

From Stdlib Require Import Ascii String.
From Stdlib Require Import List ZArith QArith Qround Bool Lia Permutation.
Import ListNotations.

Set Implicit Arguments.

(* ===================================================================== *)
(** * Part I. The model                                                   *)
(* ===================================================================== *)

(** ** Geometry consumed by [Group.draw] *)

Module Geometry.

Record Point := { px : Q; py : Q }.
Record Size := { sw : Q; sh : Q }.
Record Rectangle := { x : Q; y : Q; width : Q; height : Q }.
Record Matrix := { ma : Q; mb : Q; mc : Q; md : Q; mtx : Q; mty : Q }.

Definition getTopLeft (r : Rectangle) : Point := {| px := x r; py := y r |}.
Definition getSize (r : Rectangle) : Size := {| sw := width r; sh := height r |}.

(** Modelled from the spec: [Point#floor], [Size#ceil], [Size#add] and
    [Size.create] are defined outside src/; "floor the rectangle's
    top-left corner and ceil its size, adding one unit of padding in each
    dimension". *)
Definition floor (p : Point) : Point :=
  {| px := inject_Z (Qfloor (px p)); py := inject_Z (Qfloor (py p)) |}.
Definition ceil (s : Size) : Size :=
  {| sw := inject_Z (Qceiling (sw s)); sh := inject_Z (Qceiling (sh s)) |}.
Definition add (s1 s2 : Size) : Size :=
  {| sw := sw s1 + sw s2; sh := sh s1 + sh s2 |}.
Definition Size_create (w h : Q) : Size := {| sw := w; sh := h |}.

(** [!n] for a number [n]: true exactly when [n] is zero. *)
Definition is_zero (n : Q) : bool := Qeq_bool n 0.

End Geometry.
Import Geometry.

(** ** ChangeFlag

    The flag table itself is not part of the sources at hand; the code only
    combines its members with bitwise [|] and tests them with [&], so the
    table is a parameter of everything that follows. *)

Record ChangeFlagTable := {
  GEOMETRY : Z;
  HIERARCHY : Z;
  CLIPPING : Z
}.

(** JavaScript's [&] and [|] on integers: each operand is first brought to
    the signed 32-bit integer congruent to it modulo 2^32 ([ToInt32]), the
    operation is carried out on the two's-complement bits, and the result
    is again a signed 32-bit integer. *)
Definition ToInt32 (n : Z) : Z := ((n + 2 ^ 31) mod 2 ^ 32 - 2 ^ 31)%Z.

Definition bitand (a b : Z) : Z := ToInt32 (Z.land (ToInt32 a) (ToInt32 b)).

Definition bitor (a b : Z) : Z := ToInt32 (Z.lor (ToInt32 a) (ToInt32 b)).

(** The non-negative integers that fit 31 bits: on them [ToInt32] changes
    nothing, and [&] and [|] are [Z.land] and [Z.lor]. *)
Definition int31 (n : Z) : Prop := (0 <= n < 2 ^ 31)%Z.

Definition table_in_range (cf : ChangeFlagTable) : Prop :=
  int31 (GEOMETRY cf) /\ int31 (HIERARCHY cf) /\ int31 (CLIPPING cf).

(** ** CanvasProvider *)

Module CanvasProvider.

Record Canvas := { cid : nat; cwidth : Q; cheight : Q }.

(** Modelled from the spec: [CanvasProvider] ([getCanvas] and
    [returnCanvas] are called by [Group.draw] but defined outside src/).
    "checkout(size): returns a buffer at least size in each dimension,
    reused from a free list keyed by size class when available, else
    newly allocated.  release(surface): returns it to the free list for
    future checkout."  [created] counts the canvases made so far; a new
    canvas takes the next number as its identity. *)
Record t := { canvases : list Canvas; created : nat }.

Definition fits (size : Size) (c : Canvas) : bool :=
  Qle_bool (sw size) (cwidth c) && Qle_bool (sh size) (cheight c).

Fixpoint take (size : Size) (l : list Canvas) : option (Canvas * list Canvas) :=
  match l with
  | [] => None
  | c :: r =>
      if fits size c then Some (c, r)
      else match take size r with
           | Some (c', r') => Some (c', c :: r')
           | None => None
           end
  end.

Definition getCanvas (size : Size) (p : t) : Canvas * t :=
  match take size (canvases p) with
  | Some (c, rest) => (c, {| canvases := rest; created := created p |})
  | None =>
      ({| cid := created p; cwidth := sw size; cheight := sh size |},
       {| canvases := canvases p; created := S (created p) |})
  end.

Definition returnCanvas (c : Canvas) (p : t) : t :=
  {| canvases := c :: canvases p; created := created p |}.

Definition empty : t := {| canvases := []; created := 0 |}.

End CanvasProvider.

(** ** Items and groups *)

(** The fields of [Item] that [Group] reads or writes; [_id] stands for
    the identity of the object.  [_clipMark] is read by one revision of
    [Group.draw]; nothing in the library assigns it. *)
Record ItemFields := {
  _id : nat;
  _index : option Z;
  _clipMask : bool;
  _clipMark : option bool;
  _bounds : option Rectangle;
  _matrix : Matrix
}.

(** The fields [Group] adds.  [getBounds] and [getStrokeBounds] stand for
    the rectangles the geometry code reports for this group. *)
Record GroupFields (I : Type) := {
  _children : list I;
  _clipItems : option (list I);
  compositing : string;
  _clippingCompositionOperation : string;
  getBounds : Rectangle;
  getStrokeBounds : Rectangle
}.

#[local] Unset Elimination Schemes.
Inductive Item : Type :=
| Shape (f : ItemFields)
| Group (f : ItemFields) (g : GroupFields Item).
#[local] Set Elimination Schemes.

Definition fields (it : Item) : ItemFields :=
  match it with Shape f => f | Group f _ => f end.

Definition with_fields (f : ItemFields) (it : Item) : Item :=
  match it with Shape _ => Shape f | Group _ g => Group f g end.

Definition set_clipItems {I} (v : option (list I)) (g : GroupFields I) : GroupFields I :=
  {| _children := _children g; _clipItems := v;
     compositing := compositing g;
     _clippingCompositionOperation := _clippingCompositionOperation g;
     getBounds := getBounds g; getStrokeBounds := getStrokeBounds g |}.

Definition set_children {I} (v : list I) (g : GroupFields I) : GroupFields I :=
  {| _children := v; _clipItems := _clipItems g;
     compositing := compositing g;
     _clippingCompositionOperation := _clippingCompositionOperation g;
     getBounds := getBounds g; getStrokeBounds := getStrokeBounds g |}.

Definition set_bounds_cache (v : option Rectangle) (f : ItemFields) : ItemFields :=
  {| _id := _id f; _index := _index f; _clipMask := _clipMask f;
     _clipMark := _clipMark f; _bounds := v; _matrix := _matrix f |}.

Definition set_clipMask_field (v : bool) (f : ItemFields) : ItemFields :=
  {| _id := _id f; _index := _index f; _clipMask := v;
     _clipMark := _clipMark f; _bounds := _bounds f; _matrix := _matrix f |}.

Definition set_index_field (v : option Z) (f : ItemFields) : ItemFields :=
  {| _id := _id f; _index := v; _clipMask := _clipMask f;
     _clipMark := _clipMark f; _bounds := _bounds f; _matrix := _matrix f |}.

(** A group object: its [Item] part and its [Group] part. *)
Record GroupNode := { base : ItemFields; group : GroupFields Item }.

Definition item_of (n : GroupNode) : Item := Group (base n) (group n).

Definition child_clipMask (it : Item) : bool := _clipMask (fields it).

(** ** Group: change notification and the clip-item cache *)

Section GroupCache.

Context (ChangeFlag : ChangeFlagTable).

(** Modelled from the spec: [Item.prototype._changed] (Item.js is outside
    src/).  "at each ancestor clearing only the caches that flag
    invalidates (GEOMETRY/HIERARCHY/CLIPPING -> cachedBounds ...)". *)
Definition Item__changed (flags : Z) (f : ItemFields) : ItemFields :=
  if (bitand flags
        (bitor (GEOMETRY ChangeFlag)
           (bitor (HIERARCHY ChangeFlag) (CLIPPING ChangeFlag))) =? 0)%Z
  then f
  else set_bounds_cache None f.

(** [Group._changed].  The condition
    [flags & (ChangeFlag.HIERARCHY | ChangeFlag.CLIPPING)] is truthy when
    the 32-bit result is not zero. *)
Definition _changed (flags : Z) (n : GroupNode) : GroupNode :=
  let b := Item__changed flags (base n) in
  if (bitand flags (bitor (HIERARCHY ChangeFlag) (CLIPPING ChangeFlag)) =? 0)%Z
  then {| base := b; group := group n |}
  else {| base := b; group := set_clipItems None (group n) |}.

End GroupCache.

(** [Group._getClipItems]: the list returned and the group afterwards (the
    cache is filled in on a miss). *)
Definition _getClipItems (g : GroupFields Item) : list Item * GroupFields Item :=
  match _clipItems g with
  | None =>
      let items := filter child_clipMask (_children g) in
      (items, set_clipItems (Some items) g)
  | Some items => (items, g)
  end.

(** [Group.isClipped]. *)
Definition isClipped (g : GroupFields Item) : bool * GroupFields Item :=
  let '(items, g') := _getClipItems g in
  (negb (length items =? 0)%nat, g').

(** [Group.isEmpty]. *)
Definition isEmpty (g : GroupFields Item) : bool :=
  (length (_children g) =? 0)%nat.

(** Modelled from the spec: [Item#getFirstChild] (Item.js is outside
    src/); the first member of the children list, if any. *)
Definition getFirstChild (g : GroupFields Item) : option Item :=
  match _children g with
  | [] => None
  | c :: _ => Some c
  end.

Section GroupClipping.

Context (ChangeFlag : ChangeFlagTable).

(** The item's own [_changed(flags)]: [Group._changed] for a group,
    [Item.prototype._changed] for any other item. *)
Definition changed_self (flags : Z) (it : Item) : Item :=
  match it with
  | Shape f => Shape (Item__changed ChangeFlag flags f)
  | Group f g => item_of (_changed ChangeFlag flags {| base := f; group := g |})
  end.

(** Modelled from the spec: [Item#setClipMask] (Item.js is outside src/).
    [setClipped] "toggles clipMask on the first child only ... and relies
    on that mutation to emit CLIPPING"; the notification is handled by the
    item itself first, then by its parent. *)
Definition setClipMask (clipMask : bool) (child : Item) : Item :=
  changed_self (CLIPPING ChangeFlag)
    (with_fields (set_clipMask_field clipMask (fields child)) child).

(** [Group.setClipped].  The first child is replaced by the child as
    [setClipMask] leaves it, and the CLIPPING notification that
    [setClipMask] emits then arrives at this group, its parent. *)
Definition setClipped (clipped : bool) (n : GroupNode) : GroupNode :=
  match getFirstChild (group n) with
  | Some child =>
      _changed ChangeFlag (CLIPPING ChangeFlag)
        {| base := base n;
           group := set_children
                      (setClipMask clipped child :: tl (_children (group n)))
                      (group n) |}
  | None => n
  end.

End GroupClipping.

(** ** Drawing *)

(** A 2d context belongs either to the view being painted or to a canvas
    that came from [CanvasProvider]. *)
Inductive Context2D :=
| Screen
| Offscreen (c : CanvasProvider.Canvas).

(** What a draw call does, in program order.  [ItemDraw i ctx body] is one
    call [Item.draw(item, ctx, param)] on the item with identity [i],
    together with everything that call did. *)
#[local] Unset Elimination Schemes.
Inductive Event : Type :=
| GetCanvas (size : Size) (c : CanvasProvider.Canvas)
| ReturnCanvas (c : CanvasProvider.Canvas)
| Save (ctx : Context2D)
| Restore (ctx : Context2D)
| Translate (ctx : Context2D) (dx dy : Q)
| ApplyToContext (m : Matrix) (ctx : Context2D)
| GlobalCompositeOperation (ctx : Context2D) (op : string)
| DrawImage (dst : Context2D) (src : CanvasProvider.Canvas) (dx dy : Q)
| ClearRect (ctx : Context2D) (rx ry rw rh : Q)
| Paint (item : nat) (ctx : Context2D)
| ItemDraw (item : nat) (ctx : Context2D) (body : list Event).
#[local] Set Elimination Schemes.

(** The state a draw call threads: the canvas provider, [param.offset]
    and the global [prevOffset] that the pooled [Group.draw] assigns
    without declaring. *)
Record DrawState := {
  provider : CanvasProvider.t;
  param_offset : option Point;
  prevOffset : option Point
}.

Definition set_provider (p : CanvasProvider.t) (st : DrawState) : DrawState :=
  {| provider := p; param_offset := param_offset st; prevOffset := prevOffset st |}.

(** A draw call that returns: what it did, and the state it leaves.  Draw
    calls that are left by an exception are the subject of
    [ThrowingDrawer] further down. *)
Definition Drawer := Item -> Context2D -> DrawState -> list Event * DrawState.

(** [for (...) { item = l[i]; if (keep(item)) Item.draw(item, ctx, param); }]

    Modelled from the spec: the static [Item.draw] (Item.js is outside
    src/) hands over to "each child's own draw contract". *)
Definition draw_each (draw : Drawer) (keep : Item -> bool) :
    list Item -> Context2D -> DrawState -> list Event * DrawState :=
  fix each (l : list Item) (ctx : Context2D) (st : DrawState) {struct l} :=
    match l with
    | [] => ([], st)
    | item :: rest =>
        if keep item then
          let '(body, st1) := draw item ctx st in
          let '(more, st2) := each rest ctx st1 in
          (ItemDraw (_id (fields item)) ctx body :: more, st2)
        else each rest ctx st
    end.

(** [x] is falsy: [undefined] or [false]. *)
Definition falsy (x : option bool) : bool :=
  match x with Some true => false | _ => true end.

Definition always (_ : Item) : bool := true.

(** [for (...) Item.draw(clipItems[_i], ctx, param)], where [clipItems]
    is what [this._getClipItems()] returned.  On a cache miss that list is
    the children list filtered by [_clipMask], and the loop is written
    here as a walk over the children that draws those with [_clipMask]
    set ([draw_clipItems_eq] below shows it is the loop over
    [fst (_getClipItems g)]). *)
Definition draw_clipItems (draw : Drawer) (g : GroupFields Item) :
    Context2D -> DrawState -> list Event * DrawState :=
  match _clipItems g with
  | Some cached => draw_each draw always cached
  | None => draw_each draw child_clipMask (_children g)
  end.

(** The revision with a closure-level [var context = null]. *)
Module SingleContext.

(** [Group.draw].  The function's own [var] list names [context] again,
    so inside [draw] that name is a fresh local, [undefined] on entry of
    every call; the closure's [context] is neither read nor written. *)
Definition Group_draw (draw : Drawer) (f : ItemFields) (g : GroupFields Item)
    (ctx : Context2D) (st : DrawState) : list Event * DrawState :=
  let context : option CanvasProvider.Canvas := None in
  let clipItems := fst (_getClipItems g) in
  (* Draw the regular items *)
  let draw_regular :=
    draw_each draw (fun item => falsy (_clipMark (fields item))) (_children g) in
  if negb (length clipItems =? 0)%nat then
    let originalCtx := ctx in
    let bounds := getBounds g in
    let '(got, canvas, p1) :=
      match context with
      | None =>
          let '(c, p) :=
            CanvasProvider.getCanvas (getSize bounds) (provider st) in
          ([GetCanvas (getSize bounds) c], c, p)
      | Some c => ([], c, provider st)
      end in
    let ctx' := Offscreen canvas in
    (* Draw the items which form the mask *)
    let '(mask, st1) := draw_clipItems draw g ctx' (set_provider p1 st) in
    let '(regular, st2) := draw_regular ctx' st1 in
    (got ++ [Save ctx'; Translate ctx' (- x bounds) (- y bounds)]
       ++ mask
       ++ [GlobalCompositeOperation ctx' (_clippingCompositionOperation g)]
       ++ regular
       ++ [DrawImage originalCtx canvas (x bounds) (y bounds);
           Restore ctx';
           ClearRect ctx' 0 0 (CanvasProvider.cwidth canvas + 1)
             (CanvasProvider.cheight canvas + 1)],
     st2)
  else draw_regular ctx st.

(** An item's own [draw]: a group's is [Group.draw], any other item
    paints itself. *)
Fixpoint draw (it : Item) (ctx : Context2D) (st : DrawState) {struct it}
    : list Event * DrawState :=
  match it with
  | Shape f => ([Paint (_id f) ctx], st)
  | Group f g => Group_draw draw f g ctx st
  end.

End SingleContext.

(** The revision that borrows a canvas and returns it. *)
Module Pooled.

(** [Group.draw]. *)
Definition Group_draw (draw : Drawer) (f : ItemFields) (g : GroupFields Item)
    (ctx : Context2D) (st : DrawState) : list Event * DrawState :=
  let clipItems := fst (_getClipItems g) in
  (* Draw the regular items *)
  let draw_regular :=
    draw_each draw (fun item => negb (_clipMask (fields item))) (_children g) in
  if negb (length clipItems =? 0)%nat then
    let bounds := getStrokeBounds g in
    if is_zero (width bounds) || is_zero (height bounds) then ([], st)
    else
      let prev := param_offset st in
      let parentCtx := ctx in
      let itemOffset := floor (getTopLeft bounds) in
      let size := add (ceil (getSize bounds)) (Size_create 1 1) in
      let '(tempCanvas, p1) := CanvasProvider.getCanvas size (provider st) in
      let ctx' := Offscreen tempCanvas in
      let st0 := {| provider := p1;
                    param_offset := Some itemOffset;
                    prevOffset := prev |} in
      let '(mask, st1) := draw_clipItems draw g ctx' st0 in
      let '(regular, st2) := draw_regular ctx' st1 in
      ([GetCanvas size tempCanvas; Save ctx';
        Translate ctx' (- px itemOffset) (- py itemOffset);
        ApplyToContext (_matrix f) ctx']
         ++ mask
         ++ [GlobalCompositeOperation ctx' (compositing g)]
         ++ regular
         ++ [DrawImage parentCtx tempCanvas (px itemOffset) (py itemOffset);
             Restore ctx';
             ReturnCanvas tempCanvas],
       set_provider (CanvasProvider.returnCanvas tempCanvas (provider st2)) st2)
  else draw_regular ctx st.

(** An item's own [draw]: a group's is [Group.draw], any other item
    paints itself. *)
Fixpoint draw (it : Item) (ctx : Context2D) (st : DrawState) {struct it}
    : list Event * DrawState :=
  match it with
  | Shape f => ([Paint (_id f) ctx], st)
  | Group f g => Group_draw draw f g ctx st
  end.

End Pooled.

(** ** Drawing when a draw call throws

    [Drawer] above describes draw calls that return.  [Group.draw] has no
    [try]/[finally]: an exception thrown by the draw of a child leaves
    the loop it is thrown in and [Group.draw] itself, and so on up the
    item tree, and the statements after the loop are not executed.  The
    exceptions considered are those thrown by the own draw of an item
    that is not a group. *)

(** How a call ends: it returns, or an exception leaves it. *)
Inductive Completion := Returned | Thrown.

Definition ThrowingDrawer :=
  Item -> Context2D -> DrawState -> list Event * DrawState * Completion.

(** The loop of [draw_each] when a call may throw: the exception leaves
    the loop, and what the remaining items would have drawn is not
    drawn.

    Modelled from the spec: the static [Item.draw] (Item.js is outside
    src/) does not catch what the child's draw throws; errors "surface to
    the caller of the top-level draw". *)
Definition draw_each_throwing (draw : ThrowingDrawer) (keep : Item -> bool) :
    list Item -> Context2D -> DrawState -> list Event * DrawState * Completion :=
  fix each (l : list Item) (ctx : Context2D) (st : DrawState) {struct l} :=
    match l with
    | [] => ([], st, Returned)
    | item :: rest =>
        if keep item then
          match draw item ctx st with
          | (body, st1, Thrown) =>
              ([ItemDraw (_id (fields item)) ctx body], st1, Thrown)
          | (body, st1, Returned) =>
              let '(more, st2, c) := each rest ctx st1 in
              (ItemDraw (_id (fields item)) ctx body :: more, st2, c)
          end
        else each rest ctx st
    end.

Definition draw_clipItems_throwing (draw : ThrowingDrawer) (g : GroupFields Item) :
    Context2D -> DrawState -> list Event * DrawState * Completion :=
  match _clipItems g with
  | Some cached => draw_each_throwing draw always cached
  | None => draw_each_throwing draw child_clipMask (_children g)
  end.

(** The pooled [Group.draw] once more, with the exception paths. *)
Module PooledThrowing.

Section Throwing.

(** The items whose own [draw] throws. *)
Variable throws : ItemFields -> bool.

(** [Group.draw].  The trace of a call that is left by an exception ends
    where the exception was thrown. *)
Definition Group_draw (draw : ThrowingDrawer) (f : ItemFields)
    (g : GroupFields Item) (ctx : Context2D) (st : DrawState)
    : list Event * DrawState * Completion :=
  let clipItems := fst (_getClipItems g) in
  let draw_regular :=
    draw_each_throwing draw (fun item => negb (_clipMask (fields item)))
      (_children g) in
  if negb (length clipItems =? 0)%nat then
    let bounds := getStrokeBounds g in
    if is_zero (width bounds) || is_zero (height bounds) then ([], st, Returned)
    else
      let prev := param_offset st in
      let parentCtx := ctx in
      let itemOffset := floor (getTopLeft bounds) in
      let size := add (ceil (getSize bounds)) (Size_create 1 1) in
      let '(tempCanvas, p1) := CanvasProvider.getCanvas size (provider st) in
      let ctx' := Offscreen tempCanvas in
      let st0 := {| provider := p1;
                    param_offset := Some itemOffset;
                    prevOffset := prev |} in
      let setup := [GetCanvas size tempCanvas; Save ctx';
                    Translate ctx' (- px itemOffset) (- py itemOffset);
                    ApplyToContext (_matrix f) ctx'] in
      match draw_clipItems_throwing draw g ctx' st0 with
      | (mask, st1, Thrown) => (setup ++ mask, st1, Thrown)
      | (mask, st1, Returned) =>
          match draw_regular ctx' st1 with
          | (regular, st2, Thrown) =>
              (setup ++ mask
                 ++ [GlobalCompositeOperation ctx' (compositing g)]
                 ++ regular,
               st2, Thrown)
          | (regular, st2, Returned) =>
              (setup ++ mask
                 ++ [GlobalCompositeOperation ctx' (compositing g)]
                 ++ regular
                 ++ [DrawImage parentCtx tempCanvas (px itemOffset) (py itemOffset);
                     Restore ctx';
                     ReturnCanvas tempCanvas],
               set_provider
                 (CanvasProvider.returnCanvas tempCanvas (provider st2)) st2,
               Returned)
          end
      end
  else draw_regular ctx st.

(** An item's own [draw]. *)
Fixpoint draw (it : Item) (ctx : Context2D) (st : DrawState) {struct it}
    : list Event * DrawState * Completion :=
  match it with
  | Shape f =>
      if throws f then ([], st, Thrown) else ([Paint (_id f) ctx], st, Returned)
  | Group f g => Group_draw draw f g ctx st
  end.

End Throwing.

End PooledThrowing.

(** ** Base.js *)

Module Base.

(** *** Base.equals *)

(** JavaScript values as far as [Base.equals] looks at them.  Arrays and
    objects carry the identity [==] compares; [equals] is the object's
    [equals] member when it has one (a handle interpreted by
    [call_equals] below); [props] are its own enumerable properties.
    Members inherited from [Object.prototype] and [Array.prototype] are
    left out. *)
#[local] Unset Elimination Schemes.
Inductive Value : Type :=
| Undefined
| Null
| Boolean (b : bool)
| Number (n : Z)
| Str (s : string)
| Array (ref : nat) (elems : list Value)
| Object (ref : nat) (equals : option nat) (props : list (string * Value)).
#[local] Set Elimination Schemes.

Inductive Key := Idx (i : nat) | Name (s : string).

(** How a call ends: with a value, with an exception, or not within the
    number of nested calls allowed. *)
Inductive Outcome :=
| Returns (v : Value)
| Throws
| OutOfFuel.

Definition truthy (v : Value) : bool :=
  match v with
  | Undefined | Null => false
  | Boolean b => b
  | Number n => negb (n =? 0)%Z
  | Str s => negb (String.eqb s EmptyString)
  | Array _ _ | Object _ _ _ => true
  end.

Definition is_nullish (v : Value) : bool :=
  match v with Undefined | Null => true | _ => false end.

(** [typeof v === 'object'] *)
Definition typeof_object (v : Value) : bool :=
  match v with Null | Array _ _ | Object _ _ _ => true | _ => false end.

(** [v.equals], for [v] other than [null] and [undefined]. *)
Definition equals_member (v : Value) : option nat :=
  match v with Object _ m _ => m | _ => None end.

(** The own enumerable keys that [for (var i in o)] visits and
    [o.hasOwnProperty(i)] lets through. *)
Definition own_keys (o : Value) : list Key :=
  match o with
  | Array _ elems => map Idx (seq 0 (length elems))
  | Object _ _ props => map (fun kv => Name (fst kv)) props
  | _ => []
  end.

Fixpoint lookup (s : string) (props : list (string * Value)) : Value :=
  match props with
  | [] => Undefined
  | (k, v) :: rest => if String.eqb k s then v else lookup s rest
  end.

(** [o[k]] for the keys [Base.equals] reads: an index of an array, a
    name of an object; [None] is the TypeError of reading a property of
    [null] or [undefined].  Only own properties are looked at: names that
    an object answers to through its prototype chain are left out (see
    [own_names_only] below), and so are index keys of objects and named
    keys of arrays other than [length]. *)
Definition get (o : Value) (k : Key) : option Value :=
  match o, k with
  | Undefined, _ | Null, _ => None
  | Array _ elems, Idx i => Some (nth i elems Undefined)
  | Array _ elems, Name s =>
      Some (if String.eqb s "length" then Number (Z.of_nat (length elems))
            else Undefined)
  | Object _ _ props, Name s => Some (lookup s props)
  | _, _ => Some Undefined
  end.

(** The nested [checkKeys(o1, o2)]; [None] is a TypeError. *)
Definition checkKeys (o1 o2 : Value) : option bool :=
  (fix loop (keys : list Key) : option bool :=
     match keys with
     | [] => Some true
     | i :: rest =>
         match get o2 i with
         | None => None
         | Some Undefined => Some false
         | Some _ => loop rest
         end
     end) (own_keys o1).

(** [for (i in todo) if (!call(i)) return false; return true;] *)
Definition every_truthy {K : Type} (call : K -> Outcome) : list K -> Outcome :=
  fix loop (todo : list K) : Outcome :=
    match todo with
    | [] => Returns (Boolean true)
    | i :: rest =>
        match call i with
        | Returns r => if truthy r then loop rest else Returns (Boolean false)
        | other => other
        end
    end.

Section Equals.

(** [==] on operands of different types, where the language converts
    one of them first. *)
Variable coerced_eq : Value -> Value -> bool.

(** What the [equals] member with the given handle does when called on
    [this] with one argument. *)
Variable call_equals : nat -> Value -> Value -> Outcome.

(** [obj1 == obj2] *)
Definition loose_eq (obj1 obj2 : Value) : bool :=
  match obj1, obj2 with
  | (Undefined | Null), (Undefined | Null) => true
  | (Undefined | Null), _ | _, (Undefined | Null) => false
  | Boolean a, Boolean b => Bool.eqb a b
  | Number a, Number b => (a =? b)%Z
  | Str a, Str b => String.eqb a b
  | (Array r1 _ | Object r1 _ _), (Array r2 _ | Object r2 _ _) => (r1 =? r2)%nat
  | _, _ => coerced_eq obj1 obj2
  end.

(** [Base.equals(obj1, obj2)], with a bound on the depth of nested
    calls. *)
Fixpoint equals (fuel : nat) (obj1 obj2 : Value) {struct fuel} : Outcome :=
  match fuel with
  | O => OutOfFuel
  | S fuel' =>
      if loose_eq obj1 obj2 then Returns (Boolean true)
      else
      (* Call #equals() on both obj1 and obj2 *)
      match (if is_nullish obj1 then None else equals_member obj1) with
      | Some m => call_equals m obj1 obj2
      | None =>
      match (if is_nullish obj2 then None else equals_member obj2) with
      | Some m => call_equals m obj2 obj1
      | None =>
          match obj1, obj2 with
          | Array _ elems1, Array _ elems2 =>
            (* Compare arrays *)
            if negb (length elems1 =? length elems2)%nat
            then Returns (Boolean false)
            else
              (* for (i = 0; i < l; i++)
                   if (!Base.equals(obj1, obj2)) return false; *)
              every_truthy (fun _ : nat => equals fuel' obj1 obj2)
                (seq 0 (length elems1))
          | _, _ =>
          (* Compare objects *)
          if typeof_object obj1 && typeof_object obj2 then
            match checkKeys obj1 obj2 with
            | None => Throws
            | Some false => Returns (Boolean false)
            | Some true =>
            match checkKeys obj2 obj1 with
            | None => Throws
            | Some false => Returns (Boolean false)
            | Some true =>
                (* for (var i in obj1)
                     if (obj1.hasOwnProperty(i)
                         && !Base.equals(obj1[i], obj2[i])) return false; *)
                every_truthy
                  (fun i : Key =>
                     match get obj1 i, get obj2 i with
                     | Some v1, Some v2 => equals fuel' v1 v2
                     | _, _ => Throws
                     end)
                  (own_keys obj1)
            end
            end
          else Returns (Boolean false)
          end
      end
      end
  end.

End Equals.

(** Values in which no array occurs, and how deeply objects nest. *)
Fixpoint array_free (v : Value) : bool :=
  match v with
  | Array _ _ => false
  | Object _ _ props =>
      (fix all (l : list (string * Value)) : bool :=
         match l with
         | [] => true
         | (_, v') :: r => array_free v' && all r
         end) props
  | _ => true
  end.

Fixpoint depth (v : Value) : nat :=
  match v with
  | Object _ _ props =>
      S ((fix deepest (l : list (string * Value)) : nat :=
            match l with
            | [] => O
            | (_, v') :: r => Nat.max (depth v') (deepest r)
            end) props)
  | _ => O
  end.

(** *** Base.splice *)

(** The entries of a list handled by [Base.splice]: objects with a
    private [_index] property that can be assigned and deleted. *)
Class Indexed (A : Type) := {
  index_of : A -> option Z;
  with_index : option Z -> A -> A;
  index_of_with_index : forall v a, index_of (with_index v a) = v
}.

(** The [items] argument: left out, [null], or an array. *)
Inductive ItemsArg (A : Type) :=
| ItemsUndefined
| ItemsNull
| ItemsArray (l : list A).
Arguments ItemsUndefined {A}.
Arguments ItemsNull {A}.

Section Splice.

Context {A : Type} `{Indexed A}.

(** [items[i]._index = index + i] for [i = 0, 1, ...].  The entries are
    values here, each with an [_index] of its own: this is [Base.splice]
    on lists of objects that are pairwise different.  [Shared] further
    down has the entries as references into a heap, where the same
    object can occur more than once. *)
Fixpoint number_from (index : Z) (l : list A) : list A :=
  match l with
  | [] => []
  | a :: rest => with_index (Some index) a :: number_from (index + 1) rest
  end.

(** [Array.prototype.splice(start, deleteCount, ...ins)]: the array
    afterwards and the array of deleted elements. *)
Definition Array_splice (l : list A) (start deleteCount : Z) (ins : list A)
    : list A * list A :=
  let len := Z.of_nat (length l) in
  let actualStart :=
    if (start <? 0)%Z then Z.max (len + start) 0 else Z.min start len in
  let actualDeleteCount :=
    Z.min (Z.max deleteCount 0) (len - actualStart) in
  let s := Z.to_nat actualStart in
  let d := Z.to_nat actualDeleteCount in
  (firstn s l ++ ins ++ skipn (s + d) l, firstn d (skipn s l)).

(** [for (i = start, l = list.length; i < l; i++) list[i]._index = i]
    for an integer [start]; [None] is the TypeError of assigning to
    [list[i]._index] where [list[i]] is [undefined] (negative [i]). *)
Definition adjust_from (start : Z) (l : list A) : option (list A) :=
  if (start <? Z.of_nat (length l))%Z then
    if (start <? 0)%Z then None
    else Some (firstn (Z.to_nat start) l
                 ++ number_from start (skipn (Z.to_nat start) l))
  else Some l.

(** [Base.splice(list, items, index, remove)]: the list afterwards and
    the array returned; [None] is a TypeError.  [index = None] is an
    [index] left [undefined]. *)
Definition splice (lst : list A) (items : ItemsArg A) (index : option Z)
    (remove : Z) : option (list A * list A) :=
  let append := match index with None => true | Some _ => false end in
  let index :=
    match index with None => Z.of_nat (length lst) | Some i => i end in
  (* Update _index on the items to be added first. *)
  let items' :=
    match items with
    | ItemsArray l => number_from index l
    | _ => []
    end in
  if append then Some (lst ++ items', [])
  else
    let '(list1, removed) := Array_splice lst index remove items' in
    (* Delete the indices of the removed items *)
    let removed' := map (with_index None) removed in
    (* Adjust the indices of the items above: the loop starts at
       [index + amount], where [amount = items && items.length]. *)
    match items with
    | ItemsUndefined =>
        (* index + undefined is NaN, and NaN < l is false *)
        Some (list1, removed')
    | ItemsNull =>
        (* index + null is index *)
        option_map (fun l' => (l', removed')) (adjust_from index list1)
    | ItemsArray l =>
        option_map (fun l' => (l', removed'))
          (adjust_from (index + Z.of_nat (length l)) list1)
    end.

(** Every entry of the list knows its position. *)
Definition indexed_from (start : Z) (l : list A) : Prop :=
  forall i a, nth_error l i = Some a ->
              index_of a = Some (start + Z.of_nat i)%Z.

Definition well_indexed (l : list A) : Prop := indexed_from 0 l.

End Splice.

(** Two more facts about assigning [_index] that hold of the objects kept
    in such lists: a later assignment overrides an earlier one, and
    assigning the value the property already has changes nothing. *)
Class IndexedLaws (A : Type) `{Indexed A} := {
  with_index_twice :
    forall v w a, with_index v (with_index w a) = with_index v a;
  with_index_same : forall a, with_index (index_of a) a = a
}.

(** *** Base.peekValue, Base.readValue *)

(** An argument list: the elements, and the [_index] and [_read]
    properties the readers keep on it. *)
Record ArgList (A : Type) := {
  elems : list A;
  _index : option Z;
  _read : option Z
}.

(** [a || b] for a number or [undefined] on the left: [undefined] and [0]
    are falsy. *)
Definition or_number (a : option Z) (b : Z) : Z :=
  match a with
  | Some n => if (n =? 0)%Z then b else n
  | None => b
  end.

(** [list[i]] for an integer [i]; [None] is [undefined]. *)
Definition at_index {A : Type} (l : list A) (i : Z) : option A :=
  if (i <? 0)%Z then None else nth_error l (Z.to_nat i).

(** [Base.peekValue(list, start)]: the value returned and the list
    afterwards. *)
Definition peekValue {A : Type} (args : ArgList A) (start : option Z)
    : option A * ArgList A :=
  let i := or_number start (or_number (_index args) 0) in
  (at_index (elems args) i,
   {| elems := elems args; _index := Some i; _read := _read args |}).

(** [Base.readValue(list, start)]. *)
Definition readValue {A : Type} (args : ArgList A) (start : option Z)
    : option A * ArgList A :=
  let '(value, args1) := peekValue args start in
  (value,
   {| elems := elems args1;
      _index := match _index args1 with
                | Some i => Some (i + 1)%Z
                | None => None
                end;
      _read := Some 1%Z |}).

(** [n] successive calls [Base.readValue(list)]: the values read, in
    order, and the list afterwards. *)
Fixpoint readValues {A : Type} (n : nat) (args : ArgList A)
    : list (option A) * ArgList A :=
  match n with
  | O => ([], args)
  | S n' =>
      let '(value, args1) := readValue args None in
      let '(values, args2) := readValues n' args1 in
      (value :: values, args2)
  end.

(** *** Base.capitalize, Base.camelize, Base.hyphenate

    A string is the list of its characters.  The three functions look at
    ASCII classes only: [\w] is [[A-Za-z0-9_]], and the case conversions
    are applied to ASCII characters. *)

Definition code (c : ascii) : nat := nat_of_ascii c.
Definition is_lower (c : ascii) : bool := (97 <=? code c)%nat && (code c <=? 122)%nat.
Definition is_upper (c : ascii) : bool := (65 <=? code c)%nat && (code c <=? 90)%nat.
Definition is_digit (c : ascii) : bool := (48 <=? code c)%nat && (code c <=? 57)%nat.
Definition is_hyphen (c : ascii) : bool := (code c =? 45)%nat.
(** [\w] *)
Definition is_word (c : ascii) : bool :=
  is_lower c || is_upper c || is_digit c || (code c =? 95)%nat.

Definition toUpperCase (c : ascii) : ascii :=
  if is_lower c then ascii_of_nat (code c - 32) else c.
Definition toLowerCase (c : ascii) : ascii :=
  if is_upper c then ascii_of_nat (code c + 32) else c.

(** [str.replace(/\b[a-z]/g, toUpperCase)], reading on from a position
    whose previous character is a word character or not: a lower-case
    letter is at a word boundary exactly when it is not preceded by a word
    character. *)
Fixpoint capitalize_from (after_word : bool) (str : list ascii) : list ascii :=
  match str with
  | [] => []
  | c :: rest =>
      (if negb after_word && is_lower c then toUpperCase c else c)
        :: capitalize_from (is_word c) rest
  end.

(** [Base.capitalize]. *)
Definition capitalize (str : list ascii) : list ascii :=
  capitalize_from false str.

(** [Base.camelize]: [str.replace(/-(\w)/g, (all, chr) => chr.toUpperCase())]. *)
Fixpoint camelize (str : list ascii) : list ascii :=
  match str with
  | [] => []
  | c :: rest =>
      match rest with
      | chr :: rest' =>
          if is_hyphen c && is_word chr
          then toUpperCase chr :: camelize rest'
          else c :: camelize rest
      | [] => [c]
      end
  end.

(** The [replace] of [Base.hyphenate]: at each position the alternatives
    [[a-z][A-Z0-9]], [[0-9][a-zA-Z]], [[A-Z]{2}[a-z]] are tried in this
    order; a match is replaced by its first character, a hyphen and the
    rest of the match, and the scan goes on after the match. *)
Fixpoint hyphenate_matches (str : list ascii) : list ascii :=
  match str with
  | [] => []
  | a :: t =>
      match t with
      | [] => [a]
      | b :: t' =>
          if (is_lower a && (is_upper b || is_digit b))
             || (is_digit a && (is_lower b || is_upper b))
          then a :: "-"%char :: b :: hyphenate_matches t'
          else
            match t' with
            | c :: t'' =>
                if is_upper a && is_upper b && is_lower c
                then a :: "-"%char :: b :: c :: hyphenate_matches t''
                else a :: hyphenate_matches t
            | [] => a :: hyphenate_matches t
            end
      end
  end.

(** [Base.hyphenate]. *)
Definition hyphenate (str : list ascii) : list ascii :=
  map toLowerCase (hyphenate_matches str).

(** Names such as [stroke-width]: a first word of lower-case letters and
    further words, each of two or more lower-case letters, joined by
    single hyphens. *)
Definition lower_word (w : list ascii) : Prop := Forall (fun c => is_lower c = true) w.

Definition hyphenated (first : list ascii) (others : list (list ascii)) : list ascii :=
  first ++ concat (map (fun w => "-"%char :: w) others).

(** The same words camel-cased, as in [strokeWidth]. *)
Definition capitalized (w : list ascii) : list ascii :=
  match w with
  | [] => []
  | h :: t => toUpperCase h :: t
  end.

Definition camel_cased (first : list ascii) (others : list (list ascii)) : list ascii :=
  first ++ concat (map capitalized others).

End Base.

(** The names an object created by an object literal answers to through
    [Object.prototype]: the members ECMAScript 5 gives it, and those that
    browsers have added to it. *)
Definition Object_prototype_names : list string :=
  ["constructor"%string; "toString"%string; "toLocaleString"%string;
   "valueOf"%string; "hasOwnProperty"%string; "isPrototypeOf"%string;
   "propertyIsEnumerable"%string; "__proto__"%string;
   "__defineGetter__"%string; "__defineSetter__"%string;
   "__lookupGetter__"%string; "__lookupSetter__"%string;
   "toSource"%string; "watch"%string; "unwatch"%string;
   "__noSuchMethod__"%string; "__count__"%string; "__parent__"%string].

Definition inherited (name : string) : bool :=
  existsb (String.eqb name) Object_prototype_names.

(** The own properties of an object none of which hides or meets a member
    that objects have through their prototype chain: no property is named
    like an inherited member, and none is named [equals].  On such
    objects [o.hasOwnProperty] is the inherited function and [o.equals]
    is [undefined], and for such names [o[k]] is the own property [k] or
    [undefined], as [Base.get] and [Base.equals_member] have it. *)
Definition own_names_only (props : list (string * Base.Value)) : Prop :=
  Forall (fun kv => inherited (fst kv) = false /\ fst kv <> "equals"%string)
    props.

(** The entries [Base.splice] is given to insert: those of an array, none
    for [null] or a left-out [items]. *)
Definition inserted {A : Type} (items : Base.ItemsArg A) : list A :=
  match items with
  | Base.ItemsArray l => l
  | _ => []
  end.

(** ** Base.splice on shared objects

    The entries of a list are objects, and the same object can be given
    twice, or be given while it is in the list already.  Here an entry is
    a reference, and the heap holds the [_index] property of every object
    ([None] when the object has none), so that assigning through one
    reference is seen through every other. *)

Module Shared.

Definition Ref := nat.

Definition Heap := Ref -> option Z.

(** [r._index = v], or [delete r._index] for [v = None]. *)
Definition assign (r : Ref) (v : option Z) (h : Heap) : Heap :=
  fun r' => if Nat.eqb r' r then v else h r'.

(** [l[j]._index = index + j] for [j = 0, 1, ...], one after the other. *)
Fixpoint number_from (index : Z) (l : list Ref) (h : Heap) : Heap :=
  match l with
  | [] => h
  | r :: rest => number_from (index + 1) rest (assign r (Some index) h)
  end.

(** [delete l[j]._index] for [j = 0, 1, ...]. *)
Fixpoint delete_all (l : list Ref) (h : Heap) : Heap :=
  match l with
  | [] => h
  | r :: rest => delete_all rest (assign r None h)
  end.

(** [for (i = start, l = list.length; i < l; i++) list[i]._index = i];
    [None] is the TypeError of a negative [start]. *)
Definition adjust_from (start : Z) (l : list Ref) (h : Heap) : option Heap :=
  if (start <? Z.of_nat (length l))%Z then
    if (start <? 0)%Z then None
    else Some (number_from start (skipn (Z.to_nat start) l) h)
  else Some h.

(** [Base.splice(list, items, index, remove)]: the heap and the list
    afterwards, and the array returned; [None] is a TypeError. *)
Definition splice (h : Heap) (lst : list Ref) (items : Base.ItemsArg Ref)
    (index : option Z) (remove : Z) : option (Heap * list Ref * list Ref) :=
  let append := match index with None => true | Some _ => false end in
  let index :=
    match index with None => Z.of_nat (length lst) | Some i => i end in
  let ins := match items with Base.ItemsArray l => l | _ => [] end in
  (* Update _index on the items to be added first. *)
  let h1 := number_from index ins h in
  if append then Some (h1, lst ++ ins, [])
  else
    let '(list1, removed) := Base.Array_splice lst index remove ins in
    (* Delete the indices of the removed items *)
    let h2 := delete_all removed h1 in
    (* Adjust the indices of the items above. *)
    match items with
    | Base.ItemsUndefined => Some (h2, list1, removed)
    | Base.ItemsNull =>
        option_map (fun h3 => (h3, list1, removed)) (adjust_from index list1 h2)
    | Base.ItemsArray l =>
        option_map (fun h3 => (h3, list1, removed))
          (adjust_from (index + Z.of_nat (length l)) list1 h2)
    end.

(** Every entry of the list knows its position. *)
Definition well_indexed (h : Heap) (l : list Ref) : Prop :=
  forall i r, nth_error l i = Some r -> h r = Some (Z.of_nat i).

End Shared.

(** The words of a name: a non-empty first word and further words of two
    or more letters, all in lower case. *)
Definition named_words (first : list ascii) (others : list (list ascii)) : Prop :=
  first <> [] /\ Base.lower_word first
  /\ Forall (fun w => Base.lower_word w /\ (2 <= length w)%nat) others.

(** ** Children lists are lists handled by [Base.splice] *)

#[export] Instance Item_Indexed : Base.Indexed Item := {|
  Base.index_of := fun it => _index (fields it);
  Base.with_index := fun v it => with_fields (set_index_field v (fields it)) it;
  Base.index_of_with_index := fun v it =>
    match it with Shape _ => eq_refl | Group _ _ => eq_refl end
|}.

Section GroupHierarchy.

Context (ChangeFlag : ChangeFlagTable).

(** Modelled from the spec: [Item#addChild] (Item.js is outside src/).
    Nodes are "attached via an addChildren-style operation (which sets
    parent and emits HIERARCHY)"; the child goes to the end of the
    children list through [Base.splice], as its doc comment announces
    ("Used for ... Item#children"). *)
Definition addChild (item : Item) (n : GroupNode) : GroupNode :=
  match Base.splice (_children (group n)) (Base.ItemsArray [item]) None 0 with
  | Some (children', _) =>
      _changed ChangeFlag (HIERARCHY ChangeFlag)
        {| base := base n; group := set_children children' (group n) |}
  | None => n
  end.

End GroupHierarchy.

#[export] Instance Item_IndexedLaws : @Base.IndexedLaws Item Item_Indexed := {|
  Base.with_index_twice := fun v w it =>
    match it with Shape _ => eq_refl | Group _ _ => eq_refl end;
  Base.with_index_same := fun it =>
    match it with
    | Shape f => match f with Build_ItemFields _ _ _ _ _ _ => eq_refl end
    | Group f _ => match f with Build_ItemFields _ _ _ _ _ _ => eq_refl end
    end
|}.

(** ** Sequences of reads and notifications on a group *)

Inductive GroupOp :=
| ReadClipItems
| ReadIsClipped
| Notify (flags : Z).

Definition apply_op (ChangeFlag : ChangeFlagTable) (op : GroupOp) (n : GroupNode)
    : GroupNode :=
  match op with
  | ReadClipItems => {| base := base n; group := snd (_getClipItems (group n)) |}
  | ReadIsClipped => {| base := base n; group := snd (isClipped (group n)) |}
  | Notify flags => _changed ChangeFlag flags n
  end.

Definition run_ops (ChangeFlag : ChangeFlagTable) (ops : list GroupOp)
    (n : GroupNode) : GroupNode :=
  fold_left (fun n' op => apply_op ChangeFlag op n') ops n.

(** ** Reading a draw trace *)

(** The [Item.draw] calls made directly by the draw call whose trace this
    is: which item, onto which context. *)
Fixpoint item_draws (t : list Event) : list (nat * Context2D) :=
  match t with
  | [] => []
  | ItemDraw i ctx _ :: r => (i, ctx) :: item_draws r
  | _ :: r => item_draws r
  end.

(** What a trace, nested calls included, asks of the canvas provider. *)
Inductive PoolOp :=
| HandOut (c : nat)
| TakeBack (c : nat).

Fixpoint pool_ops_of (e : Event) : list PoolOp :=
  match e with
  | GetCanvas _ c => [HandOut (CanvasProvider.cid c)]
  | ReturnCanvas c => [TakeBack (CanvasProvider.cid c)]
  | ItemDraw _ _ body =>
      (fix go (l : list Event) : list PoolOp :=
         match l with
         | [] => []
         | e' :: r => pool_ops_of e' ++ go r
         end) body
  | _ => []
  end.

Definition pool_ops (t : list Event) : list PoolOp := flat_map pool_ops_of t.

(** The canvases out of the provider after [ops], given those [held]
    before. *)
Fixpoint live_after (ops : list PoolOp) (held : list nat) : list nat :=
  match ops with
  | [] => held
  | HandOut c :: r => live_after r (c :: held)
  | TakeBack c :: r => live_after r (remove Nat.eq_dec c held)
  end.

(** Stepping through [ops]: every hand-out is of a canvas that is not
    out at that moment. *)
Fixpoint handouts_fresh (held : list nat) (ops : list PoolOp) : Prop :=
  match ops with
  | [] => True
  | HandOut c :: r => ~ In c held /\ handouts_fresh (c :: held) r
  | TakeBack c :: r => handouts_fresh (remove Nat.eq_dec c held) r
  end.

(** No canvas is handed out while it is still out. *)
Definition never_handed_out_while_live (held : list nat) (ops : list PoolOp) : Prop :=
  forall before c after,
    ops = before ++ HandOut c :: after -> ~ In c (live_after before held).

(** At every moment the canvases that are out are pairwise distinct. *)
Definition live_always_distinct (held : list nat) (ops : list PoolOp) : Prop :=
  forall before after, ops = before ++ after -> NoDup (live_after before held).

(** The provider's book-keeping agrees with the canvases currently out:
    idle canvases are pairwise distinct, none of them is out, and every
    canvas, idle or out, was made by the provider. *)
Definition provider_consistent (held : list nat) (p : CanvasProvider.t) : Prop :=
  NoDup held
  /\ NoDup (map CanvasProvider.cid (CanvasProvider.canvases p))
  /\ (forall c, In c held ->
        ~ In c (map CanvasProvider.cid (CanvasProvider.canvases p)))
  /\ (forall c, In c held \/ In c (map CanvasProvider.cid (CanvasProvider.canvases p)) ->
        (c < CanvasProvider.created p)%nat).

(** What is shown of every draw routine [run], by induction on the item
    drawn: started with a provider whose book-keeping is right, it never
    takes a canvas that is out, it leaves the book-keeping right, and (when
    [balanced]) it has returned, by the time it ends, every canvas it
    took. *)
Definition pool_discipline (balanced : bool)
    (run : Context2D -> DrawState -> list Event * DrawState) : Prop :=
  forall ctx st held,
    provider_consistent held (provider st) ->
    handouts_fresh held (pool_ops (fst (run ctx st)))
    /\ provider_consistent (live_after (pool_ops (fst (run ctx st))) held)
         (provider (snd (run ctx st)))
    /\ (balanced = true -> live_after (pool_ops (fst (run ctx st))) held = held).

(** The contexts painted on by a trace, nested calls included. *)
Fixpoint paint_targets_of (e : Event) : list Context2D :=
  match e with
  | Paint _ ctx => [ctx]
  | ItemDraw _ _ body =>
      (fix go (l : list Event) : list Context2D :=
         match l with
         | [] => []
         | e' :: r => paint_targets_of e' ++ go r
         end) body
  | _ => []
  end.

Definition paint_targets (t : list Event) : list Context2D :=
  flat_map paint_targets_of t.

Definition is_ItemDraw (e : Event) : Prop :=
  match e with ItemDraw _ _ _ => True | _ => False end.

Definition is_HandOut (op : PoolOp) : Prop :=
  match op with HandOut _ => True | TakeBack _ => False end.

(** Two draw routines that do the same on [item], take no canvas and
    leave the state as it was. *)
Definition draws_alike (d1 d2 : Drawer) (item : Item) : Prop :=
  forall ctx st,
    d1 item ctx st = d2 item ctx st
    /\ snd (d1 item ctx st) = st
    /\ pool_ops (fst (d1 item ctx st)) = [].

(** How many canvases a sequence of requests takes, and how many it
    returns. *)
Fixpoint taken (ops : list PoolOp) : nat :=
  match ops with
  | [] => 0
  | HandOut _ :: r => S (taken r)
  | TakeBack _ :: r => taken r
  end.

Fixpoint returned (ops : list PoolOp) : nat :=
  match ops with
  | [] => 0
  | HandOut _ :: r => returned r
  | TakeBack _ :: r => S (returned r)
  end.

(** What is shown of a draw that may throw, by induction on the item
    drawn: when it returns it has done what the draw of [Pooled] does;
    when it is left by an exception it has not returned more canvases
    than it took. *)
Definition returns_or_leaks
    (run : list Event * DrawState * Completion)
    (reference : list Event * DrawState) : Prop :=
  match run with
  | (trace, st, Returned) => (trace, st) = reference
  | (trace, _, Thrown) => (returned (pool_ops trace) <= taken (pool_ops trace))%nat
  end.

(** A context of a canvas that is not among those [held]. *)
Definition fresh_canvas (held : list nat) (t : Context2D) : Prop :=
  match t with
  | Offscreen c => ~ In (CanvasProvider.cid c) held
  | Screen => False
  end.

(** The context of the view, or of a canvas that is out of the provider. *)
Definition in_use (held : list nat) (ctx : Context2D) : Prop :=
  match ctx with
  | Screen => True
  | Offscreen c => In (CanvasProvider.cid c) held
  end.

(** Painted on the context [ctx], or on a canvas that was not out when
    the draw began. *)
Definition onto_or_fresh (held : list nat) (ctx t : Context2D) : Prop :=
  t = ctx \/ fresh_canvas held t.

(** What is shown of the paints of a pooled draw, by induction on the
    item drawn. *)
Definition paints_onto_or_fresh (item : Item) : Prop :=
  forall ctx st held,
    provider_consistent held (provider st) ->
    Forall (onto_or_fresh held ctx) (paint_targets (fst (Pooled.draw item ctx st))).

(** Requests to the provider that pair up like brackets: every canvas
    taken is given back, and a canvas taken later is given back
    earlier. *)
Inductive well_nested : list PoolOp -> Prop :=
| well_nested_nil : well_nested []
| well_nested_pair (c : nat) (inner rest : list PoolOp) :
    well_nested inner -> well_nested rest ->
    well_nested (HandOut c :: inner ++ TakeBack c :: rest).

(** An item tree in which no group is clipped and no child is marked as a
    clip mask. *)
#[local] Unset Elimination Schemes.
Inductive without_masks : Item -> Prop :=
| without_masks_shape (f : ItemFields) : without_masks (Shape f)
| without_masks_group (f : ItemFields) (g : GroupFields Item) :
    fst (isClipped g) = false ->
    Forall (fun c => child_clipMask c = false
                     /\ falsy (_clipMark (fields c)) = true) (_children g) ->
    Forall without_masks (_children g) ->
    without_masks (Group f g).
#[local] Set Elimination Schemes.

(** The clip-item cache is absent or agrees with the children list. *)
Definition cache_consistent (g : GroupFields Item) : Prop :=
  match _clipItems g with
  | None => True
  | Some items => items = filter child_clipMask (_children g)
  end.

(** Flags when they carry HIERARCHY or CLIPPING. *)
Definition carries (flags flag : Z) : Prop := Z.land flags flag <> 0%Z.

(** The frame of [setClipped] read to the letter: the first child ends up
    with [_clipMask] equal to the flag, the other children are the ones
    there were, and nothing else of the group differs; without children
    nothing changes at all. *)
Definition setClipped_touches_first_child_only
    (flag : bool) (before after : GroupNode) : Prop :=
  match _children (group before) with
  | [] => after = before
  | first :: others =>
      exists first',
        child_clipMask first' = flag
        /\ base after = base before
        /\ group after = set_children (first' :: others) (group before)
  end.

(** ** Fixtures *)

Module Fixtures.

Definition flags : ChangeFlagTable :=
  {| GEOMETRY := 4; HIERARCHY := 2; CLIPPING := 32 |}.

Definition identity : Matrix :=
  {| ma := 1; mb := 0; mc := 0; md := 1; mtx := 0; mty := 0 |}.

Definition item_fields (id : nat) (index : Z) (clipMask : bool) : ItemFields :=
  {| _id := id; _index := Some index; _clipMask := clipMask;
     _clipMark := None; _bounds := None; _matrix := identity |}.

Definition shape (id : nat) (index : Z) (clipMask : bool) : Item :=
  Shape (item_fields id index clipMask).

Definition rect (x y w h : Q) : Rectangle :=
  {| Geometry.x := x; Geometry.y := y; width := w; height := h |}.

Definition group_fields (children : list Item) (cache : option (list Item))
    (bounds : Rectangle) : GroupFields Item :=
  {| _children := children; _clipItems := cache;
     compositing := "source-in";
     _clippingCompositionOperation := "source-in";
     getBounds := bounds; getStrokeBounds := bounds |}.

Definition fresh_state : DrawState :=
  {| provider := CanvasProvider.empty; param_offset := None; prevOffset := None |}.

(** A mask and one ordinary child. *)
Definition mask : Item := shape 1 0 true.
Definition content : Item := shape 2 1 false.
Definition clipped_group : Item :=
  Group (item_fields 0 0 false)
    (group_fields [mask; content] None (rect (104 # 10) (5 # 2) (203 # 10) 8)).

(** A clipped group nested in a clipped group. *)
Definition nested_group : Item :=
  Group (item_fields 10 0 false)
    (group_fields [shape 11 0 true; with_fields (item_fields 12 1 false) clipped_group]
       None (rect 0 0 40 40)).

End Fixtures.

(* ===================================================================== *)
(** * Part II. Properties                                                 *)
(* ===================================================================== *)

Unset Implicit Arguments.

(** ** Flags *)

Lemma ToInt32_low32 (n : Z) : (ToInt32 n mod 2 ^ 32 = n mod 2 ^ 32)%Z.
Proof.
  unfold ToInt32. rewrite Zminus_mod_idemp_l. f_equal. lia.
Qed.

Lemma ToInt32_range (n : Z) : (- 2 ^ 31 <= ToInt32 n < 2 ^ 31)%Z.
Proof.
  unfold ToInt32.
  pose proof (Z.mod_pos_bound (n + 2 ^ 31) (2 ^ 32) ltac:(lia)). lia.
Qed.

Lemma ToInt32_zero (n : Z) : ToInt32 n = 0%Z <-> (n mod 2 ^ 32 = 0)%Z.
Proof.
  rewrite <- ToInt32_low32. pose proof (ToInt32_range n) as R.
  split.
  - intros ->. reflexivity.
  - intros E. apply Z.mod_divide in E; [|lia]. destruct E as [q E]. lia.
Qed.

Lemma ToInt32_int31 (n : Z) : int31 n -> ToInt32 n = n.
Proof.
  unfold int31, ToInt32. intros R. rewrite Z.mod_small by lia. lia.
Qed.

Lemma int31_low32 (n : Z) : int31 n -> (n mod 2 ^ 32 = n)%Z.
Proof. unfold int31. intros R. apply Z.mod_small. lia. Qed.

Lemma low32_land (a b : Z) :
  (Z.land a b mod 2 ^ 32 = Z.land (a mod 2 ^ 32) (b mod 2 ^ 32))%Z.
Proof.
  rewrite <- !Z.land_ones by lia.
  apply Z.bits_inj'. intros i Hi. rewrite !Z.land_spec.
  destruct (Z.testbit a i), (Z.testbit b i), (Z.testbit (Z.ones 32) i);
    reflexivity.
Qed.

Lemma low32_lor (a b : Z) :
  (Z.lor a b mod 2 ^ 32 = Z.lor (a mod 2 ^ 32) (b mod 2 ^ 32))%Z.
Proof.
  rewrite <- !Z.land_ones by lia. apply Z.land_lor_distr_l.
Qed.

Lemma bitor_low32 (a b : Z) :
  (bitor a b mod 2 ^ 32 = Z.lor (a mod 2 ^ 32) (b mod 2 ^ 32))%Z.
Proof.
  unfold bitor. rewrite ToInt32_low32, low32_lor, !ToInt32_low32. reflexivity.
Qed.

Lemma bitand_zero (a b : Z) :
  bitand a b = 0%Z <-> Z.land (a mod 2 ^ 32) (b mod 2 ^ 32) = 0%Z.
Proof.
  unfold bitand. rewrite ToInt32_zero, low32_land, !ToInt32_low32. reflexivity.
Qed.

(** On 31-bit non-negative operands [&] and [|] are [Z.land] and
    [Z.lor]. *)
Lemma bitand_int31 (a b : Z) : int31 a -> int31 b -> bitand a b = Z.land a b.
Proof.
  intros Ha Hb. unfold bitand. rewrite (ToInt32_int31 a Ha), (ToInt32_int31 b Hb).
  apply ToInt32_int31. unfold int31 in *. split.
  - apply Z.land_nonneg. left. lia.
  - assert (Hlow : Z.land a b = Z.land (Z.land a b) (Z.ones 31)).
    { rewrite <- Z.land_assoc. f_equal.
      rewrite Z.land_ones by lia. symmetry. apply Z.mod_small. lia. }
    rewrite Hlow, Z.land_ones by lia. apply Z.mod_pos_bound. lia.
Qed.

Lemma bitor_int31 (a b : Z) : int31 a -> int31 b -> bitor a b = Z.lor a b.
Proof.
  intros Ha Hb. unfold bitor. rewrite (ToInt32_int31 a Ha), (ToInt32_int31 b Hb).
  apply ToInt32_int31. unfold int31 in *. split.
  - apply Z.lor_nonneg. split; lia.
  - assert (Hlow : Z.lor a b = Z.land (Z.lor a b) (Z.ones 31)).
    { rewrite Z.land_lor_distr_l, !Z.land_ones by lia.
      rewrite !Z.mod_small by lia. reflexivity. }
    rewrite Hlow, Z.land_ones by lia. apply Z.mod_pos_bound. lia.
Qed.

(** The test [flags & (a | b)] is zero exactly when the low 32 bits of
    [flags] share no bit with those of [a] and none with those of [b]. *)
Lemma bitand_bitor_zero (flags a b : Z) :
  bitand flags (bitor a b) = 0%Z <->
  Z.land (flags mod 2 ^ 32) (a mod 2 ^ 32) = 0%Z
  /\ Z.land (flags mod 2 ^ 32) (b mod 2 ^ 32) = 0%Z.
Proof.
  rewrite bitand_zero, bitor_low32, Z.land_lor_distr_r. apply Z.lor_eq_0_iff.
Qed.

Lemma carries_either (cf : ChangeFlagTable) (flags : Z) :
  table_in_range cf -> int31 flags ->
  carries flags (HIERARCHY cf) \/ carries flags (CLIPPING cf) ->
  (bitand flags (bitor (HIERARCHY cf) (CLIPPING cf)) =? 0)%Z = false.
Proof.
  intros (_ & Hh & Hk) Hf Hc. apply Z.eqb_neq. intros H0.
  apply bitand_bitor_zero in H0.
  rewrite (int31_low32 _ Hf), (int31_low32 _ Hh), (int31_low32 _ Hk) in H0.
  destruct H0 as [H1 H2].
  destruct Hc as [Hc | Hc]; apply Hc; assumption.
Qed.

Lemma carries_self (flag : Z) : flag <> 0%Z -> carries flag flag.
Proof.
  unfold carries. intros Hnz. rewrite Z.land_diag. exact Hnz.
Qed.

(** ** The clip-item cache *)

Lemma changed_children (cf : ChangeFlagTable) (flags : Z) (n : GroupNode) :
  _children (group (_changed cf flags n)) = _children (group n).
Proof.
  unfold _changed.
  destruct (bitand flags (bitor (HIERARCHY cf) (CLIPPING cf)) =? 0)%Z; reflexivity.
Qed.

Lemma changed_clipItems (cf : ChangeFlagTable) (flags : Z) (n : GroupNode) :
  table_in_range cf -> int31 flags ->
  carries flags (HIERARCHY cf) \/ carries flags (CLIPPING cf) ->
  group (_changed cf flags n) = set_clipItems None (group n).
Proof.
  intros Hr Hf Hc. unfold _changed. rewrite (carries_either cf flags Hr Hf Hc).
  reflexivity.
Qed.

Lemma changed_not_carried (cf : ChangeFlagTable) (flags : Z) (n : GroupNode) :
  Z.land flags (HIERARCHY cf) = 0%Z -> Z.land flags (CLIPPING cf) = 0%Z ->
  group (_changed cf flags n) = group n.
Proof.
  intros Hh Hk. unfold _changed.
  assert (E : (bitand flags (bitor (HIERARCHY cf) (CLIPPING cf)) =? 0)%Z = true).
  { apply Z.eqb_eq. apply bitand_bitor_zero.
    rewrite <- !low32_land, Hh, Hk. split; reflexivity. }
  rewrite E. reflexivity.
Qed.

Lemma getClipItems_miss (g : GroupFields Item) :
  _clipItems g = None ->
  _getClipItems g =
    (filter child_clipMask (_children g),
     set_clipItems (Some (filter child_clipMask (_children g))) g).
Proof.
  intros Hnone. unfold _getClipItems. rewrite Hnone. reflexivity.
Qed.

Lemma getClipItems_consistent (g : GroupFields Item) :
  cache_consistent g ->
  fst (_getClipItems g) = filter child_clipMask (_children g).
Proof.
  unfold cache_consistent, _getClipItems.
  destruct (_clipItems g) as [items|]; simpl; intros Hc; [exact Hc | reflexivity].
Qed.

Lemma getClipItems_establishes (g : GroupFields Item) :
  cache_consistent g -> cache_consistent (snd (_getClipItems g)).
Proof.
  unfold cache_consistent, _getClipItems.
  destruct (_clipItems g) as [items|] eqn:E; simpl; intros Hc.
  - rewrite E. exact Hc.
  - reflexivity.
Qed.

Lemma filter_nonempty {A} (p : A -> bool) (l : list A) (a : A) :
  In a l -> p a = true -> (length (filter p l) =? 0)%nat = false.
Proof.
  intros Hin Hp.
  assert (Hf : In a (filter p l)) by (apply filter_In; split; assumption).
  destruct (filter p l); [contradiction | reflexivity].
Qed.

(** C7. Two consecutive [_getClipItems()] reads with nothing in between
    return the same ordered list: the first read leaves the list in the
    cache, and the second read returns that cached list and leaves the
    group as it found it. *)
Theorem getClipItems_stable (g : GroupFields Item) :
  let first := _getClipItems g in
  let second := _getClipItems (snd first) in
  fst second = fst first
  /\ snd second = snd first
  /\ _clipItems (snd first) = Some (fst first).
Proof.
  unfold _getClipItems.
  destruct (_clipItems g) as [items|] eqn:E; simpl.
  - rewrite E. simpl. auto.
  - auto.
Qed.

(** C3. With the members of the flag table and the flags of the
    notification non-negative integers of at most 31 bits (where [&] and
    [|] are the plain bit operations), a change notification that carries
    HIERARCHY or CLIPPING clears the clip-item cache of the group it
    reaches; the next [_getClipItems()] then returns exactly the direct
    children whose [_clipMask] is set, in children-list order, so every
    item it returns is one of the group's own children; and once a
    clip-mask child has been added to a group, [isClipped()] answers
    true. *)
Theorem changed_invalidates_clipItems (cf : ChangeFlagTable) (flags : Z)
    (n : GroupNode)
    (Hrange : table_in_range cf) (Hflags : int31 flags)
    (Hcarries : carries flags (HIERARCHY cf) \/ carries flags (CLIPPING cf))
    (Hflag : HIERARCHY cf <> 0%Z) :
  let n' := _changed cf flags n in
  _clipItems (group n') = None
  /\ _children (group n') = _children (group n)
  /\ fst (_getClipItems (group n')) = filter child_clipMask (_children (group n'))
  /\ (forall it, In it (fst (_getClipItems (group n'))) ->
        In it (_children (group n')) /\ child_clipMask it = true)
  /\ (forall child, child_clipMask child = true ->
        fst (isClipped (group (addChild cf child n))) = true).
Proof.
  intros n'. subst n'.
  rewrite (changed_clipItems cf flags n Hrange Hflags Hcarries).
  assert (Hread : fst (_getClipItems (set_clipItems None (group n)))
                  = filter child_clipMask (_children (group n))) by reflexivity.
  split; [reflexivity|]. split; [reflexivity|]. split; [exact Hread|].
  split.
  - intros it Hin. rewrite Hread in Hin. apply filter_In in Hin. exact Hin.
  - intros child Hmask. unfold addChild. simpl.
    rewrite (changed_clipItems cf (HIERARCHY cf));
      [|exact Hrange|apply Hrange|left; apply carries_self; exact Hflag].
    unfold isClipped. rewrite getClipItems_miss by reflexivity. simpl.
    rewrite (filter_nonempty child_clipMask _
               (Base.with_index
                  (Some (Z.of_nat (length (_children (group n))))) child)).
    + reflexivity.
    + apply in_or_app. right. left. reflexivity.
    + destruct child; exact Hmask.
Qed.

Lemma changed_invalidates_clipItems_witness :
  let n := {| base := Fixtures.item_fields 0 0 false;
              group := Fixtures.group_fields [Fixtures.content] (Some [])
                         (Fixtures.rect 0 0 10 10) |} in
  table_in_range Fixtures.flags /\ int31 2
  /\ fst (isClipped (group n)) = false
  /\ _clipItems (group (_changed Fixtures.flags 2 n)) = None
  /\ fst (isClipped (group (addChild Fixtures.flags Fixtures.mask n))) = true.
Proof.
  intros n.
  assert (Hr : table_in_range Fixtures.flags)
    by (unfold table_in_range, int31; simpl; lia).
  assert (H2 : int31 2) by (unfold int31; lia).
  assert (Hc : carries 2 (HIERARCHY Fixtures.flags)
               \/ carries 2 (CLIPPING Fixtures.flags))
    by (left; unfold carries; simpl; discriminate).
  assert (Hf : HIERARCHY Fixtures.flags <> 0%Z) by (simpl; discriminate).
  pose proof (changed_invalidates_clipItems Fixtures.flags 2 n Hr H2 Hc Hf) as H.
  cbv zeta in H. destruct H as [H1 [_ [_ [_ H5]]]].
  split; [exact Hr|]. split; [exact H2|].
  split; [reflexivity|]. split; [exact H1|].
  apply H5. reflexivity.
Defined.

(** ** setClipped *)

Lemma Item_changed_clipping (cf : ChangeFlagTable) (f : ItemFields) :
  table_in_range cf -> CLIPPING cf <> 0%Z ->
  Item__changed cf (CLIPPING cf) f = set_bounds_cache None f.
Proof.
  intros (_ & _ & Hk) Hnz. unfold Item__changed.
  destruct (Z.eqb_spec
              (bitand (CLIPPING cf)
                 (bitor (GEOMETRY cf) (bitor (HIERARCHY cf) (CLIPPING cf)))) 0)
    as [E | E]; [|reflexivity].
  apply bitand_bitor_zero in E. destruct E as [_ E].
  rewrite bitor_low32, Z.land_lor_distr_r in E.
  apply Z.lor_eq_0_iff in E. destruct E as [_ E].
  rewrite Z.land_diag, (int31_low32 _ Hk) in E. contradiction.
Qed.

Lemma setClipped_no_children (cf : ChangeFlagTable) (flag : bool) (n : GroupNode) :
  _children (group n) = [] -> setClipped cf flag n = n.
Proof.
  intros Hnil. unfold setClipped, getFirstChild. rewrite Hnil. reflexivity.
Qed.

Lemma setClipped_first_child (cf : ChangeFlagTable) (flag : bool) (n : GroupNode)
    (first : Item) (others : list Item) :
  table_in_range cf -> CLIPPING cf <> 0%Z ->
  _children (group n) = first :: others ->
  setClipped cf flag n =
    {| base := set_bounds_cache None (base n);
       group := set_clipItems None
                  (set_children (setClipMask cf flag first :: others) (group n)) |}.
Proof.
  intros Hr Hnz Hch. unfold setClipped, getFirstChild. rewrite Hch. simpl tl.
  unfold _changed. simpl base. simpl group.
  rewrite (carries_either cf (CLIPPING cf) Hr)
    by (try apply Hr; right; apply carries_self; exact Hnz).
  rewrite Item_changed_clipping by assumption. reflexivity.
Qed.

Lemma Item_changed_clipMask (cf : ChangeFlagTable) (flags : Z) (f : ItemFields) :
  _clipMask (Item__changed cf flags f) = _clipMask f.
Proof.
  unfold Item__changed. destruct (bitand _ _ =? 0)%Z; reflexivity.
Qed.

Lemma setClipMask_clipMask (cf : ChangeFlagTable) (flag : bool) (child : Item) :
  child_clipMask (setClipMask cf flag child) = flag.
Proof.
  unfold setClipMask, child_clipMask, changed_self.
  destruct child as [f | f g]; simpl.
  - apply Item_changed_clipMask.
  - unfold _changed. simpl base.
    destruct (bitand _ _ =? 0)%Z; simpl; apply Item_changed_clipMask.
Qed.

(** What [setClipMask] leaves of the item it is called on: the flag is
    written, and the CLIPPING notification the item handles itself clears
    its cached bounds and, on a group, its clip-item cache. *)
Lemma setClipMask_explicit (cf : ChangeFlagTable) (flag : bool) (child : Item) :
  table_in_range cf -> CLIPPING cf <> 0%Z ->
  setClipMask cf flag child
  = match child with
    | Shape f => Shape (set_bounds_cache None (set_clipMask_field flag f))
    | Group f g =>
        Group (set_bounds_cache None (set_clipMask_field flag f))
          (set_clipItems None g)
    end.
Proof.
  intros Hr Hnz. unfold setClipMask. destruct child as [f | f g]; simpl.
  - rewrite Item_changed_clipping by assumption. reflexivity.
  - unfold _changed, item_of. simpl base. simpl group.
    rewrite (carries_either cf (CLIPPING cf) Hr)
      by (try apply Hr; right; apply carries_self; exact Hnz).
    rewrite Item_changed_clipping by assumption. reflexivity.
Qed.

(** C5, as the code has it.  With the members of the flag table
    non-negative integers of at most 31 bits and CLIPPING not zero,
    [setClipped(flag)] on a group with at least one child sets [_clipMask]
    to the flag on the first child (which is all [setClipMask] does to it
    besides letting it handle the CLIPPING notification), keeps every
    other child and the order of the children, and changes nothing else of
    the group except its two derived caches: the clip-item cache and the
    cached bounds are cleared by the CLIPPING notification.  On a group
    without children it changes nothing. *)
Theorem setClipped_frame (cf : ChangeFlagTable) (flag : bool) (n : GroupNode)
    (Hrange : table_in_range cf) (Hflag : CLIPPING cf <> 0%Z) :
  match _children (group n) with
  | [] => setClipped cf flag n = n
  | first :: others =>
      let first' := setClipMask cf flag first in
      child_clipMask first' = flag
      /\ setClipped cf flag n =
           {| base := set_bounds_cache None (base n);
              group := set_clipItems None
                         (set_children (first' :: others) (group n)) |}
  end.
Proof.
  destruct (_children (group n)) as [|first others] eqn:Hch.
  - apply setClipped_no_children. exact Hch.
  - cbv zeta. split; [apply setClipMask_clipMask|].
    apply setClipped_first_child; assumption.
Qed.

Lemma setClipped_frame_witness :
  let n := {| base := Fixtures.item_fields 0 0 false;
              group := Fixtures.group_fields
                         [Fixtures.content; Fixtures.shape 3 1 false]
                         (Some []) (Fixtures.rect 0 0 10 10) |} in
  table_in_range Fixtures.flags
  /\ CLIPPING Fixtures.flags <> 0%Z
  /\ map child_clipMask (_children (group (setClipped Fixtures.flags true n)))
       = [true; false]
  /\ _clipItems (group (setClipped Fixtures.flags true n)) = None.
Proof.
  intros n.
  assert (Hr : table_in_range Fixtures.flags)
    by (unfold table_in_range, int31; simpl; lia).
  assert (Hf : CLIPPING Fixtures.flags <> 0%Z) by (simpl; discriminate).
  split; [exact Hr|]. split; [exact Hf|].
  pose proof (setClipped_frame Fixtures.flags true n Hr Hf) as H.
  change (_children (group n))
    with [Fixtures.content; Fixtures.shape 3 1 false] in H.
  cbv zeta in H. destruct H as [_ H].
  rewrite H. split; reflexivity.
Defined.

(** C5, to the letter, fails: a group that has answered [isClipped()]
    holds a cached clip-item list, and [setClipped] leaves it without
    one. *)
Lemma setClipped_changes_the_cache :
  let n := {| base := Fixtures.item_fields 0 0 false;
              group := Fixtures.group_fields [Fixtures.content] (Some [])
                         (Fixtures.rect 0 0 10 10) |} in
  ~ setClipped_touches_first_child_only true n (setClipped Fixtures.flags true n).
Proof.
  intros n [first' [_ [_ Hgroup]]].
  apply (f_equal (@_clipItems Item)) in Hgroup.
  vm_compute in Hgroup. discriminate.
Qed.

(** C8.  With the members of the flag table non-negative integers of at
    most 31 bits and CLIPPING not zero, [setClipped(flag)] writes
    [_clipMask] on the first child and on no other: afterwards the first
    child is the one there was with [_clipMask] equal to the flag (its
    identity, index, matrix and children kept, its derived caches cleared
    by the notification it handles), the children after the first are
    left as they were and none is added or dropped.  So when some child
    other than the first is a clip mask, [isClipped()] still answers true
    after [setClipped(false)]. *)
Theorem setClipped_false_spares_later_masks (cf : ChangeFlagTable) (flag : bool)
    (n : GroupNode) (Hrange : table_in_range cf) (Hflag : CLIPPING cf <> 0%Z) :
  match _children (group n) with
  | [] => _children (group (setClipped cf flag n)) = []
  | first :: others =>
      exists first',
        _children (group (setClipped cf flag n)) = first' :: others
        /\ child_clipMask first' = flag
        /\ first' = match first with
                    | Shape f =>
                        Shape (set_bounds_cache None (set_clipMask_field flag f))
                    | Group f g =>
                        Group (set_bounds_cache None (set_clipMask_field flag f))
                          (set_clipItems None g)
                    end
  end
  /\ tl (_children (group (setClipped cf flag n))) = tl (_children (group n))
  /\ length (_children (group (setClipped cf flag n))) = length (_children (group n))
  /\ ((exists c, In c (tl (_children (group n))) /\ child_clipMask c = true) ->
       fst (isClipped (group (setClipped cf false n))) = true).
Proof.
  destruct (_children (group n)) as [|first others] eqn:Hch.
  - rewrite (setClipped_no_children cf flag n Hch), Hch.
    split; [reflexivity|]. split; [reflexivity|]. split; [reflexivity|].
    intros [c [Hin _]]. contradiction.
  - rewrite (setClipped_first_child cf flag n first others Hrange Hflag Hch).
    split.
    { exists (setClipMask cf flag first).
      split; [reflexivity|]. split; [apply setClipMask_clipMask|].
      apply setClipMask_explicit; assumption. }
    split; [reflexivity|]. split; [reflexivity|].
    intros [c [Hin Hmask]].
    rewrite (setClipped_first_child cf false n first others Hrange Hflag Hch).
    unfold isClipped. rewrite getClipItems_miss by reflexivity.
    cbv beta iota zeta. cbn [fst set_clipItems set_children _children].
    rewrite (filter_nonempty child_clipMask _ c); [reflexivity| |exact Hmask].
    right. exact Hin.
Qed.

Lemma setClipped_false_spares_later_masks_witness :
  let later := Fixtures.shape 3 1 true in
  let n := {| base := Fixtures.item_fields 0 0 false;
              group := Fixtures.group_fields [Fixtures.mask; later]
                         (Some [Fixtures.mask; later]) (Fixtures.rect 0 0 10 10) |} in
  table_in_range Fixtures.flags
  /\ CLIPPING Fixtures.flags <> 0%Z
  /\ map child_clipMask (_children (group n)) = [true; true]
  /\ map child_clipMask (_children (group (setClipped Fixtures.flags false n)))
       = [false; true]
  /\ fst (isClipped (group (setClipped Fixtures.flags false n))) = true.
Proof.
  intros later n.
  assert (Hr : table_in_range Fixtures.flags)
    by (unfold table_in_range, int31; simpl; lia).
  assert (Hf : CLIPPING Fixtures.flags <> 0%Z) by (simpl; discriminate).
  pose proof (setClipped_false_spares_later_masks Fixtures.flags false n Hr Hf)
    as H.
  change (_children (group n)) with [Fixtures.mask; later] in H.
  destruct H as [[first' [Hchildren [Hmask _]]] [_ [_ Hclipped]]].
  split; [exact Hr|]. split; [exact Hf|]. split; [reflexivity|].
  split.
  - rewrite Hchildren. simpl. rewrite Hmask. reflexivity.
  - apply Hclipped. exists later.
    split; [simpl; left; reflexivity | reflexivity].
Defined.

(** ** The two loops of [Group.draw] *)

Lemma draw_each_filter (draw : Drawer) (keep : Item -> bool) (l : list Item)
    (ctx : Context2D) :
  forall st, draw_each draw keep l ctx st
             = draw_each draw always (filter keep l) ctx st.
Proof.
  induction l as [|item rest IH]; intros st; simpl.
  - reflexivity.
  - destruct (keep item); simpl.
    + destruct (draw item ctx st) as [body st1]. rewrite IH. reflexivity.
    + apply IH.
Qed.

Lemma draw_clipItems_eq (draw : Drawer) (g : GroupFields Item)
    (ctx : Context2D) (st : DrawState) :
  draw_clipItems draw g ctx st
  = draw_each draw always (fst (_getClipItems g)) ctx st.
Proof.
  unfold draw_clipItems, _getClipItems.
  destruct (_clipItems g) as [cached|]; simpl.
  - reflexivity.
  - apply draw_each_filter.
Qed.

Lemma item_draws_app (t1 t2 : list Event) :
  item_draws (t1 ++ t2) = item_draws t1 ++ item_draws t2.
Proof.
  induction t1 as [|e t1 IH]; simpl; [reflexivity|].
  destruct e; simpl; rewrite ?IH; reflexivity.
Qed.

Lemma item_draws_draw_each (draw : Drawer) (l : list Item) (ctx : Context2D) :
  forall st,
    item_draws (fst (draw_each draw always l ctx st))
    = map (fun item => (_id (fields item), ctx)) l.
Proof.
  induction l as [|item rest IH]; intros st; simpl; [reflexivity|].
  destruct (draw item ctx st) as [body st1].
  specialize (IH st1).
  destruct (draw_each draw always rest ctx st1) as [more st2].
  simpl in *. rewrite IH. reflexivity.
Qed.

Lemma item_draws_draw_each_keep (draw : Drawer) (keep : Item -> bool)
    (l : list Item) (ctx : Context2D) (st : DrawState) :
  item_draws (fst (draw_each draw keep l ctx st))
  = map (fun item => (_id (fields item), ctx)) (filter keep l).
Proof.
  rewrite draw_each_filter. apply item_draws_draw_each.
Qed.

Lemma isClipped_fst (g : GroupFields Item) :
  fst (isClipped g) = negb (length (fst (_getClipItems g)) =? 0)%nat.
Proof.
  unfold isClipped. destruct (_getClipItems g) as [items g']. reflexivity.
Qed.

Lemma is_zero_true (n : Q) : is_zero n = true <-> n == 0.
Proof. unfold is_zero. apply Qeq_bool_iff. Qed.

Lemma is_zero_false (n : Q) : is_zero n = false <-> ~ n == 0.
Proof.
  rewrite <- is_zero_true. destruct (is_zero n); split; congruence.
Qed.

Lemma partition_by_filter {A} (p : A -> bool) (l : list A) :
  Permutation (filter p l ++ filter (fun a => negb (p a)) l) l.
Proof.
  induction l as [|a l IH]; simpl; [constructor|].
  destruct (p a); simpl.
  - constructor. exact IH.
  - apply Permutation_sym, Permutation_cons_app, Permutation_sym. exact IH.
Qed.

(** ** Group.draw, pooled revision *)

Lemma Pooled_draw_zero_area (f : ItemFields) (g : GroupFields Item)
    (ctx : Context2D) (st : DrawState) :
  fst (isClipped g) = true ->
  is_zero (width (getStrokeBounds g)) || is_zero (height (getStrokeBounds g))
    = true ->
  Pooled.draw (Group f g) ctx st = ([], st).
Proof.
  intros Hclipped Hzero. rewrite isClipped_fst in Hclipped.
  simpl. unfold Pooled.Group_draw. rewrite Hclipped, Hzero. reflexivity.
Qed.

(** C6. When the group is clipped and its stroke bounds have zero width
    or zero height, [draw] does nothing at all: the trace is empty (no
    canvas is asked of the provider, nothing is painted on any context)
    and the state, provider included, is the one it was given; the call
    returns normally. *)
Theorem Pooled_draw_degenerate (f : ItemFields) (g : GroupFields Item)
    (ctx : Context2D) (st : DrawState)
    (Hclipped : fst (isClipped g) = true)
    (Hzero : width (getStrokeBounds g) == 0 \/ height (getStrokeBounds g) == 0) :
  Pooled.draw (Group f g) ctx st = ([], st).
Proof.
  apply Pooled_draw_zero_area; [exact Hclipped|].
  apply orb_true_iff.
  destruct Hzero as [Hz | Hz]; [left | right]; apply is_zero_true; exact Hz.
Qed.

Lemma Pooled_draw_degenerate_witness :
  let g := Fixtures.group_fields [Fixtures.mask; Fixtures.content] None
             (Fixtures.rect 3 4 0 25) in
  fst (isClipped g) = true
  /\ Pooled.draw (Group (Fixtures.item_fields 0 0 false) g) Screen
       Fixtures.fresh_state = ([], Fixtures.fresh_state).
Proof.
  intros g. split; [reflexivity|].
  apply Pooled_draw_degenerate; [reflexivity | left; reflexivity].
Defined.

(** The shape of a clipped, non-degenerate draw. *)
Lemma Pooled_draw_clipped (f : ItemFields) (g : GroupFields Item)
    (ctx : Context2D) (st : DrawState) :
  fst (isClipped g) = true ->
  ~ width (getStrokeBounds g) == 0 ->
  ~ height (getStrokeBounds g) == 0 ->
  let b := getStrokeBounds g in
  let offset := {| px := inject_Z (Qfloor (x b)); py := inject_Z (Qfloor (y b)) |} in
  let size := {| sw := inject_Z (Qceiling (width b)) + 1;
                 sh := inject_Z (Qceiling (height b)) + 1 |} in
  let canvas := fst (CanvasProvider.getCanvas size (provider st)) in
  let st0 := {| provider := snd (CanvasProvider.getCanvas size (provider st));
                param_offset := Some offset;
                prevOffset := param_offset st |} in
  let stencil :=
    draw_each Pooled.draw always (fst (_getClipItems g)) (Offscreen canvas) st0 in
  let regular :=
    draw_each Pooled.draw (fun item => negb (_clipMask (fields item)))
      (_children g) (Offscreen canvas) (snd stencil) in
  Pooled.draw (Group f g) ctx st =
    ([GetCanvas size canvas; Save (Offscreen canvas);
      Translate (Offscreen canvas) (- px offset) (- py offset);
      ApplyToContext (_matrix f) (Offscreen canvas)]
       ++ fst stencil
       ++ [GlobalCompositeOperation (Offscreen canvas) (compositing g)]
       ++ fst regular
       ++ [DrawImage ctx canvas (px offset) (py offset);
           Restore (Offscreen canvas);
           ReturnCanvas canvas],
     set_provider
       (CanvasProvider.returnCanvas canvas (provider (snd regular)))
       (snd regular)).
Proof.
  intros Hclipped Hw Hh. rewrite isClipped_fst in Hclipped.
  apply is_zero_false in Hw. apply is_zero_false in Hh.
  cbv zeta. simpl Pooled.draw. unfold Pooled.Group_draw.
  rewrite Hclipped, Hw, Hh. simpl orb. cbv iota.
  unfold add, ceil, floor, Size_create, getSize, getTopLeft. simpl sw. simpl sh.
  simpl px. simpl py.
  destruct (CanvasProvider.getCanvas _ (provider st)) as [canvas p1].
  rewrite draw_clipItems_eq. simpl fst. simpl snd.
  destruct (draw_each Pooled.draw always _ _ _) as [mask st1].
  simpl fst. simpl snd.
  destruct (draw_each Pooled.draw _ (_children g) _ st1) as [regular st2].
  reflexivity.
Qed.

(** C4. When a clipped group whose stroke bounds have non-zero width and
    height draws, the canvas it asks of the provider has the ceiling of
    the bounds' size plus one in each dimension; the drawing offset
    ([param.offset] while the children draw, the translation of the
    temporary context, and the place where the result is composited onto
    the parent context) is the floor of the bounds' top-left corner. *)
Theorem Pooled_draw_buffer_geometry (f : ItemFields) (g : GroupFields Item)
    (ctx : Context2D) (st : DrawState)
    (Hclipped : fst (isClipped g) = true)
    (Hwidth : ~ width (getStrokeBounds g) == 0)
    (Hheight : ~ height (getStrokeBounds g) == 0) :
  let b := getStrokeBounds g in
  exists (size : Size) (offset : Point) (canvas : CanvasProvider.Canvas)
         (p1 : CanvasProvider.t) (stencil regular : list Event)
         (st1 st2 : DrawState),
    sw size == inject_Z (Qceiling (width b) + 1)
    /\ sh size == inject_Z (Qceiling (height b) + 1)
    /\ px offset == inject_Z (Qfloor (x b))
    /\ py offset == inject_Z (Qfloor (y b))
    /\ CanvasProvider.getCanvas size (provider st) = (canvas, p1)
    /\ draw_each Pooled.draw always (fst (_getClipItems g)) (Offscreen canvas)
         {| provider := p1; param_offset := Some offset;
            prevOffset := param_offset st |} = (stencil, st1)
    /\ draw_each Pooled.draw (fun item => negb (_clipMask (fields item)))
         (_children g) (Offscreen canvas) st1 = (regular, st2)
    /\ fst (Pooled.draw (Group f g) ctx st) =
         [GetCanvas size canvas; Save (Offscreen canvas);
          Translate (Offscreen canvas) (- px offset) (- py offset);
          ApplyToContext (_matrix f) (Offscreen canvas)]
           ++ stencil
           ++ [GlobalCompositeOperation (Offscreen canvas) (compositing g)]
           ++ regular
           ++ [DrawImage ctx canvas (px offset) (py offset);
               Restore (Offscreen canvas);
               ReturnCanvas canvas].
Proof.
  intros b.
  pose proof (Pooled_draw_clipped f g ctx st Hclipped Hwidth Hheight) as Hdraw.
  cbv zeta in Hdraw. fold b in Hdraw.
  set (size := {| sw := inject_Z (Qceiling (width b)) + 1;
                  sh := inject_Z (Qceiling (height b)) + 1 |}) in *.
  set (offset := {| px := inject_Z (Qfloor (x b));
                    py := inject_Z (Qfloor (y b)) |}) in *.
  destruct (CanvasProvider.getCanvas size (provider st)) as [canvas p1] eqn:Hget.
  simpl fst in Hdraw. simpl snd in Hdraw.
  destruct (draw_each Pooled.draw always (fst (_getClipItems g))
              (Offscreen canvas) _) as [stencil st1] eqn:Hstencil.
  simpl fst in Hdraw. simpl snd in Hdraw.
  destruct (draw_each Pooled.draw _ (_children g) (Offscreen canvas) st1)
    as [regular st2] eqn:Hregular.
  exists size, offset, canvas, p1, stencil, regular, st1, st2.
  split; [simpl sw; rewrite inject_Z_plus; reflexivity|].
  split; [simpl sh; rewrite inject_Z_plus; reflexivity|].
  split; [reflexivity|]. split; [reflexivity|].
  split; [exact Hget|].
  split; [exact Hstencil|]. split; [exact Hregular|].
  rewrite Hdraw. reflexivity.
Qed.

Lemma Pooled_draw_buffer_geometry_witness :
  fst (isClipped (Fixtures.group_fields [Fixtures.mask; Fixtures.content] None
                    (Fixtures.rect (104 # 10) (5 # 2) (203 # 10) 8))) = true
  /\ exists size offset canvas,
       sw size == 22 /\ sh size == 9 /\ px offset == 10 /\ py offset == 2
       /\ In (GetCanvas size canvas)
            (fst (Pooled.draw Fixtures.clipped_group Screen Fixtures.fresh_state))
       /\ In (DrawImage Screen canvas (px offset) (py offset))
            (fst (Pooled.draw Fixtures.clipped_group Screen Fixtures.fresh_state)).
Proof.
  split; [reflexivity|].
  destruct (Pooled_draw_buffer_geometry
              (Fixtures.item_fields 0 0 false)
              (Fixtures.group_fields [Fixtures.mask; Fixtures.content] None
                 (Fixtures.rect (104 # 10) (5 # 2) (203 # 10) 8))
              Screen Fixtures.fresh_state)
    as (size & offset & canvas & p1 & stencil & regular & st1 & st2
        & Hsw & Hsh & Hpx & Hpy & _ & _ & _ & Htrace).
  - reflexivity.
  - simpl. intros H. discriminate H.
  - simpl. intros H. discriminate H.
  - exists size, offset, canvas.
    split; [rewrite Hsw; reflexivity|].
    split; [rewrite Hsh; reflexivity|].
    split; [rewrite Hpx; reflexivity|].
    split; [rewrite Hpy; reflexivity|].
    unfold Fixtures.clipped_group. rewrite Htrace. split.
    + left. reflexivity.
    + apply in_or_app. right. apply in_or_app. right.
      apply in_or_app. right. apply in_or_app. right. left. reflexivity.
Defined.

(** The two passes of a clipped, non-degenerate draw, when the clip-item
    cache is absent or up to date: the stencil pass draws the clip-mask
    children, the regular pass draws the others, each in children-list
    order, and together they draw every child once. *)
Lemma Pooled_draw_passes (f : ItemFields) (g : GroupFields Item)
    (ctx : Context2D) (st : DrawState) :
  cache_consistent g ->
  fst (isClipped g) = true ->
  ~ width (getStrokeBounds g) == 0 ->
  ~ height (getStrokeBounds g) == 0 ->
  exists (canvas : CanvasProvider.Canvas) (setup stencil regular finish : list Event),
    fst (Pooled.draw (Group f g) ctx st) =
      setup ++ stencil
        ++ [GlobalCompositeOperation (Offscreen canvas) (compositing g)]
        ++ regular ++ finish
    /\ item_draws setup = [] /\ item_draws finish = []
    /\ item_draws stencil =
         map (fun item => (_id (fields item), Offscreen canvas))
           (filter child_clipMask (_children g))
    /\ item_draws regular =
         map (fun item => (_id (fields item), Offscreen canvas))
           (filter (fun item => negb (child_clipMask item)) (_children g))
    /\ Permutation (item_draws (fst (Pooled.draw (Group f g) ctx st)))
         (map (fun item => (_id (fields item), Offscreen canvas)) (_children g)).
Proof.
  intros Hcache Hclipped Hw Hh.
  pose proof (Pooled_draw_clipped f g ctx st Hclipped Hw Hh) as Hdraw.
  cbv zeta in Hdraw. rewrite Hdraw. clear Hdraw. simpl fst.
  rewrite (getClipItems_consistent g Hcache).
  match goal with
  | |- context [Offscreen ?c] => set (canvas := c)
  end.
  match goal with
  | |- context [draw_each Pooled.draw always ?l ?c ?s] =>
      set (stencil := draw_each Pooled.draw always l c s)
  end.
  match goal with
  | |- context [draw_each Pooled.draw ?k (_children g) ?c ?s] =>
      set (regular := draw_each Pooled.draw k (_children g) c s)
  end.
  assert (Hs : item_draws (fst stencil)
               = map (fun item => (_id (fields item), Offscreen canvas))
                   (filter child_clipMask (_children g)))
    by apply item_draws_draw_each.
  assert (Hr : item_draws (fst regular)
               = map (fun item => (_id (fields item), Offscreen canvas))
                   (filter (fun item => negb (child_clipMask item)) (_children g)))
    by apply item_draws_draw_each_keep.
  match goal with
  | |- context [GetCanvas ?sz canvas :: ?s :: ?t :: ?a :: fst stencil ++ _] =>
      exists canvas, [GetCanvas sz canvas; s; t; a], (fst stencil), (fst regular)
  end.
  match goal with
  | |- context [fst regular ++ ?fin] => exists fin
  end.
  split; [reflexivity|].
  split; [reflexivity|]. split; [reflexivity|].
  split; [exact Hs|]. split; [exact Hr|].
  simpl item_draws. rewrite !item_draws_app. simpl item_draws at 2.
  rewrite item_draws_app. simpl item_draws at 3.
  rewrite Hs, Hr, app_nil_r.
  rewrite <- map_app. apply Permutation_map. apply partition_by_filter.
Qed.

(** ** Group.draw, earlier revision *)

Lemma SingleContext_draw_clipped (f : ItemFields) (g : GroupFields Item)
    (ctx : Context2D) (st : DrawState) :
  fst (isClipped g) = true ->
  let b := getBounds g in
  let canvas := fst (CanvasProvider.getCanvas (getSize b) (provider st)) in
  let st0 :=
    set_provider (snd (CanvasProvider.getCanvas (getSize b) (provider st))) st in
  let stencil :=
    draw_each SingleContext.draw always (fst (_getClipItems g))
      (Offscreen canvas) st0 in
  let regular :=
    draw_each SingleContext.draw (fun item => falsy (_clipMark (fields item)))
      (_children g) (Offscreen canvas) (snd stencil) in
  SingleContext.draw (Group f g) ctx st =
    ([GetCanvas (getSize b) canvas; Save (Offscreen canvas);
      Translate (Offscreen canvas) (- x b) (- y b)]
       ++ fst stencil
       ++ [GlobalCompositeOperation (Offscreen canvas)
             (_clippingCompositionOperation g)]
       ++ fst regular
       ++ [DrawImage ctx canvas (x b) (y b);
           Restore (Offscreen canvas);
           ClearRect (Offscreen canvas) 0 0 (CanvasProvider.cwidth canvas + 1)
             (CanvasProvider.cheight canvas + 1)],
     snd regular).
Proof.
  intros Hclipped. rewrite isClipped_fst in Hclipped.
  cbv zeta. simpl SingleContext.draw. unfold SingleContext.Group_draw.
  rewrite Hclipped.
  destruct (CanvasProvider.getCanvas _ (provider st)) as [canvas p1].
  rewrite draw_clipItems_eq. simpl fst. simpl snd.
  destruct (draw_each SingleContext.draw always _ _ _) as [mask st1].
  simpl fst. simpl snd.
  destruct (draw_each SingleContext.draw _ (_children g) _ st1) as [regular st2].
  reflexivity.
Qed.

(** The regular loop of the earlier revision tests [_clipMark], a property
    no item has: it draws every child, clip masks included. *)
Lemma SingleContext_regular_draws_all (draw : Drawer) (l : list Item)
    (ctx : Context2D) (st : DrawState) :
  Forall (fun item => _clipMark (fields item) = None) l ->
  item_draws
    (fst (draw_each draw (fun item => falsy (_clipMark (fields item))) l ctx st))
  = map (fun item => (_id (fields item), ctx)) l.
Proof.
  intros Hunset. rewrite item_draws_draw_each_keep. f_equal.
  induction Hunset as [|item rest Hitem _ IH]; simpl; [reflexivity|].
  rewrite Hitem. simpl. rewrite IH. reflexivity.
Qed.

(** The two passes of a clipped draw in the earlier revision, when no
    child has a [_clipMark]: the stencil pass draws the clip-mask children
    and the regular pass draws all the children, the clip masks among
    them. *)
Lemma SingleContext_draw_passes (f : ItemFields) (g : GroupFields Item)
    (ctx : Context2D) (st : DrawState) :
  cache_consistent g ->
  fst (isClipped g) = true ->
  Forall (fun item => _clipMark (fields item) = None) (_children g) ->
  exists (canvas : CanvasProvider.Canvas) (setup stencil regular finish : list Event),
    fst (SingleContext.draw (Group f g) ctx st) =
      setup ++ stencil
        ++ [GlobalCompositeOperation (Offscreen canvas)
              (_clippingCompositionOperation g)]
        ++ regular ++ finish
    /\ item_draws setup = [] /\ item_draws finish = []
    /\ item_draws stencil =
         map (fun item => (_id (fields item), Offscreen canvas))
           (filter child_clipMask (_children g))
    /\ item_draws regular =
         map (fun item => (_id (fields item), Offscreen canvas)) (_children g).
Proof.
  intros Hcache Hclipped Hunset.
  pose proof (SingleContext_draw_clipped f g ctx st Hclipped) as Hdraw.
  cbv zeta in Hdraw. rewrite Hdraw. clear Hdraw. cbn [fst].
  rewrite (getClipItems_consistent g Hcache).
  match goal with
  | |- context [Offscreen ?c] => set (canvas := c)
  end.
  match goal with
  | |- context [draw_each SingleContext.draw always ?l ?c ?s] =>
      set (stencil := draw_each SingleContext.draw always l c s)
  end.
  match goal with
  | |- context [draw_each SingleContext.draw ?k (_children g) ?c ?s] =>
      set (regular := draw_each SingleContext.draw k (_children g) c s)
  end.
  match goal with
  | |- context [[?a; ?b; ?c] ++ fst stencil ++ _] =>
      exists canvas, [a; b; c], (fst stencil), (fst regular)
  end.
  match goal with
  | |- context [fst regular ++ ?fin] => exists fin
  end.
  split; [reflexivity|].
  split; [reflexivity|]. split; [reflexivity|].
  split; [apply item_draws_draw_each|].
  apply SingleContext_regular_draws_all. exact Hunset.
Qed.

(** C2 fails in the earlier revision.  The group has a clip mask (item 1)
    and one ordinary child (item 2); the stencil pass draws the mask, and
    the regular pass, after the compositing operation is set, draws the
    mask again before the ordinary child. *)
Theorem SingleContext_draw_mask_drawn_twice :
  let canvas := {| CanvasProvider.cid := 0;
                   CanvasProvider.cwidth := 203 # 10;
                   CanvasProvider.cheight := 8 |} in
  child_clipMask Fixtures.mask = true
  /\ exists setup stencil regular finish,
       fst (SingleContext.draw Fixtures.clipped_group Screen Fixtures.fresh_state)
       = setup ++ stencil
           ++ [GlobalCompositeOperation (Offscreen canvas) "source-in"]
           ++ regular ++ finish
       /\ item_draws setup = [] /\ item_draws finish = []
       /\ item_draws stencil = [(_id (fields Fixtures.mask), Offscreen canvas)]
       /\ item_draws regular = [(_id (fields Fixtures.mask), Offscreen canvas);
                                (_id (fields Fixtures.content), Offscreen canvas)].
Proof.
  intros canvas. split; [reflexivity|].
  exists [GetCanvas {| sw := 203 # 10; sh := 8 |} canvas; Save (Offscreen canvas);
          Translate (Offscreen canvas) (- (104 # 10)) (- (5 # 2))],
         [ItemDraw 1 (Offscreen canvas) [Paint 1 (Offscreen canvas)]],
         [ItemDraw 1 (Offscreen canvas) [Paint 1 (Offscreen canvas)];
          ItemDraw 2 (Offscreen canvas) [Paint 2 (Offscreen canvas)]],
         [DrawImage Screen canvas (104 # 10) (5 # 2); Restore (Offscreen canvas);
          ClearRect (Offscreen canvas) 0 0 ((203 # 10) + 1) (8 + 1)].
  repeat split.
Qed.

(** The pooled revision on the same group: the mask is drawn once. *)
Example Pooled_draw_mask_drawn_once :
  map fst (item_draws
             (fst (Pooled.draw Fixtures.clipped_group Screen Fixtures.fresh_state)))
  = [1; 2]%nat.
Proof. reflexivity. Qed.

(** ** The canvas provider under recursive draws *)

Lemma Item_induction (P : Item -> Prop) :
  (forall f, P (Shape f)) ->
  (forall f g,
      Forall P (_children g) ->
      (forall cached, _clipItems g = Some cached -> Forall P cached) ->
      P (Group f g)) ->
  forall it, P it.
Proof.
  intros HShape HGroup.
  fix IH 1.
  intros [f | f g].
  - apply HShape.
  - apply HGroup.
    + destruct g as [children cache c1 c2 b1 b2]. simpl.
      induction children as [|c rest IHrest]; constructor.
      * apply IH.
      * exact IHrest.
    + destruct g as [children cache c1 c2 b1 b2]. simpl.
      intros cached Hcache. destruct cache as [l|]; [|discriminate].
      injection Hcache as <-.
      induction l as [|c rest IHrest]; constructor.
      * apply IH.
      * exact IHrest.
Qed.

Lemma pool_ops_of_ItemDraw (i : nat) (ctx : Context2D) (body : list Event) :
  pool_ops_of (ItemDraw i ctx body) = pool_ops body.
Proof.
  simpl. induction body as [|e r IH]; [reflexivity|].
  simpl. rewrite IH. reflexivity.
Qed.

Lemma pool_ops_app (t1 t2 : list Event) :
  pool_ops (t1 ++ t2) = pool_ops t1 ++ pool_ops t2.
Proof. unfold pool_ops. apply flat_map_app. Qed.

Lemma pool_ops_cons_ItemDraw (i : nat) (ctx : Context2D) (body rest : list Event) :
  pool_ops (ItemDraw i ctx body :: rest) = pool_ops body ++ pool_ops rest.
Proof.
  change (pool_ops (ItemDraw i ctx body :: rest))
    with (pool_ops_of (ItemDraw i ctx body) ++ pool_ops rest).
  rewrite pool_ops_of_ItemDraw. reflexivity.
Qed.

Lemma live_after_app (ops1 ops2 : list PoolOp) :
  forall held, live_after (ops1 ++ ops2) held = live_after ops2 (live_after ops1 held).
Proof.
  induction ops1 as [|[c|c] r IH]; intros held; simpl; auto.
Qed.

Lemma handouts_fresh_app (ops1 ops2 : list PoolOp) :
  forall held,
    handouts_fresh held (ops1 ++ ops2)
    <-> handouts_fresh held ops1 /\ handouts_fresh (live_after ops1 held) ops2.
Proof.
  induction ops1 as [|[c|c] r IH]; intros held; simpl.
  - tauto.
  - rewrite IH. tauto.
  - apply IH.
Qed.

Lemma NoDup_remove_eq (c : nat) (l : list nat) :
  NoDup l -> NoDup (remove Nat.eq_dec c l).
Proof.
  induction 1 as [|a l Hnotin Hnd IH]; simpl; [constructor|].
  destruct (Nat.eq_dec c a); [exact IH|].
  constructor; [|exact IH].
  intros Hin. apply in_remove in Hin. destruct Hin as [Hin _]. contradiction.
Qed.

Lemma remove_head_fresh (c : nat) (l : list nat) :
  ~ In c l -> remove Nat.eq_dec c (c :: l) = l.
Proof.
  intros Hnotin. simpl. destruct (Nat.eq_dec c c); [|congruence].
  apply notin_remove. exact Hnotin.
Qed.

Lemma handouts_fresh_distinct (ops : list PoolOp) :
  forall held, NoDup held -> handouts_fresh held ops -> NoDup (live_after ops held).
Proof.
  induction ops as [|[c|c] r IH]; intros held Hnd Hfresh; simpl in *.
  - exact Hnd.
  - destruct Hfresh as [Hnotin Hrest]. apply IH; [constructor; assumption | exact Hrest].
  - apply IH; [apply NoDup_remove_eq; exact Hnd | exact Hfresh].
Qed.

Lemma handouts_fresh_never_reissued (held : list nat) (ops : list PoolOp) :
  handouts_fresh held ops -> never_handed_out_while_live held ops.
Proof.
  intros Hfresh before c after ->.
  apply handouts_fresh_app in Hfresh. destruct Hfresh as [_ Hfresh].
  simpl in Hfresh. apply Hfresh.
Qed.

Lemma handouts_fresh_live_distinct (held : list nat) (ops : list PoolOp) :
  NoDup held -> handouts_fresh held ops -> live_always_distinct held ops.
Proof.
  intros Hnd Hfresh before after ->.
  apply handouts_fresh_app in Hfresh. destruct Hfresh as [Hfresh _].
  apply handouts_fresh_distinct; assumption.
Qed.

(** *** The provider's own operations *)

Lemma take_splits (size : Size) (l : list CanvasProvider.Canvas) :
  forall c rest,
    CanvasProvider.take size l = Some (c, rest) ->
    exists l1 l2, l = l1 ++ c :: l2 /\ rest = l1 ++ l2.
Proof.
  induction l as [|a l IH]; intros c rest Htake; simpl in Htake; [discriminate|].
  destruct (CanvasProvider.fits size a).
  - injection Htake as <- <-. exists [], l. split; reflexivity.
  - destruct (CanvasProvider.take size l) as [[c' r']|]; [|discriminate].
    injection Htake as <- <-.
    destruct (IH c' r' eq_refl) as (l1 & l2 & -> & ->).
    exists (a :: l1), l2. split; reflexivity.
Qed.

Lemma getCanvas_consistent (size : Size) (p : CanvasProvider.t) (held : list nat) :
  provider_consistent held p ->
  ~ In (CanvasProvider.cid (fst (CanvasProvider.getCanvas size p))) held
  /\ provider_consistent
       (CanvasProvider.cid (fst (CanvasProvider.getCanvas size p)) :: held)
       (snd (CanvasProvider.getCanvas size p)).
Proof.
  intros (Hheld & Hidle & Hdisjoint & Hmade).
  unfold CanvasProvider.getCanvas.
  destruct (CanvasProvider.take size (CanvasProvider.canvases p))
    as [[c rest]|] eqn:Htake; simpl.
  - destruct (take_splits _ _ _ _ Htake) as (l1 & l2 & Hl & ->).
    rewrite Hl, map_app in Hidle, Hdisjoint, Hmade. simpl in Hidle, Hdisjoint, Hmade.
    assert (Hc : ~ In (CanvasProvider.cid c) held).
    { intros Hin. apply (Hdisjoint _ Hin). apply in_or_app. right. left. reflexivity. }
    split; [exact Hc|].
    unfold provider_consistent. simpl. rewrite map_app.
    split; [constructor; assumption|].
    split; [apply NoDup_remove_1 in Hidle; exact Hidle|].
    split.
    + intros c' [<- | Hin].
      * apply NoDup_remove_2 in Hidle. exact Hidle.
      * intros Hin'. apply (Hdisjoint _ Hin).
        apply in_app_or in Hin'. apply in_or_app.
        destruct Hin' as [Hin' | Hin']; [left | right; right]; exact Hin'.
    + intros c' [[<- | Hin] | Hin].
      * apply Hmade. right. apply in_or_app. right. left. reflexivity.
      * apply Hmade. left. exact Hin.
      * apply Hmade. right.
        apply in_app_or in Hin. apply in_or_app.
        destruct Hin as [Hin | Hin]; [left | right; right]; exact Hin.
  - assert (Hc : ~ In (CanvasProvider.created p) held).
    { intros Hin. specialize (Hmade _ (or_introl Hin)). lia. }
    split; [exact Hc|].
    unfold provider_consistent. simpl.
    split; [constructor; assumption|].
    split; [exact Hidle|].
    split.
    + intros c' [<- | Hin].
      * intros Hin'. specialize (Hmade _ (or_intror Hin')). lia.
      * apply Hdisjoint. exact Hin.
    + intros c' [[<- | Hin] | Hin].
      * lia.
      * specialize (Hmade _ (or_introl Hin)). lia.
      * specialize (Hmade _ (or_intror Hin)). lia.
Qed.

Lemma returnCanvas_consistent (c : CanvasProvider.Canvas) (p : CanvasProvider.t)
    (held : list nat) :
  ~ In (CanvasProvider.cid c) held ->
  provider_consistent (CanvasProvider.cid c :: held) p ->
  provider_consistent held (CanvasProvider.returnCanvas c p).
Proof.
  intros Hc (Hheld & Hidle & Hdisjoint & Hmade).
  unfold provider_consistent. simpl.
  split; [inversion Hheld; assumption|].
  split; [constructor; [apply Hdisjoint; left; reflexivity | exact Hidle]|].
  split.
  - intros c' Hin [<- | Hin'].
    + contradiction.
    + apply (Hdisjoint c'); [right; exact Hin | exact Hin'].
  - intros c' [Hin | [<- | Hin]].
    + apply Hmade. left. right. exact Hin.
    + apply Hmade. left. left. reflexivity.
    + apply Hmade. right. exact Hin.
Qed.

Lemma provider_consistent_empty : provider_consistent [] CanvasProvider.empty.
Proof.
  unfold provider_consistent. simpl.
  split; [constructor|]. split; [constructor|].
  split; [intros c []|]. intros c [[] | []].
Qed.

(** *** The draw routines *)

Lemma draw_each_discipline (balanced : bool) (draw : Drawer)
    (keep : Item -> bool) (l : list Item) :
  Forall (fun item => pool_discipline balanced (draw item)) l ->
  pool_discipline balanced (draw_each draw keep l).
Proof.
  induction 1 as [|item rest Hitem _ IH]; intros ctx st held Hcons; simpl.
  - split; [exact I|]. split; [exact Hcons|]. reflexivity.
  - destruct (keep item); [|apply IH; exact Hcons].
    specialize (Hitem ctx st held Hcons).
    destruct (draw item ctx st) as [body st1]. simpl in Hitem.
    destruct Hitem as (Hfresh1 & Hcons1 & Hbal1).
    specialize (IH ctx st1 _ Hcons1).
    destruct (draw_each draw keep rest ctx st1) as [more st2]. simpl in IH.
    destruct IH as (Hfresh2 & Hcons2 & Hbal2).
    simpl fst. simpl snd. rewrite pool_ops_cons_ItemDraw, live_after_app.
    split; [apply handouts_fresh_app; split; assumption|].
    split; [exact Hcons2|].
    intros Hb. rewrite (Hbal2 Hb). apply Hbal1. exact Hb.
Qed.

Lemma clipItems_Forall (P : Item -> Prop) (g : GroupFields Item) :
  Forall P (_children g) ->
  (forall cached, _clipItems g = Some cached -> Forall P cached) ->
  Forall P (fst (_getClipItems g)).
Proof.
  intros Hchildren Hcache. unfold _getClipItems.
  destruct (_clipItems g) as [cached|]; simpl.
  - apply Hcache. reflexivity.
  - apply Forall_forall. intros item Hin. apply filter_In in Hin.
    destruct Hin as [Hin _]. revert item Hin. apply Forall_forall. exact Hchildren.
Qed.

Lemma pool_ops_clipped (setup1 setup2 setup3 : Event) (size : Size)
    (canvas : CanvasProvider.Canvas) (stencil regular : list Event)
    (op blit restore : Event) :
  pool_ops_of setup1 = [] -> pool_ops_of setup2 = [] -> pool_ops_of setup3 = [] ->
  pool_ops_of op = [] -> pool_ops_of blit = [] -> pool_ops_of restore = [] ->
  pool_ops ([GetCanvas size canvas; setup1; setup2; setup3]
              ++ stencil ++ [op] ++ regular
              ++ [blit; restore; ReturnCanvas canvas])
  = HandOut (CanvasProvider.cid canvas)
      :: pool_ops stencil ++ pool_ops regular
           ++ [TakeBack (CanvasProvider.cid canvas)].
Proof.
  intros H1 H2 H3 H4 H5 H6. rewrite !pool_ops_app. unfold pool_ops at 1 3 5.
  simpl flat_map. rewrite H1, H2, H3, H4, H5, H6. reflexivity.
Qed.

Lemma Pooled_draw_discipline (it : Item) :
  pool_discipline true (Pooled.draw it).
Proof.
  induction it as [f | f g IHchildren IHcache] using Item_induction;
    intros ctx st held Hcons.
  - simpl. split; [exact I|]. split; [exact Hcons|]. reflexivity.
  - destruct (fst (isClipped g)) eqn:Hclipped.
    + destruct (is_zero (width (getStrokeBounds g))
                || is_zero (height (getStrokeBounds g))) eqn:Hzero.
      * rewrite (Pooled_draw_zero_area f g ctx st Hclipped Hzero).
        simpl. split; [exact I|]. split; [exact Hcons|]. reflexivity.
      * apply orb_false_iff in Hzero. destruct Hzero as [Hw Hh].
        apply is_zero_false in Hw. apply is_zero_false in Hh.
        pose proof (Pooled_draw_clipped f g ctx st Hclipped Hw Hh) as Hdraw.
        cbv zeta in Hdraw. rewrite Hdraw. clear Hdraw.
        match goal with
        | |- context [CanvasProvider.getCanvas ?sz (provider st)] =>
            destruct (getCanvas_consistent sz (provider st) held Hcons)
              as [Hnew Hcons0];
            destruct (CanvasProvider.getCanvas sz (provider st)) as [canvas p1]
        end.
        cbn [fst snd] in *.
        match goal with
        | |- context [draw_each Pooled.draw always ?l ?c ?s] =>
            pose proof (draw_each_discipline true Pooled.draw always l
                          (clipItems_Forall _ g IHchildren IHcache)
                          c s _ Hcons0) as Hstencil;
            destruct (draw_each Pooled.draw always l c s) as [stencil st1]
        end.
        cbn [fst snd] in *.
        destruct Hstencil as (Hfresh1 & Hcons1 & Hbal1).
        rewrite (Hbal1 eq_refl) in Hcons1.
        match goal with
        | |- context [draw_each Pooled.draw ?k (_children g) ?c st1] =>
            pose proof (draw_each_discipline true Pooled.draw k (_children g)
                          IHchildren c st1 _ Hcons1) as Hregular;
            destruct (draw_each Pooled.draw k (_children g) c st1)
              as [regular st2]
        end.
        cbn [fst snd] in *.
        destruct Hregular as (Hfresh2 & Hcons2 & Hbal2).
        rewrite (Hbal2 eq_refl) in Hcons2.
        rewrite pool_ops_clipped by reflexivity.
        assert (Hlive : live_after
                          (pool_ops stencil ++ pool_ops regular
                             ++ [TakeBack (CanvasProvider.cid canvas)])
                          (CanvasProvider.cid canvas :: held) = held).
        { rewrite !live_after_app, (Hbal1 eq_refl), (Hbal2 eq_refl).
          simpl live_after. apply remove_head_fresh. exact Hnew. }
        cbn [handouts_fresh live_after]. rewrite Hlive.
        split.
        -- split; [exact Hnew|].
           apply handouts_fresh_app. split; [exact Hfresh1|].
           rewrite (Hbal1 eq_refl).
           apply handouts_fresh_app. split; [exact Hfresh2|].
           simpl. exact I.
        -- split; [|reflexivity].
           unfold set_provider. simpl provider.
           apply returnCanvas_consistent; assumption.
    + rewrite isClipped_fst in Hclipped.
      simpl Pooled.draw. unfold Pooled.Group_draw. rewrite Hclipped.
      apply draw_each_discipline; assumption.
Qed.

Lemma pool_ops_unreturned (setup1 setup2 : Event) (size : Size)
    (canvas : CanvasProvider.Canvas) (stencil regular : list Event)
    (op blit restore clear : Event) :
  pool_ops_of setup1 = [] -> pool_ops_of setup2 = [] ->
  pool_ops_of op = [] -> pool_ops_of blit = [] -> pool_ops_of restore = [] ->
  pool_ops_of clear = [] ->
  pool_ops ([GetCanvas size canvas; setup1; setup2]
              ++ stencil ++ [op] ++ regular ++ [blit; restore; clear])
  = HandOut (CanvasProvider.cid canvas) :: pool_ops stencil ++ pool_ops regular.
Proof.
  intros H1 H2 H3 H4 H5 H6. rewrite !pool_ops_app. unfold pool_ops at 1 3 5.
  simpl flat_map. rewrite H1, H2, H3, H4, H5, H6. simpl. rewrite app_nil_r.
  reflexivity.
Qed.

Lemma SingleContext_draw_discipline (it : Item) :
  pool_discipline false (SingleContext.draw it).
Proof.
  induction it as [f | f g IHchildren IHcache] using Item_induction;
    intros ctx st held Hcons.
  - simpl. split; [exact I|]. split; [exact Hcons|]. discriminate.
  - destruct (fst (isClipped g)) eqn:Hclipped.
    + pose proof (SingleContext_draw_clipped f g ctx st Hclipped) as Hdraw.
      cbv zeta in Hdraw. rewrite Hdraw. clear Hdraw.
      match goal with
      | |- context [CanvasProvider.getCanvas ?sz (provider st)] =>
          destruct (getCanvas_consistent sz (provider st) held Hcons)
            as [Hnew Hcons0];
          destruct (CanvasProvider.getCanvas sz (provider st)) as [canvas p1]
      end.
      cbn [fst snd] in *.
      match goal with
      | |- context [draw_each SingleContext.draw always ?l ?c ?s] =>
          pose proof (draw_each_discipline false SingleContext.draw always l
                        (clipItems_Forall _ g IHchildren IHcache)
                        c s _ Hcons0) as Hstencil;
          destruct (draw_each SingleContext.draw always l c s) as [stencil st1]
      end.
      cbn [fst snd] in *.
      destruct Hstencil as (Hfresh1 & Hcons1 & _).
      match goal with
      | |- context [draw_each SingleContext.draw ?k (_children g) ?c st1] =>
          pose proof (draw_each_discipline false SingleContext.draw k
                        (_children g) IHchildren c st1 _ Hcons1) as Hregular;
          destruct (draw_each SingleContext.draw k (_children g) c st1)
            as [regular st2]
      end.
      cbn [fst snd] in *.
      destruct Hregular as (Hfresh2 & Hcons2 & _).
      rewrite pool_ops_unreturned by reflexivity.
      cbn [handouts_fresh live_after]. rewrite live_after_app.
      split.
      * split; [exact Hnew|].
        apply handouts_fresh_app. split; assumption.
      * split; [exact Hcons2 | discriminate].
    + rewrite isClipped_fst in Hclipped.
      simpl SingleContext.draw. unfold SingleContext.Group_draw. rewrite Hclipped.
      apply draw_each_discipline; assumption.
Qed.

(** C1. Started with a provider whose book-keeping is right ([held] are
    the canvases out when the traversal begins), a draw traversal, with
    every nested draw of a clipped group inside it, is never handed a
    canvas that is out at that moment, and at every moment the canvases
    that are out are pairwise distinct.  This holds for the pooled
    [Group.draw], which has moreover returned every canvas it took by the
    time it ends, and for the earlier [Group.draw] as well: its [context]
    is a local of each call, so every clipped draw takes a canvas of its
    own from the provider (and never gives it back). *)
Theorem draw_never_reuses_live_canvas (it : Item) (ctx : Context2D)
    (st : DrawState) (held : list nat)
    (Hprovider : provider_consistent held (provider st)) :
  let pooled := pool_ops (fst (Pooled.draw it ctx st)) in
  let single := pool_ops (fst (SingleContext.draw it ctx st)) in
  (never_handed_out_while_live held pooled
   /\ live_always_distinct held pooled
   /\ live_after pooled held = held)
  /\ (never_handed_out_while_live held single
      /\ live_always_distinct held single).
Proof.
  intros pooled single.
  assert (Hheld : NoDup held) by apply Hprovider.
  destruct (Pooled_draw_discipline it ctx st held Hprovider) as (Hp & _ & Hbal).
  destruct (SingleContext_draw_discipline it ctx st held Hprovider) as (Hs & _ & _).
  split; [split; [|split]|split].
  - apply handouts_fresh_never_reissued. exact Hp.
  - apply handouts_fresh_live_distinct; assumption.
  - apply Hbal. reflexivity.
  - apply handouts_fresh_never_reissued. exact Hs.
  - apply handouts_fresh_live_distinct; assumption.
Qed.

(** A clipped group inside a clipped group: the inner draw takes a second
    canvas while the outer one is still out. *)
Example nested_draw_pool_ops :
  pool_ops (fst (Pooled.draw Fixtures.nested_group Screen Fixtures.fresh_state))
  = [HandOut 0; HandOut 1; TakeBack 1; TakeBack 0]
  /\ pool_ops (fst (SingleContext.draw Fixtures.nested_group Screen
                      Fixtures.fresh_state))
     = [HandOut 0; HandOut 1].
Proof. split; reflexivity. Qed.

Lemma draw_never_reuses_live_canvas_witness :
  provider_consistent [] (provider Fixtures.fresh_state)
  /\ live_always_distinct []
       (pool_ops (fst (Pooled.draw Fixtures.nested_group Screen
                         Fixtures.fresh_state)))
  /\ never_handed_out_while_live []
       (pool_ops (fst (Pooled.draw Fixtures.nested_group Screen
                         Fixtures.fresh_state))).
Proof.
  split; [exact provider_consistent_empty|].
  destruct (draw_never_reuses_live_canvas Fixtures.nested_group Screen
              Fixtures.fresh_state [] provider_consistent_empty)
    as [[Hnever [Hdistinct _]] _].
  split; assumption.
Defined.

(** ** Base.equals *)

Lemma Value_induction (P : Base.Value -> Prop) :
  P Base.Undefined -> P Base.Null ->
  (forall b, P (Base.Boolean b)) ->
  (forall n, P (Base.Number n)) ->
  (forall s, P (Base.Str s)) ->
  (forall r elems, Forall P elems -> P (Base.Array r elems)) ->
  (forall r m props, Forall (fun kv => P (snd kv)) props -> P (Base.Object r m props)) ->
  forall v, P v.
Proof.
  intros HU HN HB HNum HS HA HO.
  fix IH 1.
  intros [| |b|n|s|r elems|r m props];
    [exact HU | exact HN | apply HB | apply HNum | apply HS | | ].
  - apply HA. induction elems as [|e rest IHrest]; constructor; [apply IH | exact IHrest].
  - apply HO. induction props as [|[k v] rest IHrest]; constructor; [apply IH | exact IHrest].
Qed.

Section EqualsProperties.

Variable coerced_eq : Base.Value -> Base.Value -> bool.
Variable call_equals : nat -> Base.Value -> Base.Value -> Base.Outcome.

#[local] Abbreviation equals := (Base.equals coerced_eq call_equals).

(** Two different arrays of the same non-zero length: the loop's first
    step calls [Base.equals] on the two arrays themselves, so no depth of
    nesting is enough for a result. *)
Lemma equals_distinct_arrays (r1 r2 : nat) (elems1 elems2 : list Base.Value) :
  r1 <> r2 ->
  elems1 <> [] ->
  length elems1 = length elems2 ->
  forall fuel,
    equals fuel (Base.Array r1 elems1) (Base.Array r2 elems2) = Base.OutOfFuel.
Proof.
  intros Hrefs Hnonempty Hlen fuel.
  induction fuel as [|fuel IH]; [reflexivity|].
  simpl.
  destruct (Nat.eqb_spec r1 r2) as [E | _]; [contradiction|].
  rewrite <- Hlen, Nat.eqb_refl. simpl.
  destruct elems1 as [|v elems1]; [contradiction|].
  simpl. rewrite IH. reflexivity.
Qed.

(** Arrays of different lengths do get an answer, and so does a value
    compared with itself. *)
Lemma equals_arrays_of_different_length (r1 r2 : nat)
    (elems1 elems2 : list Base.Value) (fuel : nat) :
  r1 <> r2 ->
  length elems1 <> length elems2 ->
  equals (S fuel) (Base.Array r1 elems1) (Base.Array r2 elems2)
  = Base.Returns (Base.Boolean false).
Proof.
  intros Hrefs Hlen. simpl.
  destruct (Nat.eqb_spec r1 r2) as [E | _]; [contradiction|].
  destruct (Nat.eqb_spec (length elems1) (length elems2)) as [E | _];
    [contradiction|].
  reflexivity.
Qed.

Lemma equals_same_reference (v : Base.Value) (fuel : nat) :
  match v with Base.Array _ _ | Base.Object _ _ _ => True | _ => False end ->
  equals (S fuel) v v = Base.Returns (Base.Boolean true).
Proof.
  destruct v; simpl; try contradiction; intros _;
    rewrite Nat.eqb_refl; reflexivity.
Qed.

(** *** Values without arrays

    Provided the [equals] members that get called return or throw, a
    comparison whose left operand contains no array comes to an end
    within a depth of nesting given by the operand. *)

Section WithoutArrays.

Hypothesis call_equals_returns :
  forall m this arg, call_equals m this arg <> Base.OutOfFuel.

Lemma lookup_in (s : string) (props : list (string * Base.Value)) :
  Base.lookup s props = Base.Undefined \/ In (Base.lookup s props) (map snd props).
Proof.
  induction props as [|[k v] rest IH]; simpl; [left; reflexivity|].
  destruct (String.eqb k s); [right; left; reflexivity|].
  destruct IH as [IH | IH]; [left | right; right]; exact IH.
Qed.

Lemma depth_prop (r : nat) (m : option nat) (props : list (string * Base.Value)) (v : Base.Value) :
  In v (map snd props) -> (Base.depth v < Base.depth (Base.Object r m props))%nat.
Proof.
  simpl. induction props as [|[k v'] rest IH]; simpl; [contradiction|].
  intros [<- | Hin]; [lia|]. specialize (IH Hin). lia.
Qed.

Lemma array_free_prop (r : nat) (m : option nat) (props : list (string * Base.Value)) (v : Base.Value) :
  Base.array_free (Base.Object r m props) = true ->
  In v (map snd props) -> Base.array_free v = true.
Proof.
  simpl. induction props as [|[k v'] rest IH]; simpl; [contradiction|].
  intros Hall [<- | Hin]; apply andb_true_iff in Hall; destruct Hall as [Hv Hrest];
    [exact Hv | apply IH; assumption].
Qed.

Lemma every_truthy_returns {K : Type} (call : K -> Base.Outcome) (todo : list K) :
  Forall (fun i => call i <> Base.OutOfFuel) todo ->
  Base.every_truthy call todo <> Base.OutOfFuel.
Proof.
  induction 1 as [|i rest Hi _ IH]; simpl; [discriminate|].
  destruct (call i) as [r| |]; [|discriminate|contradiction].
  destruct (Base.truthy r); [exact IH | discriminate].
Qed.

Lemma equals_primitive (v1 v2 : Base.Value) (fuel : nat) :
  match v1 with Base.Array _ _ | Base.Object _ _ _ => False | _ => True end ->
  equals (S fuel) v1 v2 <> Base.OutOfFuel.
Proof.
  destruct v1; try contradiction; intros _;
    cbn [Base.equals Base.is_nullish Base.equals_member];
    (destruct (Base.loose_eq _ _); [discriminate|]);
    (destruct (if Base.is_nullish v2 then None else Base.equals_member v2) as [m|];
       [apply call_equals_returns|]);
    destruct v2; simpl; try discriminate.
  all: destruct (Base.checkKeys _ Base.Null) as [[|]|]; discriminate.
Qed.

(** With no array in the left operand, any bound above its depth lets the
    comparison finish. *)
Lemma equals_without_arrays (v1 : Base.Value) :
  Base.array_free v1 = true ->
  forall v2 fuel, (Base.depth v1 < fuel)%nat -> equals fuel v1 v2 <> Base.OutOfFuel.
Proof.
  induction v1 as [| |b|n|s|r elems _|r m props IHprops] using Value_induction;
    intros Hfree v2 fuel Hfuel;
    (destruct fuel as [|fuel]; [lia|]);
    try discriminate Hfree;
    try (apply equals_primitive; exact I).
  cbn [Base.equals Base.is_nullish Base.equals_member].
  destruct (Base.loose_eq _ _); [discriminate|].
  destruct m as [m|]; [apply call_equals_returns|].
  destruct (if Base.is_nullish v2 then None else Base.equals_member v2) as [m|];
    [apply call_equals_returns|].
  assert (Hloop :
    Base.every_truthy
      (fun i => match Base.get (Base.Object r None props) i, Base.get v2 i with
                | Some a, Some b => equals fuel a b
                | _, _ => Base.Throws
                end)
      (Base.own_keys (Base.Object r None props)) <> Base.OutOfFuel).
  { apply every_truthy_returns. apply Forall_forall. intros i _.
    assert (Hget : exists a, Base.get (Base.Object r None props) i = Some a
                   /\ (a = Base.Undefined \/ In a (map snd props))).
    { destruct i as [i|k]; simpl.
      - exists Base.Undefined. split; [reflexivity | left; reflexivity].
      - exists (Base.lookup k props). split; [reflexivity | apply lookup_in]. }
    destruct Hget as (a & -> & Ha).
    destruct (Base.get v2 i) as [b|]; [|discriminate].
    destruct Ha as [-> | Hin].
    - destruct fuel as [|fuel]; [simpl in Hfuel; lia|].
      apply equals_primitive. exact I.
    - rewrite Forall_forall in IHprops.
      apply in_map_iff in Hin. destruct Hin as ([k a'] & <- & Hin).
      apply (IHprops _ Hin).
      + apply (array_free_prop r None props); [exact Hfree|].
        apply in_map_iff. exists (k, a'). split; [reflexivity | exact Hin].
      + pose proof (depth_prop r None props a') as Hd.
        assert (In a' (map snd props))
          by (apply in_map_iff; exists (k, a'); split; [reflexivity | exact Hin]).
        specialize (Hd H). simpl snd. lia. }
  destruct v2;
    cbn [Base.typeof_object andb];
    try discriminate;
    (destruct (Base.checkKeys (Base.Object r None props) _) as [[|]|];
       try discriminate;
     destruct (Base.checkKeys _ (Base.Object r None props)) as [[|]|];
       try discriminate;
     exact Hloop).
Qed.
End WithoutArrays.

End EqualsProperties.

(** C9 fails on the code.  [Base.equals([1], [2])] never returns: whatever
    bound is put on the depth of nested calls, the call has not produced a
    value or an exception within it.  The same holds for two distinct
    arrays with equal content, [Base.equals([1], [1])]. *)
Theorem equals_of_distinct_arrays_never_returns
    (coerced_eq : Base.Value -> Base.Value -> bool)
    (call_equals : nat -> Base.Value -> Base.Value -> Base.Outcome)
    (fuel : nat) :
  Base.equals coerced_eq call_equals fuel
    (Base.Array 1 [Base.Number 1]) (Base.Array 2 [Base.Number 2])
  = Base.OutOfFuel
  /\ Base.equals coerced_eq call_equals fuel
       (Base.Array 1 [Base.Number 1]) (Base.Array 2 [Base.Number 1])
     = Base.OutOfFuel.
Proof.
  split; apply equals_distinct_arrays; simpl; congruence.
Qed.

(** A plain object against [null]: [checkKeys] reads a property of
    [null]. *)
Example equals_object_null_throws :
  Base.equals (fun _ _ => false) (fun _ _ _ => Base.Throws) 3
    (Base.Object 1 None [("a"%string, Base.Number 1)]) Base.Null
  = Base.Throws.
Proof. reflexivity. Qed.

(** Nested plain objects without [equals] members are compared. *)
Example equals_nested_plain_objects :
  let inner (r : nat) (n : Z) := Base.Object r None [("b"%string, Base.Number n)] in
  let outer (r : nat) (i : Base.Value) := Base.Object r None [("a"%string, i)] in
  Base.equals (fun _ _ => false) (fun _ _ _ => Base.Throws) 3
    (outer 1%nat (inner 2%nat 7%Z)) (outer 3%nat (inner 4%nat 7%Z))
  = Base.Returns (Base.Boolean true)
  /\ Base.equals (fun _ _ => false) (fun _ _ _ => Base.Throws) 3
       (outer 1%nat (inner 2%nat 7%Z)) (outer 3%nat (inner 4%nat 8%Z))
     = Base.Returns (Base.Boolean false)
  /\ Base.equals (fun _ _ => false) (fun _ _ _ => Base.Throws) 3
       (Base.Array 1 []) (Base.Array 2 [])
     = Base.Returns (Base.Boolean true).
Proof. repeat split. Qed.

(** ** Base.splice *)

Section SpliceProperties.

Context {A : Type} `{Base.Indexed A}.

Lemma number_from_length (l : list A) :
  forall k, length (Base.number_from k l) = length l.
Proof.
  induction l as [|a l IH]; intros k; simpl; [reflexivity|].
  rewrite IH. reflexivity.
Qed.

Lemma number_from_indexed (l : list A) :
  forall k, Base.indexed_from k (Base.number_from k l).
Proof.
  induction l as [|a l IH]; intros k i b Hnth.
  - destruct i; discriminate.
  - destruct i as [|i]; simpl in Hnth.
    + injection Hnth as <-. rewrite Base.index_of_with_index.
      f_equal. lia.
    + rewrite (IH (k + 1)%Z i b Hnth). f_equal. lia.
Qed.

Lemma indexed_from_app (k : Z) (l1 l2 : list A) :
  Base.indexed_from k l1 ->
  Base.indexed_from (k + Z.of_nat (length l1)) l2 ->
  Base.indexed_from k (l1 ++ l2).
Proof.
  intros H1 H2 i a Hnth.
  destruct (Nat.lt_ge_cases i (length l1)) as [Hlt | Hge].
  - rewrite nth_error_app1 in Hnth by exact Hlt. apply H1. exact Hnth.
  - rewrite nth_error_app2 in Hnth by exact Hge.
    rewrite (H2 _ _ Hnth). f_equal. lia.
Qed.

Lemma nth_error_firstn_Some (l : list A) :
  forall n i a, nth_error (firstn n l) i = Some a -> nth_error l i = Some a.
Proof.
  induction l as [|b l IH]; intros n i a Hnth.
  - rewrite firstn_nil in Hnth. destruct i; discriminate.
  - destruct n as [|n]; [destruct i; discriminate|].
    destruct i as [|i]; simpl in *; [exact Hnth|].
    apply (IH n). exact Hnth.
Qed.

Lemma indexed_from_firstn (k : Z) (n : nat) (l : list A) :
  Base.indexed_from k l -> Base.indexed_from k (firstn n l).
Proof.
  intros Hl i a Hnth. apply Hl. apply (nth_error_firstn_Some l n). exact Hnth.
Qed.

Lemma adjust_from_boundary (pre tail : list A) :
  Base.adjust_from (Z.of_nat (length pre)) (pre ++ tail)
  = Some (pre ++ Base.number_from (Z.of_nat (length pre)) tail).
Proof.
  unfold Base.adjust_from. rewrite length_app.
  destruct (Z.ltb_spec (Z.of_nat (length pre))
              (Z.of_nat (length pre + length tail))) as [Hlt | Hge].
  - destruct (Z.ltb_spec (Z.of_nat (length pre)) 0) as [Hneg | _]; [lia|].
    rewrite Nat2Z.id.
    rewrite firstn_app, Nat.sub_diag, firstn_all, firstn_O, app_nil_r.
    rewrite skipn_app, Nat.sub_diag, skipn_all. reflexivity.
  - destruct tail as [|b tail]; [reflexivity|]. simpl in Hge. lia.
Qed.

Lemma removed_have_no_index (removed : list A) :
  Forall (fun a => Base.index_of a = None) (map (Base.with_index None) removed).
Proof.
  apply Forall_forall. intros a Hin. apply in_map_iff in Hin.
  destruct Hin as (b & <- & _). apply Base.index_of_with_index.
Qed.

(** Within range, [Base.splice] does keep the index of every entry equal
    to its position, and the entries it removes lose theirs. *)
Lemma splice_in_range (lst : list A) (items : Base.ItemsArg A)
    (index : option Z) (remove : Z) :
  Base.well_indexed lst ->
  items <> Base.ItemsUndefined ->
  match index with
  | Some i => (0 <= i <= Z.of_nat (length lst))%Z
  | None => True
  end ->
  exists list' removed,
    Base.splice lst items index remove = Some (list', removed)
    /\ Base.well_indexed list'
    /\ Forall (fun a => Base.index_of a = None) removed.
Proof.
  intros Hwell Hitems Hrange.
  destruct index as [i|]; cbv iota in Hrange.
  - set (ins := match items with
                | Base.ItemsArray l => l
                | _ => []
                end).
    assert (Hspl :
      Base.splice lst items (Some i) remove =
        option_map
          (fun l' => (l', map (Base.with_index None)
                            (snd (Base.Array_splice lst i remove
                                    (Base.number_from i ins)))))
          (Base.adjust_from (i + Z.of_nat (length ins))
             (fst (Base.Array_splice lst i remove (Base.number_from i ins))))).
    { unfold Base.splice, ins.
      destruct items as [| |l]; [contradiction| |]; simpl Base.number_from.
      - destruct (Base.Array_splice lst i remove []) as [list1 removed].
        simpl. rewrite Z.add_0_r. reflexivity.
      - destruct (Base.Array_splice lst i remove (Base.number_from i l))
          as [list1 removed].
        reflexivity. }
    rewrite Hspl. unfold Base.Array_splice. simpl fst. simpl snd.
    destruct (Z.ltb_spec i 0) as [Hneg | _]; [lia|].
    rewrite (Z.min_l i (Z.of_nat (length lst))) by lia.
    set (s := Z.to_nat i).
    set (d := Z.to_nat (Z.min (Z.max remove 0) (Z.of_nat (length lst) - i))).
    assert (Hs : length (firstn s lst) = s)
      by (apply firstn_length_le; unfold s; lia).
    assert (Hpre : (i + Z.of_nat (length ins))%Z
                   = Z.of_nat (length (firstn s lst ++ Base.number_from i ins))).
    { rewrite length_app, number_from_length, Hs. unfold s. lia. }
    rewrite app_assoc, Hpre, adjust_from_boundary. simpl option_map.
    eexists _, _. split; [reflexivity|]. split.
    + unfold Base.well_indexed.
      apply indexed_from_app.
      * apply indexed_from_app.
        -- apply indexed_from_firstn. exact Hwell.
        -- rewrite Hs. replace (0 + Z.of_nat s)%Z with i by (unfold s; lia).
           apply number_from_indexed.
      * simpl. apply number_from_indexed.
    + apply removed_have_no_index.
  - unfold Base.splice.
    eexists _, _. split; [reflexivity|]. split; [|constructor].
    apply indexed_from_app; [exact Hwell|].
    destruct items as [| |l]; simpl.
    + intros j a Hnth. destruct j; discriminate.
    + intros j a Hnth. destruct j; discriminate.
    + apply number_from_indexed.
Qed.

End SpliceProperties.

(** C10 fails on the code.  With an [index] beyond the end of the list,
    [Array.prototype.splice] puts the new entry at the end while
    [Base.splice] has numbered it with the [index] it was given: the list
    [a] (with [a._index = 0]) after [Base.splice(list, [b], 5, 0)] is
    [a, b] with [b._index = 5]. *)
Theorem splice_beyond_end_breaks_indices :
  let a := Fixtures.shape 1 0 false in
  let b := Fixtures.shape 2 0 false in
  Base.well_indexed [a]
  /\ Base.splice [a] (Base.ItemsArray [b]) (Some 5%Z) 0
     = Some ([a; Base.with_index (Some 5%Z) b], [])
  /\ Base.index_of (Base.with_index (Some 5%Z) b) = Some 5%Z
  /\ ~ Base.well_indexed [a; Base.with_index (Some 5%Z) b].
Proof.
  intros a b. split; [|split; [|split]].
  - intros i c Hnth. destruct i as [|i]; simpl in Hnth.
    + injection Hnth as <-. reflexivity.
    + destruct i; discriminate.
  - reflexivity.
  - reflexivity.
  - intros Hwell. specialize (Hwell 1%nat _ eq_refl). discriminate Hwell.
Qed.

(** In range the same insertion is numbered correctly. *)
Example splice_at_end_numbers_entry :
  Base.splice [Fixtures.shape 1 0 false]
    (Base.ItemsArray [Fixtures.shape 2 0 false]) (Some 1%Z) 0
  = Some ([Fixtures.shape 1 0 false; Fixtures.shape 2 1 false], []).
Proof. reflexivity. Qed.

(* ===================================================================== *)
(** * Part III. Further properties of the code                             *)
(* ===================================================================== *)

(** ** More on the clip-item cache *)

Lemma existsb_filter_empty {A} (p : A -> bool) (l : list A) :
  negb (length (filter p l) =? 0)%nat = existsb p l.
Proof.
  induction l as [|a l IH]; simpl; [reflexivity|].
  destruct (p a); simpl; [reflexivity | exact IH].
Qed.

(** X1. With the cache absent or up to date, [isClipped()] answers true
    exactly when some direct child has [_clipMask] set. *)
Theorem isClipped_iff_some_child_masks (g : GroupFields Item)
    (Hcache : cache_consistent g) :
  fst (isClipped g) = existsb child_clipMask (_children g).
Proof.
  rewrite isClipped_fst, (getClipItems_consistent g Hcache).
  apply existsb_filter_empty.
Qed.

Lemma isClipped_iff_some_child_masks_witness :
  cache_consistent
    (Fixtures.group_fields [Fixtures.content; Fixtures.mask]
       (Some [Fixtures.mask]) (Fixtures.rect 0 0 1 1))
  /\ fst (isClipped
            (Fixtures.group_fields [Fixtures.content; Fixtures.mask]
               (Some [Fixtures.mask]) (Fixtures.rect 0 0 1 1))) = true.
Proof.
  assert (H : cache_consistent
                (Fixtures.group_fields [Fixtures.content; Fixtures.mask]
                   (Some [Fixtures.mask]) (Fixtures.rect 0 0 1 1)))
    by reflexivity.
  split; [exact H|].
  rewrite (isClipped_iff_some_child_masks _ H). reflexivity.
Defined.

(** X2. A group for which [isEmpty()] holds has no clip items and is not
    clipped, provided its cache is absent or up to date. *)
Theorem empty_group_is_not_clipped (g : GroupFields Item)
    (Hempty : isEmpty g = true) (Hcache : cache_consistent g) :
  fst (_getClipItems g) = [] /\ fst (isClipped g) = false.
Proof.
  assert (Hnil : _children g = []).
  { unfold isEmpty in Hempty. destruct (_children g); [reflexivity | discriminate]. }
  rewrite isClipped_fst, (getClipItems_consistent g Hcache), Hnil.
  split; reflexivity.
Qed.

Lemma empty_group_is_not_clipped_witness :
  isEmpty (Fixtures.group_fields [] None (Fixtures.rect 0 0 1 1)) = true
  /\ fst (isClipped (Fixtures.group_fields [] None (Fixtures.rect 0 0 1 1))) = false.
Proof.
  split; [reflexivity|].
  apply (empty_group_is_not_clipped
           (Fixtures.group_fields [] None (Fixtures.rect 0 0 1 1)));
    reflexivity.
Defined.

(** X3. A notification that carries neither HIERARCHY nor CLIPPING
    leaves the [Group] part of the node as it is: the children, the
    cached clip items and the compositing settings are untouched. *)
Theorem changed_without_hierarchy_or_clipping (cf : ChangeFlagTable)
    (flags : Z) (n : GroupNode)
    (Hh : Z.land flags (HIERARCHY cf) = 0%Z)
    (Hc : Z.land flags (CLIPPING cf) = 0%Z) :
  group (_changed cf flags n) = group n.
Proof.
  apply changed_not_carried; assumption.
Qed.

Lemma changed_without_hierarchy_or_clipping_witness :
  let n := {| base := Fixtures.item_fields 0 0 false;
              group := Fixtures.group_fields [Fixtures.mask]
                         (Some [Fixtures.mask]) (Fixtures.rect 0 0 1 1) |} in
  _clipItems (group (_changed Fixtures.flags 4 n)) = Some [Fixtures.mask].
Proof.
  intros n.
  rewrite (changed_without_hierarchy_or_clipping Fixtures.flags 4 n);
    reflexivity.
Defined.

Lemma changed_keeps_consistency (cf : ChangeFlagTable) (flags : Z) (n : GroupNode) :
  cache_consistent (group n) -> cache_consistent (group (_changed cf flags n)).
Proof.
  intros Hc. unfold _changed.
  destruct (bitand flags (bitor (HIERARCHY cf) (CLIPPING cf)) =? 0)%Z; simpl.
  - exact Hc.
  - exact I.
Qed.

Lemma isClipped_snd (g : GroupFields Item) :
  snd (isClipped g) = snd (_getClipItems g).
Proof.
  unfold isClipped. destruct (_getClipItems g). reflexivity.
Qed.

Lemma getClipItems_children (g : GroupFields Item) :
  _children (snd (_getClipItems g)) = _children g.
Proof.
  unfold _getClipItems. destruct (_clipItems g); reflexivity.
Qed.

Lemma apply_op_keeps (cf : ChangeFlagTable) (op : GroupOp) (n : GroupNode) :
  cache_consistent (group n) ->
  cache_consistent (group (apply_op cf op n))
  /\ _children (group (apply_op cf op n)) = _children (group n).
Proof.
  intros Hc. destruct op as [| |flags]; simpl.
  - split; [apply getClipItems_establishes; exact Hc | apply getClipItems_children].
  - rewrite isClipped_snd.
    split; [apply getClipItems_establishes; exact Hc | apply getClipItems_children].
  - split; [apply changed_keeps_consistency; exact Hc | apply changed_children].
Qed.

(** X4. Whatever sequence of [_getClipItems()] reads, [isClipped()] reads
    and change notifications a group goes through, a cache that was
    absent or up to date stays so, the children list is not touched, and
    a read at the end returns the clip-mask children of that list. *)
Theorem reads_and_notifications_keep_cache (cf : ChangeFlagTable)
    (ops : list GroupOp) (n : GroupNode)
    (Hcache : cache_consistent (group n)) :
  let n' := run_ops cf ops n in
  cache_consistent (group n')
  /\ _children (group n') = _children (group n)
  /\ fst (_getClipItems (group n')) = filter child_clipMask (_children (group n)).
Proof.
  cbv zeta. unfold run_ops.
  revert n Hcache. induction ops as [|op ops IH]; intros n Hcache; simpl.
  - split; [exact Hcache|]. split; [reflexivity|].
    apply getClipItems_consistent. exact Hcache.
  - destruct (apply_op_keeps cf op n Hcache) as [Hc Hch].
    destruct (IH _ Hc) as (H1 & H2 & H3).
    split; [exact H1|]. split; [rewrite H2; exact Hch|].
    rewrite H3, Hch. reflexivity.
Qed.

Lemma reads_and_notifications_keep_cache_witness :
  let n := {| base := Fixtures.item_fields 0 0 false;
              group := Fixtures.group_fields [Fixtures.mask; Fixtures.content]
                         None (Fixtures.rect 0 0 1 1) |} in
  fst (_getClipItems
         (group (run_ops Fixtures.flags
                   [ReadIsClipped; Notify 4; ReadClipItems; Notify 2] n)))
  = [Fixtures.mask].
Proof.
  intros n.
  destruct (reads_and_notifications_keep_cache Fixtures.flags
              [ReadIsClipped; Notify 4; ReadClipItems; Notify 2] n I)
    as (_ & _ & H).
  rewrite H. reflexivity.
Defined.


(** ** More on Group.draw *)

Lemma filter_none_masked {A} (p : A -> bool) (l : list A) :
  existsb p l = false -> filter (fun a => negb (p a)) l = l.
Proof.
  induction l as [|a l IH]; simpl; [reflexivity|].
  intros H. apply orb_false_iff in H. destruct H as [Ha Hl].
  rewrite Ha. simpl. rewrite (IH Hl). reflexivity.
Qed.

Lemma draw_each_only_calls (draw : Drawer) (keep : Item -> bool) (l : list Item)
    (ctx : Context2D) :
  forall st, Forall is_ItemDraw (fst (draw_each draw keep l ctx st)).
Proof.
  induction l as [|item rest IH]; intros st; simpl; [constructor|].
  destruct (keep item); [|apply IH].
  destruct (draw item ctx st) as [body st1].
  specialize (IH st1).
  destruct (draw_each draw keep rest ctx st1) as [more st2].
  simpl in *. constructor; [exact I | exact IH].
Qed.

Lemma Pooled_draw_not_clipped (f : ItemFields) (g : GroupFields Item)
    (ctx : Context2D) (st : DrawState) :
  fst (isClipped g) = false ->
  Pooled.draw (Group f g) ctx st
  = draw_each Pooled.draw (fun item => negb (_clipMask (fields item)))
      (_children g) ctx st.
Proof.
  intros Hnot. rewrite isClipped_fst in Hnot.
  simpl. unfold Pooled.Group_draw. rewrite Hnot. reflexivity.
Qed.

Lemma SingleContext_draw_not_clipped (f : ItemFields) (g : GroupFields Item)
    (ctx : Context2D) (st : DrawState) :
  fst (isClipped g) = false ->
  SingleContext.draw (Group f g) ctx st
  = draw_each SingleContext.draw (fun item => falsy (_clipMark (fields item)))
      (_children g) ctx st.
Proof.
  intros Hnot. rewrite isClipped_fst in Hnot.
  simpl. unfold SingleContext.Group_draw. rewrite Hnot. reflexivity.
Qed.

(** X5. A group that is not clipped draws straight onto the context it
    was given: its trace consists of one [Item.draw] call per child, in
    children-list order, each onto that context, and of nothing else (no
    canvas is taken, nothing is saved, translated or composited by the
    group itself). *)
Theorem Pooled_draw_unclipped (f : ItemFields) (g : GroupFields Item)
    (ctx : Context2D) (st : DrawState)
    (Hnot : fst (isClipped g) = false)
    (Hcache : cache_consistent g) :
  Forall is_ItemDraw (fst (Pooled.draw (Group f g) ctx st))
  /\ item_draws (fst (Pooled.draw (Group f g) ctx st))
     = map (fun item => (_id (fields item), ctx)) (_children g).
Proof.
  rewrite (Pooled_draw_not_clipped f g ctx st Hnot).
  split; [apply draw_each_only_calls|].
  rewrite item_draws_draw_each_keep. f_equal.
  apply (filter_none_masked child_clipMask).
  rewrite <- Hnot. symmetry. rewrite isClipped_fst, (getClipItems_consistent g Hcache). apply existsb_filter_empty.
Qed.

Lemma Pooled_draw_unclipped_witness :
  let g := Fixtures.group_fields [Fixtures.content; Fixtures.shape 3 1 false]
             None (Fixtures.rect 0 0 5 5) in
  fst (Pooled.draw (Group (Fixtures.item_fields 0 0 false) g) Screen
         Fixtures.fresh_state)
  = [ItemDraw 2 Screen [Paint 2 Screen]; ItemDraw 3 Screen [Paint 3 Screen]]
  /\ item_draws
       (fst (Pooled.draw (Group (Fixtures.item_fields 0 0 false) g) Screen
               Fixtures.fresh_state))
     = [(2%nat, Screen); (3%nat, Screen)].
Proof.
  intros g. split; [reflexivity|].
  destruct (Pooled_draw_unclipped (Fixtures.item_fields 0 0 false) g Screen
              Fixtures.fresh_state eq_refl I) as [_ H].
  rewrite H. reflexivity.
Defined.

(** *** Canvases taken and returned *)

Lemma well_nested_app (ops1 ops2 : list PoolOp) :
  well_nested ops1 -> well_nested ops2 -> well_nested (ops1 ++ ops2).
Proof.
  intros H1 H2. induction H1 as [|c inner rest Hinner _ Hrest IH].
  - exact H2.
  - simpl. rewrite <- app_assoc. simpl.
    apply well_nested_pair; assumption.
Qed.

Lemma draw_each_well_nested (draw : Drawer) (keep : Item -> bool) (l : list Item) :
  Forall (fun item => forall ctx st,
            well_nested (pool_ops (fst (draw item ctx st)))) l ->
  forall ctx st, well_nested (pool_ops (fst (draw_each draw keep l ctx st))).
Proof.
  induction 1 as [|item rest Hitem _ IH]; intros ctx st; simpl.
  - constructor.
  - destruct (keep item); [|apply IH].
    specialize (Hitem ctx st).
    destruct (draw item ctx st) as [body st1].
    specialize (IH ctx st1).
    destruct (draw_each draw keep rest ctx st1) as [more st2].
    cbn [fst] in *. rewrite pool_ops_cons_ItemDraw.
    apply well_nested_app; assumption.
Qed.

(** The requests made by a pooled draw in which every draw call returns
    pair up like brackets. *)
Lemma Pooled_draw_well_nested (it : Item) (ctx : Context2D)
    (st : DrawState) :
  well_nested (pool_ops (fst (Pooled.draw it ctx st))).
Proof.
  revert ctx st.
  induction it as [f | f g IHchildren IHcache] using Item_induction;
    intros ctx st.
  - simpl. constructor.
  - destruct (fst (isClipped g)) eqn:Hclipped.
    + destruct (is_zero (width (getStrokeBounds g))
                || is_zero (height (getStrokeBounds g))) eqn:Hzero.
      * rewrite (Pooled_draw_zero_area f g ctx st Hclipped Hzero). constructor.
      * apply orb_false_iff in Hzero. destruct Hzero as [Hw Hh].
        apply is_zero_false in Hw. apply is_zero_false in Hh.
        pose proof (Pooled_draw_clipped f g ctx st Hclipped Hw Hh) as Hdraw.
        cbv zeta in Hdraw. rewrite Hdraw. clear Hdraw. cbn [fst].
        rewrite pool_ops_clipped by reflexivity.
        rewrite app_assoc.
        apply well_nested_pair; [|constructor].
        apply well_nested_app.
        -- apply draw_each_well_nested.
           apply clipItems_Forall; assumption.
        -- apply draw_each_well_nested. exact IHchildren.
    + rewrite (Pooled_draw_not_clipped f g ctx st Hclipped).
      apply draw_each_well_nested. exact IHchildren.
Qed.

(** *** When a draw call throws *)

Lemma taken_app (a b : list PoolOp) : taken (a ++ b) = (taken a + taken b)%nat.
Proof. induction a as [|[c|c] r IH]; simpl; lia. Qed.

Lemma returned_app (a b : list PoolOp) :
  returned (a ++ b) = (returned a + returned b)%nat.
Proof. induction a as [|[c|c] r IH]; simpl; lia. Qed.

Lemma well_nested_counts (ops : list PoolOp) :
  well_nested ops -> returned ops = taken ops.
Proof.
  induction 1 as [|c inner rest _ IH1 _ IH2]; [reflexivity|].
  simpl. rewrite taken_app, returned_app. simpl. lia.
Qed.

Lemma draw_each_throwing_spec (throws : ItemFields -> bool)
    (keep : Item -> bool) (l : list Item) :
  Forall (fun item => forall ctx st,
            returns_or_leaks (PooledThrowing.draw throws item ctx st)
              (Pooled.draw item ctx st)) l ->
  forall ctx st,
    returns_or_leaks
      (draw_each_throwing (PooledThrowing.draw throws) keep l ctx st)
      (draw_each Pooled.draw keep l ctx st).
Proof.
  induction 1 as [|item rest Hitem _ IH]; intros ctx st; simpl.
  - reflexivity.
  - destruct (keep item); [|apply IH].
    specialize (Hitem ctx st).
    destruct (PooledThrowing.draw throws item ctx st) as [[body st1] [|]];
      cbn [returns_or_leaks] in Hitem.
    + rewrite <- Hitem. specialize (IH ctx st1).
      pose proof (Pooled_draw_well_nested item ctx st) as Hnested.
      rewrite <- Hitem in Hnested. cbn [fst] in Hnested.
      destruct (draw_each_throwing _ keep rest ctx st1) as [[more st2] [|]];
        cbn [returns_or_leaks] in IH |- *.
      * rewrite <- IH. reflexivity.
      * rewrite pool_ops_cons_ItemDraw, taken_app, returned_app.
        rewrite (well_nested_counts _ Hnested). lia.
    + cbn [returns_or_leaks] in *.
      rewrite pool_ops_cons_ItemDraw, taken_app, returned_app.
      change (pool_ops []) with (@nil PoolOp). simpl. lia.
Qed.

Lemma draw_clipItems_throwing_eq (draw : ThrowingDrawer) (g : GroupFields Item)
    (ctx : Context2D) (st : DrawState) :
  draw_clipItems_throwing draw g ctx st
  = draw_each_throwing draw always (fst (_getClipItems g)) ctx st.
Proof.
  unfold draw_clipItems_throwing, _getClipItems.
  destruct (_clipItems g) as [cached|]; simpl; [reflexivity|].
  generalize (_children g). intros l. revert st.
  induction l as [|item rest IH]; intros st; simpl; [reflexivity|].
  destruct (child_clipMask item); simpl.
  - destruct (draw item ctx st) as [[body st1] [|]]; [|reflexivity].
    rewrite IH. reflexivity.
  - apply IH.
Qed.

Lemma pool_ops_setup (size : Size) (canvas : CanvasProvider.Canvas)
    (e1 e2 e3 : Event) (rest : list Event) :
  pool_ops_of e1 = [] -> pool_ops_of e2 = [] -> pool_ops_of e3 = [] ->
  pool_ops ([GetCanvas size canvas; e1; e2; e3] ++ rest)
  = HandOut (CanvasProvider.cid canvas) :: pool_ops rest.
Proof.
  intros H1 H2 H3. rewrite pool_ops_app. unfold pool_ops at 1.
  simpl flat_map. rewrite H1, H2, H3. reflexivity.
Qed.

(** A clipped group whose draw is left by an exception has taken a canvas
    it does not return. *)
Lemma Group_draw_thrown (throws : ItemFields -> bool) (f : ItemFields)
    (g : GroupFields Item) (ctx : Context2D) (st : DrawState) :
  Forall (fun item => forall ctx st,
            returns_or_leaks (PooledThrowing.draw throws item ctx st)
              (Pooled.draw item ctx st)) (_children g) ->
  (forall cached, _clipItems g = Some cached ->
     Forall (fun item => forall ctx st,
               returns_or_leaks (PooledThrowing.draw throws item ctx st)
                 (Pooled.draw item ctx st)) cached) ->
  match PooledThrowing.draw throws (Group f g) ctx st with
  | (trace, st', Returned) => (trace, st') = Pooled.draw (Group f g) ctx st
  | (trace, _, Thrown) =>
      if fst (isClipped g)
      then (returned (pool_ops trace) < taken (pool_ops trace))%nat
      else (returned (pool_ops trace) <= taken (pool_ops trace))%nat
  end.
Proof.
  intros Hchildren Hcache.
  simpl PooledThrowing.draw. simpl Pooled.draw.
  unfold PooledThrowing.Group_draw, Pooled.Group_draw.
  rewrite isClipped_fst.
  destruct (negb (length (fst (_getClipItems g)) =? 0)%nat) eqn:Hclipped.
  - destruct (is_zero (width (getStrokeBounds g))
              || is_zero (height (getStrokeBounds g))); [reflexivity|].
    destruct (CanvasProvider.getCanvas _ (provider st)) as [canvas p1].
    rewrite draw_clipItems_throwing_eq, draw_clipItems_eq.
    match goal with
    | |- context [draw_each_throwing _ always ?l ?c ?s] =>
        pose proof (draw_each_throwing_spec throws always l
                      (clipItems_Forall _ g Hchildren Hcache) c s) as Hstencil;
        pose proof (draw_each_well_nested Pooled.draw always l
                      (proj2 (Forall_forall _ _)
                         (fun item _ => Pooled_draw_well_nested item)) c s)
          as Hn1;
        destruct (draw_each_throwing (PooledThrowing.draw throws) always l c s)
          as [[mask st1] [|]]
    end; cbn [returns_or_leaks] in Hstencil.
    + rewrite <- Hstencil. rewrite <- Hstencil in Hn1. cbn [fst] in Hn1.
      match goal with
      | |- context [draw_each_throwing _ ?k (_children g) ?c st1] =>
          pose proof (draw_each_throwing_spec throws k (_children g)
                        Hchildren c st1) as Hregular;
          pose proof (draw_each_well_nested Pooled.draw k (_children g)
                        (proj2 (Forall_forall _ _)
                           (fun item _ => Pooled_draw_well_nested item)) c st1)
            as Hn2;
          destruct (draw_each_throwing (PooledThrowing.draw throws) k
                      (_children g) c st1) as [[regular st2] [|]]
      end; cbn [returns_or_leaks] in Hregular.
      * rewrite <- Hregular. reflexivity.
      * rewrite pool_ops_setup by reflexivity.
        rewrite !pool_ops_app.
        change (pool_ops [GlobalCompositeOperation (Offscreen canvas) (compositing g)])
          with (@nil PoolOp).
        cbn [taken returned app]. rewrite taken_app, returned_app.
        rewrite (well_nested_counts _ Hn1). lia.
    + rewrite pool_ops_setup by reflexivity. cbn [taken returned]. lia.
  - apply (draw_each_throwing_spec throws _ _ Hchildren).
Qed.

Lemma Pooled_draw_returns_or_leaks (throws : ItemFields -> bool) (it : Item) :
  forall ctx st,
    returns_or_leaks (PooledThrowing.draw throws it ctx st) (Pooled.draw it ctx st).
Proof.
  induction it as [f | f g IHchildren IHcache] using Item_induction;
    intros ctx st.
  - simpl. destruct (throws f); simpl; [lia | reflexivity].
  - pose proof (Group_draw_thrown throws f g ctx st IHchildren IHcache) as H.
    destruct (PooledThrowing.draw throws (Group f g) ctx st) as [[trace st'] [|]];
      cbn [returns_or_leaks]; [exact H|].
    destruct (fst (isClipped g)); lia.
Qed.

(** X6. The pooled [Group.draw] returns the canvases it takes on the
    paths on which every draw call returns, and leaves one out when the
    draw of a clipped group is left by an exception.  A draw
    traversal that returns has done exactly what the draws of [Pooled] do,
    and its requests to the provider pair up like brackets: every canvas
    taken is returned before the traversal ends, a canvas taken by a
    nested draw before the one its enclosing draw took.  A traversal that
    is left by an exception thrown by the draw of some item has not
    returned more canvases than it took, and when the item drawn is a
    clipped group it has returned fewer: the canvas that group took stays
    out, there being no [finally] around the loops. *)
Theorem Pooled_draw_returns_unless_thrown (throws : ItemFields -> bool)
    (it : Item) (ctx : Context2D) (st : DrawState) :
  match PooledThrowing.draw throws it ctx st with
  | (trace, st', Returned) =>
      (trace, st') = Pooled.draw it ctx st
      /\ well_nested (pool_ops trace)
  | (trace, _, Thrown) =>
      (returned (pool_ops trace) <= taken (pool_ops trace))%nat
      /\ (forall f g, it = Group f g -> fst (isClipped g) = true ->
            (returned (pool_ops trace) < taken (pool_ops trace))%nat)
  end.
Proof.
  pose proof (Pooled_draw_returns_or_leaks throws it ctx st) as Hall.
  assert (Hgroup : forall f g, it = Group f g ->
            match PooledThrowing.draw throws it ctx st with
            | (trace, _, Thrown) =>
                fst (isClipped g) = true ->
                (returned (pool_ops trace) < taken (pool_ops trace))%nat
            | _ => True
            end).
  { intros f g ->.
    pose proof (Group_draw_thrown throws f g ctx st
                  (proj2 (Forall_forall _ _)
                     (fun item _ => Pooled_draw_returns_or_leaks throws item))
                  (fun cached _ =>
                     proj2 (Forall_forall _ _)
                       (fun item _ => Pooled_draw_returns_or_leaks throws item)))
      as H.
    destruct (PooledThrowing.draw throws (Group f g) ctx st) as [[trace st'] [|]];
      [exact I|].
    intros Hclipped. rewrite Hclipped in H. exact H. }
  pose proof (Pooled_draw_well_nested it ctx st) as Hnested.
  destruct (PooledThrowing.draw throws it ctx st) as [[trace st'] [|]];
    cbn [returns_or_leaks] in Hall.
  - split; [exact Hall|]. rewrite <- Hall in Hnested. exact Hnested.
  - split; [exact Hall|]. intros f g Hit. exact (Hgroup f g Hit).
Qed.

Lemma Pooled_draw_returns_unless_thrown_witness :
  let throws := fun f : ItemFields => (_id f =? 2)%nat in
  snd (PooledThrowing.draw throws Fixtures.clipped_group Screen
         Fixtures.fresh_state) = Thrown
  /\ (returned (pool_ops (fst (fst (PooledThrowing.draw throws
                                     Fixtures.clipped_group Screen
                                     Fixtures.fresh_state))))
      < taken (pool_ops (fst (fst (PooledThrowing.draw throws
                                     Fixtures.clipped_group Screen
                                     Fixtures.fresh_state)))))%nat
  /\ CanvasProvider.canvases
       (provider (snd (fst (PooledThrowing.draw throws Fixtures.clipped_group
                              Screen Fixtures.fresh_state)))) = [].
Proof.
  intros throws.
  pose proof (Pooled_draw_returns_unless_thrown throws Fixtures.clipped_group
                Screen Fixtures.fresh_state) as H.
  destruct (PooledThrowing.draw throws Fixtures.clipped_group Screen
              Fixtures.fresh_state) as [[trace st'] c] eqn:E.
  assert (Hc : c = Thrown).
  { apply (f_equal snd) in E. vm_compute in E. symmetry. exact E. }
  assert (Hst : CanvasProvider.canvases (provider st') = []).
  { apply (f_equal (fun r => CanvasProvider.canvases (provider (snd (fst r)))))
      in E. vm_compute in E. symmetry. exact E. }
  subst c. cbn [fst snd].
  split; [reflexivity|]. split; [|exact Hst].
  destruct H as [_ H].
  apply (H (Fixtures.item_fields 0 0 false)
           (Fixtures.group_fields [Fixtures.mask; Fixtures.content] None
              (Fixtures.rect (104 # 10) (5 # 2) (203 # 10) 8)));
    reflexivity.
Defined.

Lemma draw_each_never_throwing (draw : ThrowingDrawer) (d : Drawer)
    (keep : Item -> bool) (l : list Item) :
  Forall (fun item => forall ctx st, draw item ctx st = (d item ctx st, Returned)) l ->
  forall ctx st,
    draw_each_throwing draw keep l ctx st = (draw_each d keep l ctx st, Returned).
Proof.
  induction 1 as [|item rest Hitem _ IH]; intros ctx st; simpl; [reflexivity|].
  destruct (keep item); [|apply IH].
  rewrite Hitem. destruct (d item ctx st) as [body st1].
  rewrite IH. destruct (draw_each d keep rest ctx st1) as [more st2].
  reflexivity.
Qed.

(** When no item's own draw throws, the draw returns and is the draw of
    [Pooled]. *)
Lemma Pooled_draw_never_throwing (throws : ItemFields -> bool) (it : Item) :
  (forall f, throws f = false) ->
  forall ctx st,
    PooledThrowing.draw throws it ctx st = (Pooled.draw it ctx st, Returned).
Proof.
  intros Hnone.
  induction it as [f | f g IHchildren IHcache] using Item_induction;
    intros ctx st.
  - simpl. rewrite Hnone. reflexivity.
  - simpl PooledThrowing.draw. simpl Pooled.draw.
    unfold PooledThrowing.Group_draw, Pooled.Group_draw.
    destruct (negb (length (fst (_getClipItems g)) =? 0)%nat).
    + destruct (is_zero (width (getStrokeBounds g))
                || is_zero (height (getStrokeBounds g))); [reflexivity|].
      destruct (CanvasProvider.getCanvas _ (provider st)) as [canvas p1].
      rewrite draw_clipItems_throwing_eq, draw_clipItems_eq.
      rewrite (draw_each_never_throwing _ Pooled.draw always _
                 (clipItems_Forall _ g IHchildren IHcache)).
      destruct (draw_each Pooled.draw always _ _ _) as [mask st1].
      rewrite (draw_each_never_throwing _ Pooled.draw _ _ IHchildren).
      destruct (draw_each Pooled.draw _ (_children g) _ st1) as [regular st2].
      reflexivity.
    + apply (draw_each_never_throwing _ Pooled.draw _ _ IHchildren).
Qed.

Lemma draw_each_only_takes (draw : Drawer) (keep : Item -> bool) (l : list Item) :
  Forall (fun item => forall ctx st,
            Forall is_HandOut (pool_ops (fst (draw item ctx st)))) l ->
  forall ctx st, Forall is_HandOut (pool_ops (fst (draw_each draw keep l ctx st))).
Proof.
  induction 1 as [|item rest Hitem _ IH]; intros ctx st; simpl.
  - constructor.
  - destruct (keep item); [|apply IH].
    specialize (Hitem ctx st).
    destruct (draw item ctx st) as [body st1].
    specialize (IH ctx st1).
    destruct (draw_each draw keep rest ctx st1) as [more st2].
    cbn [fst] in *. rewrite pool_ops_cons_ItemDraw.
    apply Forall_app. split; assumption.
Qed.

(** X7. The earlier [Group.draw] never returns a canvas: every request a
    draw traversal makes of the provider is a [getCanvas], and the draw
    of a clipped group makes at least one. *)
Theorem SingleContext_draw_never_returns (it : Item) (ctx : Context2D)
    (st : DrawState) :
  Forall is_HandOut (pool_ops (fst (SingleContext.draw it ctx st)))
  /\ (forall f g, it = Group f g -> fst (isClipped g) = true ->
        pool_ops (fst (SingleContext.draw it ctx st)) <> []).
Proof.
  split.
  - revert ctx st.
    induction it as [f | f g IHchildren IHcache] using Item_induction;
      intros ctx st.
    + simpl. constructor.
    + destruct (fst (isClipped g)) eqn:Hclipped.
      * pose proof (SingleContext_draw_clipped f g ctx st Hclipped) as Hdraw.
        cbv zeta in Hdraw. rewrite Hdraw. clear Hdraw. cbn [fst].
        rewrite pool_ops_unreturned by reflexivity.
        constructor; [exact I|].
        apply Forall_app. split.
        -- apply draw_each_only_takes. apply clipItems_Forall; assumption.
        -- apply draw_each_only_takes. exact IHchildren.
      * rewrite (SingleContext_draw_not_clipped f g ctx st Hclipped).
        apply draw_each_only_takes. exact IHchildren.
  - intros f g -> Hclipped.
    pose proof (SingleContext_draw_clipped f g ctx st Hclipped) as Hdraw.
    cbv zeta in Hdraw. rewrite Hdraw. cbn [fst].
    rewrite pool_ops_unreturned by reflexivity. discriminate.
Qed.

(** *** Where the painting goes *)

Lemma paint_targets_of_ItemDraw (i : nat) (ctx : Context2D) (body : list Event) :
  paint_targets_of (ItemDraw i ctx body) = paint_targets body.
Proof.
  simpl. induction body as [|e r IH]; [reflexivity|].
  simpl. rewrite IH. reflexivity.
Qed.

Lemma paint_targets_app (t1 t2 : list Event) :
  paint_targets (t1 ++ t2) = paint_targets t1 ++ paint_targets t2.
Proof. unfold paint_targets. apply flat_map_app. Qed.

Lemma paint_targets_cons_ItemDraw (i : nat) (ctx : Context2D)
    (body rest : list Event) :
  paint_targets (ItemDraw i ctx body :: rest)
  = paint_targets body ++ paint_targets rest.
Proof.
  change (paint_targets (ItemDraw i ctx body :: rest))
    with (paint_targets_of (ItemDraw i ctx body) ++ paint_targets rest).
  rewrite paint_targets_of_ItemDraw. reflexivity.
Qed.

Lemma paint_targets_clipped (e1 e2 e3 e4 e5 e6 e7 e8 : Event)
    (stencil regular : list Event) :
  paint_targets_of e1 = [] -> paint_targets_of e2 = [] ->
  paint_targets_of e3 = [] -> paint_targets_of e4 = [] ->
  paint_targets_of e5 = [] -> paint_targets_of e6 = [] ->
  paint_targets_of e7 = [] -> paint_targets_of e8 = [] ->
  paint_targets ([e1; e2; e3; e4] ++ stencil ++ [e5] ++ regular ++ [e6; e7; e8])
  = paint_targets stencil ++ paint_targets regular.
Proof.
  intros H1 H2 H3 H4 H5 H6 H7 H8. rewrite !paint_targets_app.
  unfold paint_targets at 1 3 5. simpl flat_map.
  rewrite H1, H2, H3, H4, H5, H6, H7, H8. simpl. rewrite app_nil_r. reflexivity.
Qed.

Lemma draw_each_targets_fresh (keep : Item -> bool) (l : list Item) :
  Forall paints_onto_or_fresh l ->
  forall ctx st held,
    provider_consistent held (provider st) ->
    Forall (onto_or_fresh held ctx)
      (paint_targets (fst (draw_each Pooled.draw keep l ctx st))).
Proof.
  induction 1 as [|item rest Hitem _ IH]; intros ctx st held Hcons; simpl.
  - constructor.
  - destruct (keep item); [|apply IH; exact Hcons].
    specialize (Hitem ctx st held Hcons).
    destruct (Pooled_draw_discipline item ctx st held Hcons) as (_ & Hcons1 & Hbal).
    rewrite (Hbal eq_refl) in Hcons1.
    destruct (Pooled.draw item ctx st) as [body st1].
    specialize (IH ctx st1 held Hcons1).
    destruct (draw_each Pooled.draw keep rest ctx st1) as [more st2].
    cbn [fst snd] in *. rewrite paint_targets_cons_ItemDraw.
    apply Forall_app. split; assumption.
Qed.

Lemma onto_fresh_is_fresh (c : CanvasProvider.Canvas) (held : list nat)
    (l : list Context2D) :
  ~ In (CanvasProvider.cid c) held ->
  Forall (onto_or_fresh (CanvasProvider.cid c :: held) (Offscreen c)) l ->
  Forall (fresh_canvas held) l.
Proof.
  intros Hnew. apply Forall_impl. intros t [-> | Hfresh].
  - exact Hnew.
  - destruct t as [|c']; simpl in *; [exact Hfresh|].
    intros Hin. apply Hfresh. right. exact Hin.
Qed.

Lemma Pooled_draw_clipped_targets (f : ItemFields) (g : GroupFields Item)
    (ctx : Context2D) (st : DrawState) (held : list nat) :
  Forall paints_onto_or_fresh (_children g) ->
  (forall cached, _clipItems g = Some cached -> Forall paints_onto_or_fresh cached) ->
  fst (isClipped g) = true ->
  ~ width (getStrokeBounds g) == 0 ->
  ~ height (getStrokeBounds g) == 0 ->
  provider_consistent held (provider st) ->
  Forall (fresh_canvas held) (paint_targets (fst (Pooled.draw (Group f g) ctx st))).
Proof.
  intros Hchildren Hcache Hclipped Hw Hh Hcons.
  pose proof (Pooled_draw_clipped f g ctx st Hclipped Hw Hh) as Hdraw.
  cbv zeta in Hdraw. rewrite Hdraw. clear Hdraw. cbn [fst].
  rewrite paint_targets_clipped by reflexivity.
  match goal with
  | |- context [CanvasProvider.getCanvas ?sz (provider st)] =>
      destruct (getCanvas_consistent sz (provider st) held Hcons)
        as [Hnew Hcons0];
      destruct (CanvasProvider.getCanvas sz (provider st)) as [canvas p1]
  end.
  cbn [fst snd] in *.
  match goal with
  | |- context [draw_each Pooled.draw always ?l ?c ?s] =>
      pose proof (draw_each_targets_fresh always l
                    (clipItems_Forall _ g Hchildren Hcache)
                    c s _ Hcons0) as Hstencil;
      pose proof (draw_each_discipline true Pooled.draw always l
                    (proj2 (Forall_forall _ _)
                       (fun item _ => Pooled_draw_discipline item))
                    c s _ Hcons0) as (_ & Hcons1 & Hbal1);
      destruct (draw_each Pooled.draw always l c s) as [stencil st1]
  end.
  cbn [fst snd] in *. rewrite (Hbal1 eq_refl) in Hcons1.
  apply Forall_app. split.
  - apply (onto_fresh_is_fresh canvas); assumption.
  - apply (onto_fresh_is_fresh canvas); [exact Hnew|].
    apply draw_each_targets_fresh; assumption.
Qed.

Lemma Pooled_draw_targets (it : Item) : paints_onto_or_fresh it.
Proof.
  induction it as [f | f g IHchildren IHcache] using Item_induction;
    intros ctx st held Hcons.
  - simpl. constructor; [left; reflexivity | constructor].
  - destruct (fst (isClipped g)) eqn:Hclipped.
    + destruct (is_zero (width (getStrokeBounds g))
                || is_zero (height (getStrokeBounds g))) eqn:Hzero.
      * rewrite (Pooled_draw_zero_area f g ctx st Hclipped Hzero). constructor.
      * apply orb_false_iff in Hzero. destruct Hzero as [Hw Hh].
        apply is_zero_false in Hw. apply is_zero_false in Hh.
        eapply Forall_impl;
          [|apply (Pooled_draw_clipped_targets f g ctx st held); assumption].
        intros t Hfresh. right. exact Hfresh.
    + rewrite (Pooled_draw_not_clipped f g ctx st Hclipped).
      apply draw_each_targets_fresh; assumption.
Qed.

(** X8. When a clipped group with non-degenerate stroke bounds draws,
    started with a provider whose book-keeping is right and given the
    context of the view or of a canvas that is out at that moment,
    nothing in its subtree, however deeply nested, is painted on the
    context the group was given: every paint goes to a canvas that was
    not out when the draw began (one the provider handed out during this
    draw), and the parent context only receives the composited
    result. *)
Theorem Pooled_draw_clipped_paints_offscreen (f : ItemFields)
    (g : GroupFields Item) (ctx : Context2D) (st : DrawState) (held : list nat)
    (Hclipped : fst (isClipped g) = true)
    (Hwidth : ~ width (getStrokeBounds g) == 0)
    (Hheight : ~ height (getStrokeBounds g) == 0)
    (Hprovider : provider_consistent held (provider st))
    (Hctx : in_use held ctx) :
  Forall (fun t => t <> ctx /\ fresh_canvas held t)
    (paint_targets (fst (Pooled.draw (Group f g) ctx st))).
Proof.
  assert (Hall : forall l, Forall paints_onto_or_fresh l).
  { intros l. apply Forall_forall. intros item _. apply Pooled_draw_targets. }
  eapply Forall_impl;
    [|apply (Pooled_draw_clipped_targets f g ctx st held); auto].
  intros t Hfresh. split; [|exact Hfresh].
  intros ->. destruct ctx as [|c]; simpl in *; contradiction.
Qed.

Lemma Pooled_draw_clipped_paints_offscreen_witness :
  let parent := {| CanvasProvider.cid := 0; CanvasProvider.cwidth := 100;
                   CanvasProvider.cheight := 100 |} in
  let st := {| provider := {| CanvasProvider.canvases := [];
                              CanvasProvider.created := 1 |};
               param_offset := None; prevOffset := None |} in
  provider_consistent [0%nat] (provider st)
  /\ in_use [0%nat] (Offscreen parent)
  /\ Forall (fun t => t <> Offscreen parent /\ fresh_canvas [0%nat] t)
       (paint_targets
          (fst (Pooled.draw Fixtures.nested_group (Offscreen parent) st)))
  /\ length (paint_targets
               (fst (Pooled.draw Fixtures.nested_group (Offscreen parent) st)))
     = 3%nat.
Proof.
  intros parent st.
  assert (Hp : provider_consistent [0%nat] (provider st)).
  { unfold provider_consistent. simpl.
    split; [constructor; [intros []|constructor]|].
    split; [constructor|].
    split; [intros c _ []|].
    intros c [[<- | []] | []]. lia. }
  assert (Hc : in_use [0%nat] (Offscreen parent)) by (simpl; left; reflexivity).
  split; [exact Hp|]. split; [exact Hc|]. split; [|reflexivity].
  apply (Pooled_draw_clipped_paints_offscreen
           (Fixtures.item_fields 10 0 false)
           (Fixtures.group_fields
              [Fixtures.shape 11 0 true;
               with_fields (Fixtures.item_fields 12 1 false) Fixtures.clipped_group]
              None (Fixtures.rect 0 0 40 40))
           (Offscreen parent) st [0%nat]).
  - reflexivity.
  - simpl. intros H. discriminate H.
  - simpl. intros H. discriminate H.
  - exact Hp.
  - exact Hc.
Defined.


(** *** Trees without clip masks *)

Lemma draw_each_alike (d1 d2 : Drawer) (k1 k2 : Item -> bool) (l : list Item) :
  Forall (fun item => k1 item = true /\ k2 item = true
                      /\ draws_alike d1 d2 item) l ->
  forall ctx st,
    draw_each d1 k1 l ctx st = draw_each d2 k2 l ctx st
    /\ snd (draw_each d1 k1 l ctx st) = st
    /\ pool_ops (fst (draw_each d1 k1 l ctx st)) = [].
Proof.
  induction 1 as [|item rest (Hk1 & Hk2 & Hitem) _ IH]; intros ctx st; simpl.
  - repeat split.
  - rewrite Hk1, Hk2.
    destruct (Hitem ctx st) as (Heq & Hst & Hops). rewrite <- Heq.
    destruct (d1 item ctx st) as [body st1]. simpl in Hst, Hops. subst st1.
    destruct (IH ctx st) as (Heq' & Hst' & Hops'). rewrite <- Heq'.
    destruct (draw_each d1 k1 rest ctx st) as [more st2].
    cbn [fst snd] in *. split; [reflexivity|]. split; [exact Hst'|].
    rewrite pool_ops_cons_ItemDraw, Hops, Hops'. reflexivity.
Qed.

(** X9. On an item tree in which no group is clipped and no child is
    marked as a clip mask, the two revisions of [Group.draw] do the very
    same thing, take no canvas from the provider, and leave the provider
    and [param] as they found them. *)
Theorem unclipped_tree_draws_alike (it : Item) (ctx : Context2D)
    (st : DrawState) (Hplain : without_masks it) :
  Pooled.draw it ctx st = SingleContext.draw it ctx st
  /\ snd (Pooled.draw it ctx st) = st
  /\ pool_ops (fst (Pooled.draw it ctx st)) = [].
Proof.
  revert ctx st.
  change (draws_alike Pooled.draw SingleContext.draw it).
  induction it as [f | f g IHchildren _] using Item_induction.
  - intros ctx st. simpl. repeat split.
  - intros ctx st.
    inversion Hplain as [|f' g' Hnot Hmarks Hsub]; subst f' g'.
    rewrite (Pooled_draw_not_clipped f g ctx st Hnot),
            (SingleContext_draw_not_clipped f g ctx st Hnot).
    apply draw_each_alike.
    rewrite Forall_forall in *. intros item Hin.
    destruct (Hmarks item Hin) as [Hmask Hmark].
    split; [unfold child_clipMask in Hmask; rewrite Hmask; reflexivity|].
    split; [exact Hmark|].
    apply IHchildren; [exact Hin|]. apply Hsub. exact Hin.
Qed.

Lemma unclipped_tree_draws_alike_witness :
  let inner := Group (Fixtures.item_fields 5 1 false)
                 (Fixtures.group_fields [Fixtures.shape 6 0 false] None
                    (Fixtures.rect 0 0 1 1)) in
  let tree := Group (Fixtures.item_fields 4 0 false)
                (Fixtures.group_fields [Fixtures.content; inner] None
                   (Fixtures.rect 0 0 1 1)) in
  without_masks tree
  /\ Pooled.draw tree Screen Fixtures.fresh_state
     = SingleContext.draw tree Screen Fixtures.fresh_state
  /\ paint_targets (fst (Pooled.draw tree Screen Fixtures.fresh_state))
     = [Screen; Screen].
Proof.
  intros inner tree.
  assert (Hinner : without_masks inner).
  { apply without_masks_group; [reflexivity | |].
    - repeat constructor.
    - repeat constructor. }
  assert (Htree : without_masks tree).
  { apply without_masks_group; [reflexivity | |].
    - repeat constructor.
    - constructor; [constructor|]. constructor; [exact Hinner | constructor]. }
  split; [exact Htree|].
  destruct (unclipped_tree_draws_alike tree Screen Fixtures.fresh_state Htree)
    as (H & _ & _).
  split; [exact H | reflexivity].
Defined.


(** ** More on Base.splice *)

Section SpliceContents.

Context {A : Type} `{Base.Indexed A}.

Lemma firstn_exact (a b : list A) : firstn (length a) (a ++ b) = a.
Proof.
  rewrite firstn_app, Nat.sub_diag, firstn_all, firstn_O, app_nil_r. reflexivity.
Qed.

Lemma skipn_exact (a b : list A) : skipn (length a) (a ++ b) = b.
Proof.
  rewrite skipn_app, Nat.sub_diag, skipn_all. reflexivity.
Qed.


End SpliceContents.

Section SpliceLaws.

Context {A : Type} `{Base.IndexedLaws A}.



End SpliceLaws.

(** X13. A negative position to renumber from is an error: when [items]
    is [null] or an array and [index + items.length] is negative, the
    renumbering loop starts at a negative position, where the list has no
    entry to assign to, and the call ends in a TypeError. *)
Theorem splice_negative_start_throws {A : Type} `{Base.Indexed A}
    (lst : list A) (items : Base.ItemsArg A) (i remove : Z)
    (Hitems : items <> Base.ItemsUndefined)
    (Hneg : (i + Z.of_nat (length (inserted items)) < 0)%Z) :
  Base.splice lst items (Some i) remove = None.
Proof.
  assert (Hadjust : forall l : list A,
            Base.adjust_from (i + Z.of_nat (length (inserted items))) l = None).
  { intros l. unfold Base.adjust_from.
    destruct (Z.ltb_spec (i + Z.of_nat (length (inserted items)))
                (Z.of_nat (length l))) as [_ | Hge]; [|lia].
    destruct (Z.ltb_spec (i + Z.of_nat (length (inserted items))) 0)
      as [_ | Hge]; [reflexivity | lia]. }
  unfold Base.splice.
  destruct items as [| |l]; [contradiction| |]; simpl in *.
  - destruct (Base.Array_splice lst i remove []) as [list1 removed].
    rewrite Z.add_0_r in Hadjust. rewrite Hadjust. reflexivity.
  - destruct (Base.Array_splice lst i remove (Base.number_from i l))
      as [list1 removed].
    rewrite Hadjust. reflexivity.
Qed.

Lemma splice_negative_start_throws_witness :
  Base.splice [Fixtures.shape 1 0 false; Fixtures.shape 2 1 false]
    Base.ItemsNull (Some (-1)%Z) 1 = None.
Proof.
  apply (splice_negative_start_throws
           [Fixtures.shape 1 0 false; Fixtures.shape 2 1 false]
           Base.ItemsNull (-1) 1).
  - discriminate.
  - simpl. lia.
Defined.


(** ** Base.splice on shared objects *)

Section SharedSplice.

Import Shared.

Lemma assign_same (r : Ref) (v : option Z) (h : Heap) : assign r v h r = v.
Proof. unfold assign. rewrite Nat.eqb_refl. reflexivity. Qed.

Lemma assign_other (r r' : Ref) (v : option Z) (h : Heap) :
  r' <> r -> assign r v h r' = h r'.
Proof.
  intros Hne. unfold assign. destruct (Nat.eqb_spec r' r); [contradiction|].
  reflexivity.
Qed.

Lemma number_from_other (l : list Ref) (r : Ref) :
  ~ In r l -> forall k h, number_from k l h r = h r.
Proof.
  induction l as [|a l IH]; intros Hnot k h; simpl; [reflexivity|].
  rewrite IH by (intros Hin; apply Hnot; right; exact Hin).
  apply assign_other. intros ->. apply Hnot. left. reflexivity.
Qed.

Lemma number_from_nth (l : list Ref) :
  NoDup l ->
  forall k h j r, nth_error l j = Some r ->
                  number_from k l h r = Some (k + Z.of_nat j)%Z.
Proof.
  induction 1 as [|a l Hnot Hnd IH]; intros k h j r Hnth.
  - destruct j; discriminate.
  - destruct j as [|j]; simpl in Hnth |- *.
    + injection Hnth as <-. rewrite number_from_other by exact Hnot.
      rewrite assign_same. f_equal. lia.
    + rewrite (IH _ _ j r Hnth). f_equal. lia.
Qed.

Lemma delete_all_other (l : list Ref) (r : Ref) :
  ~ In r l -> forall h, delete_all l h r = h r.
Proof.
  induction l as [|a l IH]; intros Hnot h; simpl; [reflexivity|].
  rewrite IH by (intros Hin; apply Hnot; right; exact Hin).
  apply assign_other. intros ->. apply Hnot. left. reflexivity.
Qed.

Lemma delete_all_in (l : list Ref) (r : Ref) :
  In r l -> forall h, delete_all l h r = None.
Proof.
  induction l as [|a l IH]; intros Hin h; simpl; [contradiction|].
  destruct (in_dec Nat.eq_dec r l) as [Hl | Hl].
  - apply IH. exact Hl.
  - destruct Hin as [-> | Hin]; [|contradiction].
    rewrite delete_all_other by exact Hl. apply assign_same.
Qed.

Lemma well_indexed_NoDup (h : Heap) (l : list Ref) :
  well_indexed h l -> NoDup l.
Proof.
  intros Hwell. apply NoDup_nth_error. intros i j Hi Heq.
  destruct (nth_error l i) as [r|] eqn:Hr.
  - pose proof (Hwell i r Hr) as H1.
    pose proof (Hwell j r (eq_sym Heq)) as H2.
    rewrite H1 in H2. injection H2 as H2. lia.
  - apply nth_error_None in Hr. lia.
Qed.

Lemma NoDup_app_parts (a b : list Ref) :
  NoDup (a ++ b) ->
  NoDup a /\ NoDup b /\ (forall r, In r a -> ~ In r b).
Proof.
  induction a as [|x a IH]; simpl; intros Hnd.
  - split; [constructor|]. split; [exact Hnd|]. intros r [].
  - inversion Hnd as [|? ? Hx Hrest]; subst.
    destruct (IH Hrest) as (Ha & Hb & Hab).
    split; [constructor; [|exact Ha]|].
    + intros Hin. apply Hx. apply in_or_app. left. exact Hin.
    + split; [exact Hb|].
      intros r [<- | Hin].
      * intros Hin. apply Hx. apply in_or_app. right. exact Hin.
      * apply Hab. exact Hin.
Qed.

(** The heart of it: the three passes of [Base.splice] over a list
    [pre ++ mid ++ tail] from which [mid] is taken out and into which
    [ins] is put. *)
Lemma three_passes (h : Heap) (pre mid tail ins : list Ref) :
  well_indexed h (pre ++ mid ++ tail) ->
  NoDup ins ->
  (forall r, In r ins -> ~ In r (pre ++ mid ++ tail)) ->
  let k := Z.of_nat (length pre) in
  let h' := number_from (k + Z.of_nat (length ins)) tail
              (delete_all mid (number_from k ins h)) in
  well_indexed h' (pre ++ ins ++ tail)
  /\ Forall (fun r => h' r = None) mid
  /\ (forall r, ~ In r (pre ++ mid ++ tail) -> ~ In r ins -> h' r = h r).
Proof.
  intros Hwell Hins Hnew k h'.
  pose proof (well_indexed_NoDup _ _ Hwell) as Hnd.
  destruct (NoDup_app_parts _ _ Hnd) as (Hpre & Hrest & Hpre_rest).
  destruct (NoDup_app_parts _ _ Hrest) as (Hmid & Htail & Hmid_tail).
  split; [|split].
  - intros p r Hnth.
    destruct (Nat.lt_ge_cases p (length pre)) as [Hp | Hp].
    + rewrite nth_error_app1 in Hnth by exact Hp.
      assert (Hin : In r pre) by (eapply nth_error_In; exact Hnth).
      unfold h'.
      rewrite number_from_other, delete_all_other, number_from_other.
      * apply Hwell. rewrite nth_error_app1 by exact Hp. exact Hnth.
      * intros Hi. apply (Hnew r Hi). apply in_or_app. left. exact Hin.
      * intros Hi. apply (Hpre_rest r Hin). apply in_or_app. left. exact Hi.
      * intros Hi. apply (Hpre_rest r Hin). apply in_or_app. right. exact Hi.
    + rewrite nth_error_app2 in Hnth by exact Hp.
      destruct (Nat.lt_ge_cases (p - length pre) (length ins)) as [Hq | Hq].
      * rewrite nth_error_app1 in Hnth by exact Hq.
        assert (Hin : In r ins) by (eapply nth_error_In; exact Hnth).
        unfold h'.
        rewrite number_from_other, delete_all_other.
        -- rewrite (number_from_nth ins Hins k h _ r Hnth). f_equal.
           unfold k. lia.
        -- intros Hi. apply (Hnew r Hin).
           apply in_or_app. right. apply in_or_app. left. exact Hi.
        -- intros Hi. apply (Hnew r Hin).
           apply in_or_app. right. apply in_or_app. right. exact Hi.
      * rewrite nth_error_app2 in Hnth by exact Hq.
        unfold h'.
        rewrite (number_from_nth tail Htail _ _ _ r Hnth). f_equal.
        unfold k. lia.
  - apply Forall_forall. intros r Hin. unfold h'.
    rewrite number_from_other by (apply Hmid_tail; exact Hin).
    apply delete_all_in. exact Hin.
  - intros r Hold Hnot. unfold h'.
    rewrite number_from_other, delete_all_other, number_from_other.
    + reflexivity.
    + exact Hnot.
    + intros Hi. apply Hold. apply in_or_app. right. apply in_or_app. left.
      exact Hi.
    + intros Hi. apply Hold. apply in_or_app. right. apply in_or_app. right.
      exact Hi.
Qed.

Lemma adjust_from_boundary_shared (pre tail : list Ref) (h : Heap) :
  adjust_from (Z.of_nat (length pre)) (pre ++ tail) h
  = Some (number_from (Z.of_nat (length pre)) tail h).
Proof.
  unfold adjust_from. rewrite length_app.
  destruct (Z.ltb_spec (Z.of_nat (length pre))
              (Z.of_nat (length pre + length tail))) as [Hlt | Hge].
  - destruct (Z.ltb_spec (Z.of_nat (length pre)) 0) as [Hneg | _]; [lia|].
    rewrite Nat2Z.id, skipn_app, Nat.sub_diag, skipn_all. reflexivity.
  - destruct tail as [|b tail]; [reflexivity|]. simpl in Hge. lia.
Qed.

(** What an in-range call computes, when [items] is [null] or an array. *)
Lemma shared_splice_in_range (h : Heap) (lst : list Ref)
    (items : Base.ItemsArg Ref) (i remove : Z) :
  items <> Base.ItemsUndefined ->
  (0 <= i <= Z.of_nat (length lst))%Z ->
  let s := Z.to_nat i in
  let d := Z.to_nat (Z.min (Z.max remove 0) (Z.of_nat (length lst) - i)) in
  let pre := firstn s lst in
  let mid := firstn d (skipn s lst) in
  let tail := skipn d (skipn s lst) in
  lst = pre ++ mid ++ tail
  /\ Z.of_nat (length pre) = i
  /\ splice h lst items (Some i) remove =
       Some (number_from (i + Z.of_nat (length (inserted items))) tail
               (delete_all mid (number_from i (inserted items) h)),
             pre ++ inserted items ++ tail, mid).
Proof.
  intros Hitems Hrange s d pre mid tail.
  assert (Hs : length pre = s)
    by (apply firstn_length_le; unfold s; lia).
  split; [unfold pre, mid, tail; rewrite !firstn_skipn; reflexivity|].
  split; [rewrite Hs; unfold s; lia|].
  assert (Hspl :
    splice h lst items (Some i) remove =
      option_map
        (fun h3 => (h3, fst (Base.Array_splice lst i remove (inserted items)),
                    snd (Base.Array_splice lst i remove (inserted items))))
        (adjust_from (i + Z.of_nat (length (inserted items)))
           (fst (Base.Array_splice lst i remove (inserted items)))
           (delete_all (snd (Base.Array_splice lst i remove (inserted items)))
              (number_from i (inserted items) h)))).
  { unfold splice, inserted.
    destruct items as [| |l]; [contradiction| |].
    - destruct (Base.Array_splice lst i remove []) as [list1 removed].
      simpl. rewrite Z.add_0_r. reflexivity.
    - destruct (Base.Array_splice lst i remove l) as [list1 removed].
      reflexivity. }
  rewrite Hspl. unfold Base.Array_splice. simpl fst. simpl snd.
  destruct (Z.ltb_spec i 0) as [Hneg | _]; [lia|].
  rewrite (Z.min_l i (Z.of_nat (length lst))) by lia.
  fold s. fold d. fold pre. fold mid.
  replace (skipn (s + d) lst) with tail
    by (unfold tail; rewrite skipn_skipn; f_equal; lia).
  assert (Hpre : (i + Z.of_nat (length (inserted items)))%Z
                 = Z.of_nat (length (pre ++ inserted items))).
  { rewrite length_app, Hs. unfold s. lia. }
  rewrite app_assoc. rewrite Hpre at 1. rewrite adjust_from_boundary_shared.
  simpl option_map. rewrite <- Hpre, <- app_assoc. reflexivity.
Qed.


(** X10. On a list of distinct objects, for an [index] within
    [0 .. list.length] (or left [undefined]) and [items] that is [null]
    or an array of objects that are pairwise different and none of which
    is in the list already, [Base.splice] keeps the invariant of such
    lists: if every entry's [_index] was its position before the call, it
    is so afterwards; every entry handed back as removed has lost its
    [_index]; and the [_index] of no other object is touched. *)
Theorem splice_keeps_indices (h : Heap) (lst : list Ref)
    (items : Base.ItemsArg Ref) (index : option Z) (remove : Z)
    (Hwell : well_indexed h lst)
    (Hitems : items <> Base.ItemsUndefined)
    (Hrange : match index with
              | Some i => (0 <= i <= Z.of_nat (length lst))%Z
              | None => True
              end)
    (Hdistinct : NoDup (inserted items))
    (Hnew : forall r, In r (inserted items) -> ~ In r lst) :
  exists h' list' removed,
    splice h lst items index remove = Some (h', list', removed)
    /\ well_indexed h' list'
    /\ Forall (fun r => h' r = None) removed
    /\ (forall r, ~ In r lst -> ~ In r (inserted items) -> h' r = h r).
Proof.
  destruct index as [i|]; cbv iota in Hrange.
  - destruct (shared_splice_in_range h lst items i remove Hitems Hrange)
      as (Hlst & Hlen & Hsplice).
    cbv zeta in Hlst, Hlen, Hsplice.
    set (pre := firstn (Z.to_nat i) lst) in *.
    set (mid := firstn _ (skipn (Z.to_nat i) lst)) in *.
    set (tail := skipn _ (skipn (Z.to_nat i) lst)) in *.
    rewrite Hlst in Hwell, Hnew.
    destruct (three_passes h pre mid tail (inserted items) Hwell Hdistinct Hnew)
      as (H1 & H2 & H3).
    rewrite Hlen in H1, H2, H3.
    eexists _, _, _. split; [exact Hsplice|].
    split; [exact H1|]. split; [exact H2|].
    intros r Hr. apply H3. rewrite <- Hlst. exact Hr.
  - assert (Hlst : lst = lst ++ [] ++ []) by (rewrite !app_nil_r; reflexivity).
    rewrite Hlst in Hwell, Hnew.
    destruct (three_passes h lst [] [] (inserted items) Hwell Hdistinct Hnew)
      as (H1 & _ & H3).
    simpl number_from in H1, H3. simpl delete_all in H1, H3.
    rewrite !app_nil_r in H1, H3.
    exists (number_from (Z.of_nat (length lst)) (inserted items) h),
      (lst ++ inserted items), [].
    split; [|split; [exact H1|split; [constructor|exact H3]]].
    unfold splice, inserted. destruct items as [| |l]; [contradiction| |];
      reflexivity.
Qed.

Lemma well_indexed_three :
  well_indexed (fun r => match r with
                         | 1%nat => Some 0%Z | 2%nat => Some 1%Z
                         | 3%nat => Some 2%Z | _ => None
                         end) [1; 2; 3]%nat.
Proof.
  intros i r Hnth.
  destruct i as [|[|[|i]]]; simpl in Hnth;
    try (injection Hnth as <-; reflexivity).
  destruct i; discriminate.
Qed.

Lemma splice_keeps_indices_witness :
  let h := fun r => match r with
                    | 1%nat => Some 0%Z | 2%nat => Some 1%Z
                    | 3%nat => Some 2%Z | _ => None
                    end in
  exists h' list' removed,
    splice h [1; 2; 3]%nat (Base.ItemsArray [9%nat]) (Some 1%Z) 1
    = Some (h', list', removed)
    /\ well_indexed h' list'
    /\ Forall (fun r => h' r = None) removed
    /\ (forall r, ~ In r [1; 2; 3]%nat -> ~ In r [9%nat] -> h' r = h r).
Proof.
  intros h.
  apply (splice_keeps_indices h [1; 2; 3]%nat (Base.ItemsArray [9%nat])
           (Some 1%Z) 1).
  - exact well_indexed_three.
  - discriminate.
  - simpl. lia.
  - simpl. constructor; [intros []|constructor].
  - simpl. intros r [<- | []] [H | [H | [H | []]]]; discriminate.
Defined.

(** Without that proviso the invariant is lost: the same object given
    twice ends up at two positions with one [_index]. *)
Example splice_same_object_twice :
  let h := fun r => match r with 1%nat => Some 0%Z | _ => None end in
  exists h',
    splice h [1%nat] (Base.ItemsArray [7; 7]%nat) (Some 1%Z) 0
    = Some (h', [1; 7; 7]%nat, [])
    /\ h' 7%nat = Some 2%Z
    /\ ~ well_indexed h' [1; 7; 7]%nat.
Proof.
  intros h. eexists. split; [reflexivity|]. split; [reflexivity|].
  intros Hwell. specialize (Hwell 1%nat 7%nat eq_refl). discriminate Hwell.
Qed.

(** X12. Inserting and removing undo each other: on a list whose entries
    know their positions, with [items] pairwise different objects none of
    which is in the list, [Base.splice(list, items, i, 0)] followed by
    [Base.splice(list, null, i, items.length)] gives back the list as it
    was, returns the inserted items, leaves every object other than those
    items with the [_index] it had, and leaves the items without one. *)
Theorem splice_insert_then_remove (h : Heap) (lst items : list Ref) (i : Z)
    (Hwell : well_indexed h lst)
    (Hrange : (0 <= i <= Z.of_nat (length lst))%Z)
    (Hdistinct : NoDup items)
    (Hnew : forall r, In r items -> ~ In r lst) :
  exists h1 list1 h2,
    splice h lst (Base.ItemsArray items) (Some i) 0 = Some (h1, list1, [])
    /\ splice h1 list1 Base.ItemsNull (Some i) (Z.of_nat (length items))
       = Some (h2, lst, items)
    /\ (forall r, ~ In r items -> h2 r = h r)
    /\ (forall r, In r items -> h2 r = None).
Proof.
  set (s := Z.to_nat i).
  assert (Hitems : Base.ItemsArray items <> Base.ItemsUndefined) by discriminate.
  destruct (shared_splice_in_range h lst (Base.ItemsArray items) i 0 Hitems Hrange)
    as (Hlst & Hlen & Hsplice).
  cbv zeta in Hlst, Hlen, Hsplice. fold s in Hlst, Hlen, Hsplice.
  replace (Z.to_nat (Z.min (Z.max 0 0) (Z.of_nat (length lst) - i))) with 0%nat
    in Hlst, Hsplice by lia.
  simpl firstn in Hlst, Hsplice. simpl skipn in Hlst, Hsplice.
  simpl inserted in Hsplice. simpl delete_all in Hsplice.
  simpl app in Hlst.
  set (pre := firstn s lst) in *. set (tail := skipn s lst) in *.
  assert (Hwell0 : well_indexed h (pre ++ [] ++ tail))
    by (change (pre ++ [] ++ tail) with (pre ++ tail);
        rewrite <- Hlst; exact Hwell).
  assert (Hnew0 : forall r, In r items -> ~ In r (pre ++ [] ++ tail))
    by (change (pre ++ [] ++ tail) with (pre ++ tail);
        rewrite <- Hlst; exact Hnew).
  destruct (three_passes h pre [] tail items Hwell0 Hdistinct Hnew0)
    as (Hwell1 & _ & Hframe1).
  rewrite Hlen in Hwell1, Hframe1. simpl delete_all in Hwell1, Hframe1.
  set (h1 := number_from (i + Z.of_nat (length items)) tail
               (number_from i items h)) in *.
  set (list1 := pre ++ items ++ tail) in *.
  (* the second call *)
  assert (Hrange1 : (0 <= i <= Z.of_nat (length list1))%Z).
  { unfold list1. rewrite length_app. lia. }
  assert (Hnull : @Base.ItemsNull Ref <> Base.ItemsUndefined) by discriminate.
  destruct (shared_splice_in_range h1 list1 Base.ItemsNull i
              (Z.of_nat (length items)) Hnull Hrange1)
    as (Hlist1 & _ & Hsplice1).
  cbv zeta in Hlist1, Hsplice1. fold s in Hlist1, Hsplice1.
  assert (Hs : length pre = s)
    by (apply firstn_length_le; unfold s; lia).
  assert (Hd : Z.to_nat (Z.min (Z.max (Z.of_nat (length items)) 0)
                           (Z.of_nat (length list1) - i)) = length items).
  { unfold list1. rewrite !length_app, Hs. unfold s. lia. }
  rewrite Hd in Hlist1, Hsplice1.
  assert (Hpre1 : firstn s list1 = pre).
  { unfold list1. rewrite <- Hs. apply firstn_exact. }
  assert (Hskip1 : skipn s list1 = items ++ tail).
  { unfold list1. rewrite <- Hs. apply skipn_exact. }
  rewrite Hpre1, Hskip1, firstn_exact, skipn_exact in Hlist1, Hsplice1.
  simpl inserted in Hsplice1. simpl number_from in Hsplice1.
  simpl app in Hsplice1. rewrite Z.add_0_r in Hsplice1.
  assert (Hwell1' : well_indexed h1 (pre ++ items ++ tail)) by exact Hwell1.
  assert (Hnone : forall r, In r [] -> ~ In r (pre ++ items ++ tail))
    by (intros r []).
  destruct (three_passes h1 pre items tail [] Hwell1' (NoDup_nil _) Hnone)
    as (Hwell2 & Hgone & Hframe2).
  rewrite Hlen in Hwell2, Hgone, Hframe2.
  simpl number_from in Hwell2, Hgone, Hframe2.
  simpl length in Hwell2, Hgone, Hframe2.
  rewrite Z.add_0_r in Hwell2, Hgone, Hframe2.
  simpl app in Hwell2.
  exists h1, list1, (number_from i tail (delete_all items h1)).
  split; [exact Hsplice|].
  split; [rewrite Hsplice1, <- Hlst; reflexivity|].
  split.
  - intros r Hnot.
    destruct (in_dec Nat.eq_dec r lst) as [Hin | Hout].
    + apply In_nth_error in Hin. destruct Hin as [p Hp].
      rewrite (Hwell _ _ Hp). apply Hwell2. rewrite <- Hlst. exact Hp.
    + assert (Hout' : ~ In r (pre ++ tail)) by (rewrite <- Hlst; exact Hout).
      rewrite Hframe2.
      * apply Hframe1; assumption.
      * intros Hin. apply in_app_or in Hin. destruct Hin as [Hin | Hin].
        -- apply Hout'. apply in_or_app. left. exact Hin.
        -- apply in_app_or in Hin. destruct Hin as [Hin | Hin];
             [contradiction|].
           apply Hout'. apply in_or_app. right. exact Hin.
      * intros [].
  - intros r Hin. revert r Hin. apply Forall_forall. exact Hgone.
Qed.

Lemma splice_insert_then_remove_witness :
  let h := fun r => match r with
                    | 1%nat => Some 0%Z | 2%nat => Some 1%Z
                    | 3%nat => Some 2%Z | 9%nat => Some 4%Z | _ => None
                    end in
  exists h1 list1 h2,
    splice h [1; 2; 3]%nat (Base.ItemsArray [9%nat]) (Some 1%Z) 0
    = Some (h1, list1, [])
    /\ splice h1 list1 Base.ItemsNull (Some 1%Z) 1
       = Some (h2, [1; 2; 3]%nat, [9%nat])
    /\ (forall r, ~ In r [9%nat] -> h2 r = h r)
    /\ (forall r, In r [9%nat] -> h2 r = None).
Proof.
  intros h.
  apply (splice_insert_then_remove h [1; 2; 3]%nat [9%nat] 1).
  - intros i r Hnth.
    destruct i as [|[|[|i]]]; simpl in Hnth;
      try (injection Hnth as <-; reflexivity).
    destruct i; discriminate.
  - simpl. lia.
  - constructor; [intros []|constructor].
  - intros r [<- | []] [H | [H | [H | []]]]; discriminate.
Defined.

End SharedSplice.

(** ** More on Base.equals *)

Section EqualsEdges.

Variable coerced_eq : Base.Value -> Base.Value -> bool.
Variable call_equals : nat -> Base.Value -> Base.Value -> Base.Outcome.

#[local] Abbreviation equals := (Base.equals coerced_eq call_equals).

Lemma checkKeys_objects (r1 r2 : nat) (m1 m2 : option nat)
    (props1 props2 : list (string * Base.Value)) :
  Base.checkKeys (Base.Object r1 m1 props1) (Base.Object r2 m2 props2)
  = Some (forallb
            (fun kv => match Base.lookup (fst kv) props2 with
                       | Base.Undefined => false
                       | _ => true
                       end) props1).
Proof.
  unfold Base.checkKeys. simpl Base.own_keys.
  induction props1 as [|[k v] rest IH]; simpl; [reflexivity|].
  destruct (Base.lookup k props2); try exact IH; reflexivity.
Qed.

Lemma checkKeys_against_null (o : Base.Value) :
  Base.own_keys o <> [] -> Base.checkKeys o Base.Null = None.
Proof.
  unfold Base.checkKeys. destruct (Base.own_keys o) as [|k rest];
    [contradiction | reflexivity].
Qed.

Lemma checkKeys_of_null (o : Base.Value) : Base.checkKeys Base.Null o = Some true.
Proof. reflexivity. Qed.

(** X15. Two plain objects none of whose own properties is named like an
    inherited member or [equals], and one of which has an own property
    that is missing (or [undefined]) in the other, are unequal, and this
    is decided on the keys alone, before any property value is
    compared. *)
Theorem equals_objects_with_missing_key (r1 r2 : nat)
    (props1 props2 : list (string * Base.Value)) (k : string) (fuel : nat)
    (Hrefs : r1 <> r2)
    (Hown1 : own_names_only props1)
    (Hown2 : own_names_only props2)
    (Hmissing : (In k (map fst props1) /\ Base.lookup k props2 = Base.Undefined)
                \/ (In k (map fst props2) /\ Base.lookup k props1 = Base.Undefined)) :
  equals (S fuel) (Base.Object r1 None props1) (Base.Object r2 None props2)
  = Base.Returns (Base.Boolean false).
Proof.
  assert (Hfalse : forall (p q : list (string * Base.Value)),
            In k (map fst p) -> Base.lookup k q = Base.Undefined ->
            forallb (fun kv => match Base.lookup (fst kv) q with
                               | Base.Undefined => false
                               | _ => true
                               end) p = false).
  { intros p q Hin Hlook.
    apply not_true_is_false. intros Hall.
    rewrite forallb_forall in Hall.
    apply in_map_iff in Hin. destruct Hin as ([k' v] & Hk & Hin).
    simpl in Hk. subst k'.
    specialize (Hall _ Hin). simpl in Hall. rewrite Hlook in Hall. discriminate. }
  cbn [Base.equals Base.loose_eq Base.is_nullish Base.equals_member
       Base.typeof_object andb].
  destruct (Nat.eqb_spec r1 r2) as [E | _]; [contradiction|].
  rewrite !checkKeys_objects.
  destruct Hmissing as [[Hin Hlook] | [Hin Hlook]].
  - rewrite (Hfalse props1 props2 Hin Hlook). reflexivity.
  - rewrite (Hfalse props2 props1 Hin Hlook).
    destruct (forallb _ props1); reflexivity.
Qed.

(** X16. Comparing [null] with an array or a plain object, in either
    order: when the array or object has an own property the call ends in
    a TypeError ([checkKeys] reads that property of [null]); when it has
    none the call returns true. *)
Theorem equals_with_null (o : Base.Value) (fuel : nat)
    (Hobject : match o with
               | Base.Array _ _ | Base.Object _ None _ => True
               | _ => False
               end) :
  (Base.own_keys o <> [] ->
     equals (S fuel) o Base.Null = Base.Throws
     /\ equals (S fuel) Base.Null o = Base.Throws)
  /\ (Base.own_keys o = [] ->
        equals (S fuel) o Base.Null = Base.Returns (Base.Boolean true)
        /\ equals (S fuel) Base.Null o = Base.Returns (Base.Boolean true)).
Proof.
  destruct o as [| | | | |r elems|r [m|] props]; try contradiction.
  - split; intros Hkeys.
    + cbn [Base.equals Base.loose_eq Base.is_nullish Base.equals_member
           Base.typeof_object andb].
      rewrite checkKeys_of_null, (checkKeys_against_null _ Hkeys).
      split; reflexivity.
    + cbn [Base.equals Base.loose_eq Base.is_nullish Base.equals_member
           Base.typeof_object andb].
      unfold Base.checkKeys. rewrite Hkeys. simpl. split; reflexivity.
  - split; intros Hkeys.
    + cbn [Base.equals Base.loose_eq Base.is_nullish Base.equals_member
           Base.typeof_object andb].
      rewrite checkKeys_of_null, (checkKeys_against_null _ Hkeys).
      split; reflexivity.
    + cbn [Base.equals Base.loose_eq Base.is_nullish Base.equals_member
           Base.typeof_object andb].
      unfold Base.checkKeys. rewrite Hkeys. simpl. split; reflexivity.
Qed.

(** X17. Two different arrays of different lengths are unequal, and two
    different empty arrays are equal; neither answer looks at an
    element. *)
Theorem equals_arrays_by_length (r1 r2 : nat) (elems1 elems2 : list Base.Value)
    (fuel : nat) (Hrefs : r1 <> r2) :
  (length elems1 <> length elems2 ->
     equals (S fuel) (Base.Array r1 elems1) (Base.Array r2 elems2)
     = Base.Returns (Base.Boolean false))
  /\ equals (S fuel) (Base.Array r1 []) (Base.Array r2 [])
     = Base.Returns (Base.Boolean true).
Proof.
  split.
  - intros Hlen. simpl.
    destruct (Nat.eqb_spec r1 r2) as [E | _]; [contradiction|].
    destruct (Nat.eqb_spec (length elems1) (length elems2)) as [E | _];
      [contradiction | reflexivity].
  - simpl. destruct (Nat.eqb_spec r1 r2) as [E | _]; [contradiction | reflexivity].
Qed.

End EqualsEdges.

(** X14. When the [equals] methods that get called return or throw, a
    comparison whose left operand contains no array comes to an end: any
    bound on the nesting of calls above the depth of that operand is
    enough for [Base.equals] to return or throw. *)
Theorem equals_ends_without_arrays
    (coerced_eq : Base.Value -> Base.Value -> bool)
    (call_equals : nat -> Base.Value -> Base.Value -> Base.Outcome)
    (v1 v2 : Base.Value) (fuel : nat)
    (Hmethods : forall m this arg, call_equals m this arg <> Base.OutOfFuel)
    (Hfree : Base.array_free v1 = true)
    (Hfuel : (Base.depth v1 < fuel)%nat) :
  Base.equals coerced_eq call_equals fuel v1 v2 <> Base.OutOfFuel.
Proof.
  apply equals_without_arrays; assumption.
Qed.

Lemma equals_ends_without_arrays_witness :
  Base.equals (fun _ _ => false) (fun _ _ _ => Base.Throws) 3
    (Base.Object 1 None
       [("a"%string, Base.Object 2 None [("b"%string, Base.Number 7)])])
    (Base.Object 3 None
       [("a"%string, Base.Object 4 None [("b"%string, Base.Number 7)])])
  <> Base.OutOfFuel.
Proof.
  apply equals_ends_without_arrays.
  - intros m this arg. discriminate.
  - reflexivity.
  - simpl. lia.
Defined.

Lemma equals_objects_with_missing_key_witness :
  own_names_only [("a"%string, Base.Number 1)]
  /\ own_names_only [("a"%string, Base.Number 1); ("b"%string, Base.Number 2)]
  /\ Base.equals (fun _ _ => false) (fun _ _ _ => Base.Throws) 1
       (Base.Object 1 None [("a"%string, Base.Number 1)])
       (Base.Object 2 None
          [("a"%string, Base.Number 1); ("b"%string, Base.Number 2)])
     = Base.Returns (Base.Boolean false).
Proof.
  assert (H1 : own_names_only [("a"%string, Base.Number 1)]).
  { repeat constructor; simpl; discriminate. }
  assert (H2 : own_names_only
                 [("a"%string, Base.Number 1); ("b"%string, Base.Number 2)]).
  { repeat constructor; simpl; discriminate. }
  split; [exact H1|]. split; [exact H2|].
  apply (equals_objects_with_missing_key _ _ 1 2 _ _ "b"%string 0).
  - discriminate.
  - exact H1.
  - exact H2.
  - right. split; [simpl; right; left; reflexivity | reflexivity].
Defined.

Lemma equals_with_null_witness :
  Base.equals (fun _ _ => false) (fun _ _ _ => Base.Throws) 1
    (Base.Object 1 None [("a"%string, Base.Number 1)]) Base.Null
  = Base.Throws
  /\ Base.equals (fun _ _ => false) (fun _ _ _ => Base.Throws) 1
       (Base.Object 1 None []) Base.Null
     = Base.Returns (Base.Boolean true).
Proof.
  split.
  - apply (equals_with_null (fun _ _ => false) (fun _ _ _ => Base.Throws)
             (Base.Object 1 None [("a"%string, Base.Number 1)]) 0 I).
    discriminate.
  - apply (equals_with_null (fun _ _ => false) (fun _ _ _ => Base.Throws)
             (Base.Object 1 None []) 0 I).
    reflexivity.
Defined.

Lemma equals_arrays_by_length_witness :
  Base.equals (fun _ _ => false) (fun _ _ _ => Base.Throws) 1
    (Base.Array 1 [Base.Number 1]) (Base.Array 2 [])
  = Base.Returns (Base.Boolean false).
Proof.
  apply (equals_arrays_by_length (fun _ _ => false) (fun _ _ _ => Base.Throws)
           1 2 [Base.Number 1] [] 0).
  - discriminate.
  - discriminate.
Defined.


(** ** Base.peekValue and Base.readValue *)

Lemma or_number_cursor (m : Z) : Base.or_number (Some m) 0 = m.
Proof.
  unfold Base.or_number. destruct (Z.eqb_spec m 0) as [-> | _]; reflexivity.
Qed.

Lemma readValue_without_start {A : Type} (args : Base.ArgList A) :
  Base.readValue args None
  = (Base.at_index (Base.elems args) (Base.or_number (Base._index args) 0),
     {| Base.elems := Base.elems args;
        Base._index := Some (Base.or_number (Base._index args) 0 + 1)%Z;
        Base._read := Some 1%Z |}).
Proof. reflexivity. Qed.

Lemma readValues_spec {A : Type} (n : nat) :
  forall args : Base.ArgList A,
    Base.readValues n args
    = (map (fun j => Base.at_index (Base.elems args)
                       (Base.or_number (Base._index args) 0 + Z.of_nat j))
         (seq 0 n),
       match n with
       | O => args
       | S _ => {| Base.elems := Base.elems args;
                   Base._index :=
                     Some (Base.or_number (Base._index args) 0 + Z.of_nat n)%Z;
                   Base._read := Some 1%Z |}
       end).
Proof.
  induction n as [|n IH]; intros args; [reflexivity|].
  cbn [Base.readValues]. rewrite readValue_without_start, IH.
  cbn [Base.elems Base._index]. rewrite or_number_cursor.
  f_equal.
  - cbn [seq map]. rewrite Z.add_0_r. f_equal.
    rewrite <- seq_shift, map_map. apply map_ext. intros j. f_equal. lia.
  - destruct n as [|n']; [reflexivity|]. f_equal. f_equal. lia.
Qed.

(** X18. Reading without a [start] walks the list: [n] successive
    [readValue(list)] calls return the [n] elements from the position
    [list._index] held at first (0 when it was not set), with [undefined]
    for every position outside the list; the elements are left alone and,
    after at least one call, [list._index] is [n] further and
    [list._read] is 1. *)
Theorem readValue_walks_the_list {A : Type} (n : nat) (args : Base.ArgList A) :
  let k := Base.or_number (Base._index args) 0 in
  fst (Base.readValues n args)
  = map (fun j => Base.at_index (Base.elems args) (k + Z.of_nat j)) (seq 0 n)
  /\ Base.elems (snd (Base.readValues n args)) = Base.elems args
  /\ (n <> 0%nat ->
        Base._index (snd (Base.readValues n args)) = Some (k + Z.of_nat n)%Z
        /\ Base._read (snd (Base.readValues n args)) = Some 1%Z).
Proof.
  cbv zeta. rewrite readValues_spec. cbn [fst snd].
  split; [reflexivity|]. destruct n as [|n].
  - split; [reflexivity|]. intros H. contradiction.
  - split; [reflexivity|]. intros _. split; reflexivity.
Qed.

(** X19. Peeking does not consume: [readValue(list)] right after
    [peekValue(list, start)] returns the value that was peeked, and a
    second peek returns it again and changes nothing.  A [start] of 0 is
    the same as no [start]: it does not move a reader that is already
    further on back to the first element. *)
Theorem peekValue_does_not_consume {A : Type} (args : Base.ArgList A)
    (start : option Z) :
  fst (Base.readValue (snd (Base.peekValue args start)) None)
  = fst (Base.peekValue args start)
  /\ Base.peekValue (snd (Base.peekValue args start)) None
     = Base.peekValue args start
  /\ Base.peekValue args (Some 0%Z) = Base.peekValue args None
  /\ Base.readValue args (Some 0%Z) = Base.readValue args None.
Proof.
  unfold Base.readValue, Base.peekValue. cbn [fst snd Base._index Base.elems Base._read].
  rewrite or_number_cursor. cbn [Base.or_number]. repeat split.
Qed.

(** A reader that has read two values is not sent back by [start = 0]. *)
Example readValue_start_zero_after_reads :
  let args := {| Base.elems := [10; 20; 30]%Z; Base._index := None;
                 Base._read := None |} in
  fst (Base.readValue (snd (Base.readValues 2 args)) (Some 0%Z)) = Some 30%Z.
Proof. reflexivity. Qed.


(** ** Base.capitalize, Base.camelize, Base.hyphenate *)

Ltac by_character c :=
  destruct c as [[] [] [] [] [] [] [] []]; vm_compute; intuition congruence.

Lemma is_word_toUpperCase (c : ascii) :
  Base.is_word (Base.toUpperCase c) = Base.is_word c.
Proof. by_character c. Qed.

Lemma toUpperCase_not_lower (c : ascii) :
  Base.is_lower (Base.toUpperCase c) = false.
Proof. by_character c. Qed.

Lemma lower_facts (c : ascii) :
  Base.is_lower c = true ->
  Base.is_upper c = false /\ Base.is_digit c = false
  /\ Base.is_hyphen c = false /\ Base.is_word c = true
  /\ Base.toLowerCase c = c
  /\ Base.is_upper (Base.toUpperCase c) = true
  /\ Base.toLowerCase (Base.toUpperCase c) = c.
Proof. by_character c. Qed.

Lemma capitalize_from_length (str : list ascii) :
  forall after_word, length (Base.capitalize_from after_word str) = length str.
Proof.
  induction str as [|c rest IH]; intros after_word; simpl; [reflexivity|].
  rewrite IH. reflexivity.
Qed.

Lemma capitalize_from_twice (str : list ascii) :
  forall after_word,
    Base.capitalize_from after_word (Base.capitalize_from after_word str)
    = Base.capitalize_from after_word str.
Proof.
  induction str as [|c rest IH]; intros after_word; simpl; [reflexivity|].
  destruct (negb after_word && Base.is_lower c) eqn:Hcond.
  - rewrite toUpperCase_not_lower, andb_false_r, is_word_toUpperCase, IH.
    reflexivity.
  - rewrite Hcond, IH. reflexivity.
Qed.

(** X20. [Base.capitalize] keeps the length of the string, and
    capitalizing twice is the same as capitalizing once. *)
Theorem capitalize_idempotent (str : list ascii) :
  length (Base.capitalize str) = length str
  /\ Base.capitalize (Base.capitalize str) = Base.capitalize str.
Proof.
  split; [apply capitalize_from_length | apply capitalize_from_twice].
Qed.

Lemma capitalize_inside_word (str : list ascii) :
  Forall (fun c => Base.is_word c = true) str ->
  Base.capitalize_from true str = str.
Proof.
  induction 1 as [|c rest Hc _ IH]; simpl; [reflexivity|].
  rewrite Hc, IH. reflexivity.
Qed.

(** X21. On a string made of word characters only (letters, digits,
    underscore), such as a property name, [Base.capitalize] turns the
    first character to upper case and leaves the rest as it is. *)
Theorem capitalize_of_a_name (c : ascii) (rest : list ascii)
    (Hname : Forall (fun a => Base.is_word a = true) (c :: rest)) :
  Base.capitalize (c :: rest) = Base.toUpperCase c :: rest.
Proof.
  inversion Hname as [|c' rest' Hc Hrest]; subst.
  unfold Base.capitalize. simpl. rewrite Hc, (capitalize_inside_word rest Hrest).
  f_equal. unfold Base.toUpperCase. destruct (Base.is_lower c); reflexivity.
Qed.

Lemma capitalize_of_a_name_witness :
  Base.capitalize (list_ascii_of_string "fillColor")
  = list_ascii_of_string "FillColor".
Proof.
  apply (capitalize_of_a_name "f"%char (list_ascii_of_string "illColor")).
  repeat constructor.
Defined.

(** *** Hyphenated and camel-cased names *)

Lemma camelize_cons (c : ascii) (rest : list ascii) :
  Base.camelize (c :: rest)
  = match rest with
    | chr :: rest' =>
        if Base.is_hyphen c && Base.is_word chr
        then Base.toUpperCase chr :: Base.camelize rest'
        else c :: Base.camelize rest
    | [] => [c]
    end.
Proof. destruct rest; reflexivity. Qed.

Lemma hyphenate_matches_cons (a b : ascii) (t' : list ascii) :
  Base.hyphenate_matches (a :: b :: t')
  = if (Base.is_lower a && (Base.is_upper b || Base.is_digit b))
       || (Base.is_digit a && (Base.is_lower b || Base.is_upper b))
    then a :: "-"%char :: b :: Base.hyphenate_matches t'
    else
      match t' with
      | c :: t'' =>
          if Base.is_upper a && Base.is_upper b && Base.is_lower c
          then a :: "-"%char :: b :: c :: Base.hyphenate_matches t''
          else a :: Base.hyphenate_matches (b :: t')
      | [] => a :: Base.hyphenate_matches (b :: t')
      end.
Proof. destruct t'; reflexivity. Qed.

Lemma camelize_lower_run (w : list ascii) :
  Base.lower_word w ->
  forall rest, Base.camelize (w ++ rest) = w ++ Base.camelize rest.
Proof.
  induction 1 as [|c w' Hc _ IH]; intros rest; [reflexivity|].
  destruct (lower_facts c Hc) as (_ & _ & Hhyphen & _).
  change ((c :: w') ++ rest) with (c :: (w' ++ rest)).
  change ((c :: w') ++ Base.camelize rest) with (c :: (w' ++ Base.camelize rest)).
  rewrite camelize_cons, Hhyphen. cbn [andb].
  rewrite <- IH. destruct (w' ++ rest); reflexivity.
Qed.

Lemma camelize_hyphenated (first : list ascii) (others : list (list ascii)) :
  named_words first others ->
  Base.camelize (Base.hyphenated first others) = Base.camel_cased first others.
Proof.
  intros (_ & Hfirst & Hothers).
  unfold Base.hyphenated, Base.camel_cased.
  rewrite (camelize_lower_run first Hfirst). f_equal.
  induction Hothers as [|w ws [Hw Hlen] _ IH]; [reflexivity|].
  destruct w as [|h t]; [simpl in Hlen; lia|].
  inversion Hw as [|h' t' Hh Ht]; subst.
  destruct (lower_facts h Hh) as (_ & _ & _ & Hword & _).
  cbn [map concat Base.capitalized]. 
  change (("-"%char :: h :: t) ++ concat (map (fun w => "-"%char :: w) ws))
    with ("-"%char :: h :: (t ++ concat (map (fun w => "-"%char :: w) ws))).
  rewrite camelize_cons, Hword.
  change (Base.is_hyphen "-" && true) with true. cbv iota.
  rewrite (camelize_lower_run t Ht), IH. reflexivity.
Qed.

Lemma hyphenate_matches_lower_run (w : list ascii) :
  Base.lower_word w ->
  forall a rest,
    Base.is_lower a = true ->
    (rest = []
     \/ exists H x rest', rest = H :: x :: rest'
                          /\ Base.is_upper H = true /\ Base.is_lower x = true) ->
    Base.hyphenate_matches (a :: w ++ rest)
    = a :: w ++ match rest with
                | [] => []
                | H :: tail => "-"%char :: H :: Base.hyphenate_matches tail
                end.
Proof.
  induction 1 as [|b w' Hb _ IH]; intros a rest Ha Hrest.
  - destruct (lower_facts a Ha) as (Hup & Hdig & _).
    destruct Hrest as [-> | (H & x & rest' & -> & HH & Hx)]; [reflexivity|].
    cbn [app]. rewrite hyphenate_matches_cons, Ha, HH. reflexivity.
  - destruct (lower_facts a Ha) as (Hup & Hdig & _).
    destruct (lower_facts b Hb) as (Hupb & Hdigb & _).
    change (a :: (b :: w') ++ rest) with (a :: b :: (w' ++ rest)).
    change (a :: (b :: w') ++ ?r) with (a :: b :: (w' ++ r)).
    rewrite hyphenate_matches_cons.
    rewrite Hupb, Hdigb, Hdig, Hup. cbn [orb andb]. rewrite andb_false_r.
    cbn [orb].
    rewrite <- (IH b rest Hb Hrest).
    destruct (w' ++ rest); reflexivity.
Qed.

Lemma hyphenate_matches_camel (others : list (list ascii)) :
  Forall (fun w => Base.lower_word w /\ (2 <= length w)%nat) others ->
  forall a w,
    Base.is_lower a = true -> Base.lower_word w ->
    Base.hyphenate_matches (a :: w ++ concat (map Base.capitalized others))
    = a :: w ++ concat (map (fun v => "-"%char :: Base.capitalized v) others).
Proof.
  induction 1 as [|v vs [Hv Hlen] _ IH]; intros a w Ha Hw.
  - cbn [map concat].
    rewrite (hyphenate_matches_lower_run w Hw a [] Ha) by (left; reflexivity).
    reflexivity.
  - destruct v as [|h [|x t]]; simpl in Hlen; try lia.
    inversion Hv as [|h' t' Hh Hxt]; subst.
    inversion Hxt as [|x' t'' Hx Ht]; subst.
    destruct (lower_facts h Hh) as (_ & _ & _ & _ & _ & Hupper & _).
    cbn [map concat Base.capitalized].
    change ((Base.toUpperCase h :: x :: t) ++ concat (map Base.capitalized vs))
      with (Base.toUpperCase h :: x :: (t ++ concat (map Base.capitalized vs))).
    rewrite (hyphenate_matches_lower_run w Hw a _ Ha).
    + rewrite (IH x t Hx Ht). reflexivity.
    + right. eexists _, _, _. split; [reflexivity|]. split; assumption.
Qed.

Lemma toLowerCase_lower_word (w : list ascii) :
  Base.lower_word w -> map Base.toLowerCase w = w.
Proof.
  induction 1 as [|c w' Hc _ IH]; simpl; [reflexivity|].
  destruct (lower_facts c Hc) as (_ & _ & _ & _ & Hlow & _).
  rewrite Hlow, IH. reflexivity.
Qed.

Lemma hyphenate_camel_cased (first : list ascii) (others : list (list ascii)) :
  named_words first others ->
  Base.hyphenate (Base.camel_cased first others) = Base.hyphenated first others.
Proof.
  intros (Hne & Hfirst & Hothers).
  destruct first as [|a w]; [contradiction|].
  inversion Hfirst as [|a' w' Ha Hw]; subst.
  unfold Base.hyphenate, Base.camel_cased, Base.hyphenated.
  change ((a :: w) ++ concat (map Base.capitalized others))
    with (a :: w ++ concat (map Base.capitalized others)).
  rewrite (hyphenate_matches_camel others Hothers a w Ha Hw).
  change (a :: w ++ ?r) with ((a :: w) ++ r).
  rewrite map_app, (toLowerCase_lower_word (a :: w) Hfirst). f_equal.
  clear - Hothers.
  induction Hothers as [|v vs [Hv Hlen] _ IH]; [reflexivity|].
  destruct v as [|h t]; [simpl in Hlen; lia|].
  inversion Hv as [|h' t' Hh Ht]; subst.
  destruct (lower_facts h Hh) as (_ & _ & _ & _ & _ & _ & Hback).
  cbn [map concat Base.capitalized]. rewrite map_app. cbn [map].
  rewrite Hback, (toLowerCase_lower_word t Ht), IH. reflexivity.
Qed.

(** X22. On a hyphenated name (a non-empty first word of lower-case
    letters, then words of two or more lower-case letters, joined by
    single hyphens, like [stroke-width]) [Base.camelize] gives the
    camel-cased name ([strokeWidth]) and [Base.hyphenate] brings it back:
    [hyphenate(camelize(name)) = name]. *)
Theorem hyphenate_after_camelize (first : list ascii) (others : list (list ascii))
    (Hname : named_words first others) :
  Base.camelize (Base.hyphenated first others) = Base.camel_cased first others
  /\ Base.hyphenate (Base.camelize (Base.hyphenated first others))
     = Base.hyphenated first others.
Proof.
  rewrite (camelize_hyphenated first others Hname).
  split; [reflexivity | apply hyphenate_camel_cased; exact Hname].
Qed.

(** X23. The other way round: on a camel-cased name built from such
    words, [camelize(hyphenate(name)) = name]. *)
Theorem camelize_after_hyphenate (first : list ascii) (others : list (list ascii))
    (Hname : named_words first others) :
  Base.hyphenate (Base.camel_cased first others) = Base.hyphenated first others
  /\ Base.camelize (Base.hyphenate (Base.camel_cased first others))
     = Base.camel_cased first others.
Proof.
  rewrite (hyphenate_camel_cased first others Hname).
  split; [reflexivity | apply camelize_hyphenated; exact Hname].
Qed.

Lemma named_words_stroke_dash_offset :
  named_words (list_ascii_of_string "stroke")
    [list_ascii_of_string "dash"; list_ascii_of_string "offset"].
Proof.
  split; [discriminate|]. split; [repeat constructor|].
  repeat constructor.
Qed.

Lemma hyphenate_after_camelize_witness :
  Base.camelize (list_ascii_of_string "stroke-dash-offset")
  = list_ascii_of_string "strokeDashOffset"
  /\ Base.hyphenate (Base.camelize (list_ascii_of_string "stroke-dash-offset"))
     = list_ascii_of_string "stroke-dash-offset".
Proof.
  exact (hyphenate_after_camelize _ _ named_words_stroke_dash_offset).
Defined.

Lemma camelize_after_hyphenate_witness :
  Base.hyphenate (list_ascii_of_string "strokeDashOffset")
  = list_ascii_of_string "stroke-dash-offset"
  /\ Base.camelize (Base.hyphenate (list_ascii_of_string "strokeDashOffset"))
     = list_ascii_of_string "strokeDashOffset".
Proof.
  exact (camelize_after_hyphenate _ _ named_words_stroke_dash_offset).
Defined.
